(** * Quop: single-qubit operations as 2x2 complex matrices

    A shallow embedding of [src/quop.js].  JavaScript numbers are IEEE-754
    binary64 values, so they are modelled by Rocq's primitive floats: every
    arithmetic operation below rounds, overflows and produces NaN exactly as
    the script does.  Code that can [throw] returns a [result].

    The reference algorithm of the specification is stated over an
    arithmetic and compared with the script at binary64.  The real numbers
    only measure how far the numbers of the script are from the mathematics
    they approximate. *)

From Stdlib Require Import Reals Lra.
From Stdlib Require Import Bool List String Arith ZArith.
From Stdlib Require Import Lia.
From Stdlib Require Import Uint63 Floats.
Import ListNotations.

Set Warnings "-inexact-float,-register-all".

Local Open Scope float_scope.

(** ** Values of the script *)

(** A complex number: its real and its imaginary part, over the numbers
    [num]. *)
Record complex_of (num : Type) : Type := mkComplex { real : num; imag : num }.

Arguments mkComplex {num} real imag.
Arguments real {num} _.
Arguments imag {num} _.

(** A 2x2 matrix [[a, b], [c, d]] of complex numbers. *)
Record quop_of (num : Type) : Type :=
  mkQuop { a : complex_of num; b : complex_of num;
           c : complex_of num; d : complex_of num }.

Arguments mkQuop {num} a b c d.
Arguments a {num} _.
Arguments b {num} _.
Arguments c {num} _.
Arguments d {num} _.

(** An instance of [Complex]: the two fields the constructor stores are
    JavaScript numbers. *)
Definition complex : Type := complex_of float.

(** An instance of [Quop]: the constructor only ever stores instances of
    [Complex] in the four fields. *)
Definition quop : Type := quop_of float.

(** The JavaScript values the functions of the file can be handed. *)
Inductive value : Type :=
| VUndefined
| VNull
| VBoolean (t : bool)
| VNumber (n : float)
| VString (s : string)
| VComplex (z : complex)
| VQuop (q : quop)
| VArray (l : list value).

(** What a [throw] carries: the script throws the text [msg + arg]. *)
Inductive exn : Type :=
| Thrown (msg : string) (arg : value).

(** The outcome of a call: a returned value or a thrown one. *)
Inductive result (A : Type) : Type :=
| Ok (x : A)
| Raise (e : exn).

Arguments Ok {A} x.
Arguments Raise {A} e.

Definition bind {A B : Type} (r : result A) (k : A -> result B) : result B :=
  match r with
  | Ok x => k x
  | Raise e => Raise e
  end.

Notation "x <- r ;; k" := (bind r (fun x => k))
  (at level 61, r at next level, right associativity).

(** [returns r]: the call came back with a value. *)
Definition returns {A : Type} (r : result A) : bool :=
  match r with
  | Ok _ => true
  | Raise _ => false
  end.

(** [coefs[i]]: reading past the end of an array gives [undefined]. *)
Definition item (l : list value) (i : nat) : value := nth i l VUndefined.

(** [v[i] * k] for an array of numbers: [undefined * k] is NaN. *)
Definition number_at (v : list float) (i : nat) : float := nth i v nan.

(** ** The complex numbers of [complex.js] *)

Module Complex.

(** Modelled from the spec: [complex.js] is not part of the sources.
    [Complex.from(v)] builds a [Complex] from a real number or returns the
    [Complex] it is given; nothing else converts (the text thrown then is
    not specified). *)
Definition from (v : value) : result complex :=
  match v with
  | VComplex z => Ok z
  | VNumber n => Ok (mkComplex n 0)
  | _ => Raise (Thrown "Don't know how to convert into a Complex: " v)
  end.

(** Modelled from the spec: [complex.js] is not part of the sources.
    Equality of the real and of the imaginary parts, as JavaScript compares
    numbers; [false], never a throw, on a value that is not a [Complex]. *)
Definition isEqualTo (this : complex) (other : value) : bool :=
  match other with
  | VComplex o => (real this =? real o) && (imag this =? imag o)
  | _ => false
  end.

(** Modelled from the spec: [complex.js] is not part of the sources.
    The conjugate keeps the real part and negates the imaginary part. *)
Definition conjugate (this : complex) : complex :=
  mkComplex (real this) (- imag this).

(** Modelled from the spec: [complex.js] is not part of the sources.
    Componentwise sum. *)
Definition plus (this other : complex) : complex :=
  mkComplex (real this + real other) (imag this + imag other).

(** Modelled from the spec: [complex.js] is not part of the sources.
    Componentwise difference. *)
Definition minus (this other : complex) : complex :=
  mkComplex (real this - real other) (imag this - imag other).

(** Modelled from the spec: [complex.js] is not part of the sources.
    The product of two complex numbers. *)
Definition mul (this other : complex) : complex :=
  mkComplex (real this * real other - imag this * imag other)
            (real this * imag other + imag this * real other).

(** Modelled from the spec: [complex.js] is not part of the sources.
    [times(v)] takes a real number or a [Complex]: the factor is converted
    and the two complex numbers are multiplied. *)
Definition times (this : complex) (v : value) : result complex :=
  o <- from v ;;
  Ok (mul this o).

End Complex.

(** ** The operations of [quop.js] *)

Module Quop.

(** One [instanceof Complex] test of the constructor. *)
Definition need_Complex (name : string) (v : value) : result complex :=
  match v with
  | VComplex z => Ok z
  | _ => Raise (Thrown ("need(" ++ name ++ " instanceof Complex): ") v)
  end.

(** [new Quop(a, b, c, d)] *)
Definition new (a b c d : value) : result quop :=
  a' <- need_Complex "a" a ;;
  b' <- need_Complex "b" b ;;
  c' <- need_Complex "c" c ;;
  d' <- need_Complex "d" d ;;
  Ok (mkQuop a' b' c' d').

(** [Quop.from(coefs)] *)
Definition from (coefs : value) : result quop :=
  match coefs with
  | VArray l =>
      if negb (Nat.eqb (List.length l) 4)
      then Raise (Thrown "Wrong number of coefficients: " coefs)
      else
        c0 <- Complex.from (item l 0) ;;
        c1 <- Complex.from (item l 1) ;;
        c2 <- Complex.from (item l 2) ;;
        c3 <- Complex.from (item l 3) ;;
        new (VComplex c0) (VComplex c1) (VComplex c2) (VComplex c3)
  | _ => Raise (Thrown "Don't know how to convert into a 2x2 unitary matrix: " coefs)
  end.

(** [Quop.prototype.isEqualTo] *)
Definition isEqualTo (this : quop) (other : value) : bool :=
  match other with
  | VQuop o =>
      Complex.isEqualTo (a this) (VComplex (a o)) &&
      Complex.isEqualTo (b this) (VComplex (b o)) &&
      Complex.isEqualTo (c this) (VComplex (c o)) &&
      Complex.isEqualTo (d this) (VComplex (d o))
  | _ => false
  end.

Section Display.

(** The text a [Complex] turns into when it is added to a string
    ([Complex.prototype.toString] of [complex.js], not part of the sources). *)
Variable Complex_toString : complex -> string.

(** [Quop.prototype.toString] *)
Definition toString (this : quop) : string :=
  ("{{" ++ Complex_toString (a this) ++ ", " ++ Complex_toString (b this)
   ++ "}, {" ++ Complex_toString (c this) ++ ", " ++ Complex_toString (d this)
   ++ "}}")%string.

End Display.

(** [Quop.prototype.adjoint] *)
Definition adjoint (this : quop) : result quop :=
  new (VComplex (Complex.conjugate (a this)))
      (VComplex (Complex.conjugate (c this)))
      (VComplex (Complex.conjugate (b this)))
      (VComplex (Complex.conjugate (d this))).

(** [Quop.prototype.scaledBy] *)
Definition scaledBy (this : quop) (v : value) : result quop :=
  a' <- Complex.times (a this) v ;;
  b' <- Complex.times (b this) v ;;
  c' <- Complex.times (c this) v ;;
  d' <- Complex.times (d this) v ;;
  new (VComplex a') (VComplex b') (VComplex c') (VComplex d').

(** [Quop.prototype.plus] *)
Definition plus (this other : quop) : result quop :=
  new (VComplex (Complex.plus (a this) (a other)))
      (VComplex (Complex.plus (b this) (b other)))
      (VComplex (Complex.plus (c this) (c other)))
      (VComplex (Complex.plus (d this) (d other))).

(** [Quop.prototype.minus] *)
Definition minus (this other : quop) : result quop :=
  new (VComplex (Complex.minus (a this) (a other)))
      (VComplex (Complex.minus (b this) (b other)))
      (VComplex (Complex.minus (c this) (c other)))
      (VComplex (Complex.minus (d this) (d other))).

(** [Quop.prototype.times] *)
Definition times (this other : quop) : result quop :=
  let '(mkQuop a b c d) := this in
  let '(mkQuop e f g h) := other in
  ae <- Complex.times a (VComplex e) ;;
  bg <- Complex.times b (VComplex g) ;;
  af <- Complex.times a (VComplex f) ;;
  bh <- Complex.times b (VComplex h) ;;
  ce <- Complex.times c (VComplex e) ;;
  dg <- Complex.times d (VComplex g) ;;
  cf <- Complex.times c (VComplex f) ;;
  dh <- Complex.times d (VComplex h) ;;
  new (VComplex (Complex.plus ae bg)) (VComplex (Complex.plus af bh))
      (VComplex (Complex.plus ce dg)) (VComplex (Complex.plus cf dh)).

(** The value a constant of the script holds once its initialiser returned. *)
Definition loaded (r : result quop) : quop :=
  match r with
  | Ok q => q
  | Raise _ => mkQuop (mkComplex nan nan) (mkComplex nan nan)
                      (mkComplex nan nan) (mkComplex nan nan)
  end.

(** [Quop.IDENTITY = Quop.from([1, 0, 0, 1])] *)
Definition IDENTITY_init : result quop :=
  from (VArray [VNumber 1; VNumber 0; VNumber 0; VNumber 1]).
Definition IDENTITY : quop := loaded IDENTITY_init.

(** [Quop.PAULI_X = Quop.from([0, 1, 1, 0])] *)
Definition PAULI_X_init : result quop :=
  from (VArray [VNumber 0; VNumber 1; VNumber 1; VNumber 0]).
Definition PAULI_X : quop := loaded PAULI_X_init.

(** [Quop.PAULI_Y = Quop.from([0, new Complex(0, -1), new Complex(0, 1), 0])] *)
Definition PAULI_Y_init : result quop :=
  from (VArray [VNumber 0; VComplex (mkComplex 0 (-1));
                VComplex (mkComplex 0 1); VNumber 0]).
Definition PAULI_Y : quop := loaded PAULI_Y_init.

(** [Quop.PAULI_Z = Quop.from([1, 0, 0, -1])] *)
Definition PAULI_Z_init : result quop :=
  from (VArray [VNumber 1; VNumber 0; VNumber 0; VNumber (-1)]).
Definition PAULI_Z : quop := loaded PAULI_Z_init.

(** [Quop.HADAMARD = Quop.from([1, 1, 1, -1]).scaledBy(Math.sqrt(0.5))] *)
Definition HADAMARD_init : result quop :=
  h <- from (VArray [VNumber 1; VNumber 1; VNumber 1; VNumber (-1)]) ;;
  scaledBy h (VNumber (PrimFloat.sqrt 0.5)).
Definition HADAMARD : quop := loaded HADAMARD_init.

(** [Math.PI], the binary64 value nearest to pi. *)
Definition Math_PI : float := 0x1.921fb54442d18p+1.

Section Rotation.

(** [Math.sin] and [Math.cos] are functions of the host: the language
    standard only asks them for an approximation, so they are parameters. *)
Variables Math_sin Math_cos : float -> float.

(** The local function [sinc] of [Quop.fromRotation]. *)
Definition sinc (t : float) : float :=
  if PrimFloat.abs t <? 0.0002 then 1 - t * t / 6.0 else Math_sin t / t.

(** The local variable [s] of [Quop.fromRotation], from the scaled [x], [y]
    and [z]: [a >= 0] is [0 <= a], and false on NaN. *)
Definition fromRotation_s (x y z : float) : float :=
  if 0 <=? -11 * x + -13 * y + -17 * z then 1 else -1.

(** The local variable [theta] of [Quop.fromRotation]. *)
Definition fromRotation_theta (x y z : float) : float :=
  PrimFloat.sqrt (x * x + y * y + z * z).

(** [Quop.fromRotation(v)] *)
Definition fromRotation (v : list float) : result quop :=
  let x := number_at v 0 * Math_PI * 2 in
  let y := number_at v 1 * Math_PI * 2 in
  let z := number_at v 2 * Math_PI * 2 in

  let s := fromRotation_s x y z in
  let theta := fromRotation_theta x y z in
  vx <- scaledBy PAULI_X (VNumber x) ;;
  vy <- scaledBy PAULI_Y (VNumber y) ;;
  vxy <- plus vx vy ;;
  vz <- scaledBy PAULI_Z (VNumber z) ;;
  sigma_v <- plus vxy vz ;;

  ci <- Complex.times (mkComplex (1 + Math_cos (s * theta)) (Math_sin (s * theta)))
                      (VNumber 0.5) ;;
  cv <- Complex.times (mkComplex (Math_sin (theta / 2) * sinc (theta / 2))
                                 (- s * sinc theta))
                      (VNumber (s * 0.5)) ;;

  i <- scaledBy IDENTITY (VComplex ci) ;;
  w <- scaledBy sigma_v (VComplex cv) ;;
  minus i w.

End Rotation.

End Quop.

(** ** Arithmetics

    What the reference algorithm needs of its numbers: the integers, the
    four operations, negation, absolute value, square root, sine, cosine,
    pi and two comparisons ([nlit] is the integer literal). *)

Record arith (num : Type) : Type := mkArith {
  nlit : Z -> num;
  nadd : num -> num -> num;
  nsub : num -> num -> num;
  nmul : num -> num -> num;
  ndiv : num -> num -> num;
  nopp : num -> num;
  nabs : num -> num;
  nsqrt : num -> num;
  nsin : num -> num;
  ncos : num -> num;
  npi : num;
  nltb : num -> num -> bool;
  nleb : num -> num -> bool
}.

Arguments nlit {num} _ _.
Arguments nadd {num} _ _ _.
Arguments nsub {num} _ _ _.
Arguments nmul {num} _ _ _.
Arguments ndiv {num} _ _ _.
Arguments nopp {num} _ _.
Arguments nabs {num} _ _.
Arguments nsqrt {num} _ _.
Arguments nsin {num} _ _.
Arguments ncos {num} _ _.
Arguments npi {num} _.
Arguments nltb {num} _ _ _.
Arguments nleb {num} _ _ _.

(** An integer as a JavaScript number (exact up to 2^53). *)
Definition float_of_Z (z : Z) : float :=
  match z with
  | Z0 => 0
  | Zpos p => of_uint63 (Uint63.of_Z (Zpos p))
  | Zneg p => - of_uint63 (Uint63.of_Z (Zpos p))
  end.

(** The arithmetic of the script: binary64, with the sine and the cosine of
    the host. *)
Definition binary64 (Math_sin Math_cos : float -> float) : arith float :=
  {| nlit := float_of_Z;
     nadd := PrimFloat.add;
     nsub := PrimFloat.sub;
     nmul := PrimFloat.mul;
     ndiv := PrimFloat.div;
     nopp := PrimFloat.opp;
     nabs := PrimFloat.abs;
     nsqrt := PrimFloat.sqrt;
     nsin := Math_sin;
     ncos := Math_cos;
     npi := Quop.Math_PI;
     nltb := PrimFloat.ltb;
     nleb := PrimFloat.leb |}.

(** ** The reference algorithm of the specification

    The operations and the conversion of a rotation vector as the
    specification words them, over an arithmetic [N].  They are pure: the
    specification gives them no way to fail. *)

Declare Scope arith_scope.
Delimit Scope arith_scope with ar.

Module Reference.

Section Algorithm.

Variable num : Type.
Variable N : arith num.

Local Notation "# z" := (nlit N z%Z) (at level 1, format "# z") : arith_scope.
Local Notation "x + y" := (nadd N x y) : arith_scope.
Local Notation "x - y" := (nsub N x y) : arith_scope.
Local Notation "x * y" := (nmul N x y) : arith_scope.
Local Notation "x / y" := (ndiv N x y) : arith_scope.
Local Notation "- x" := (nopp N x) : arith_scope.
Local Notation "x <? y" := (nltb N x y) : arith_scope.
Local Notation "x <=? y" := (nleb N x y) : arith_scope.
Local Open Scope arith_scope.

(** *** The Scalar contract *)

(** [fromReal(number)] *)
Definition fromReal (r : num) : complex_of num := mkComplex r #0.

(** [fromComplex(re, im)] *)
Definition fromComplex (re im : num) : complex_of num := mkComplex re im.

(** [conjugate()] *)
Definition conjugate (z : complex_of num) : complex_of num :=
  mkComplex (real z) (- imag z).

(** The sum, the difference and the product of two Scalars. *)
Definition cplus (z o : complex_of num) : complex_of num :=
  mkComplex (real z + real o) (imag z + imag o).

Definition cminus (z o : complex_of num) : complex_of num :=
  mkComplex (real z - real o) (imag z - imag o).

Definition ctimes (z o : complex_of num) : complex_of num :=
  mkComplex (real z * real o - imag z * imag o)
            (real z * imag o + imag z * real o).

(** *** Operations *)

(** [construct(a, b, c, d)] *)
Definition construct (a b c d : complex_of num) : quop_of num := mkQuop a b c d.

Definition Identity : quop_of num :=
  construct (fromReal #1) (fromReal #0) (fromReal #0) (fromReal #1).

Definition PauliX : quop_of num :=
  construct (fromReal #0) (fromReal #1) (fromReal #1) (fromReal #0).

Definition PauliY : quop_of num :=
  construct (fromReal #0) (fromComplex #0 #(-1)) (fromComplex #0 #1) (fromReal #0).

Definition PauliZ : quop_of num :=
  construct (fromReal #1) (fromReal #0) (fromReal #0) (fromReal #(-1)).

(** [adjoint()]: the conjugate transpose. *)
Definition adjoint (q : quop_of num) : quop_of num :=
  construct (conjugate (a q)) (conjugate (c q))
            (conjugate (b q)) (conjugate (d q)).

(** [scaledBy(v)] multiplies all four entries by [v]. *)
Definition scaledBy (q : quop_of num) (v : complex_of num) : quop_of num :=
  construct (ctimes (a q) v) (ctimes (b q) v) (ctimes (c q) v) (ctimes (d q) v).

(** [plus(other)]: the element-wise sum. *)
Definition plus (q o : quop_of num) : quop_of num :=
  construct (cplus (a q) (a o)) (cplus (b q) (b o))
            (cplus (c q) (c o)) (cplus (d q) (d o)).

(** [minus(other)]: the element-wise difference. *)
Definition minus (q o : quop_of num) : quop_of num :=
  construct (cminus (a q) (a o)) (cminus (b q) (b o))
            (cminus (c q) (c o)) (cminus (d q) (d o)).

(** [times(other)]: the matrix product, receiver on the left. *)
Definition times (q o : quop_of num) : quop_of num :=
  construct (cplus (ctimes (a q) (a o)) (ctimes (b q) (c o)))
            (cplus (ctimes (a q) (b o)) (ctimes (b q) (d o)))
            (cplus (ctimes (c q) (a o)) (ctimes (d q) (c o)))
            (cplus (ctimes (c q) (b o)) (ctimes (d q) (d o))).

(** The entry in row [i], column [j] of the matrix, rows and columns
    numbered [false] then [true]. *)
Definition entry (q : quop_of num) (i j : bool) : complex_of num :=
  match i, j with
  | false, false => a q
  | false, true => b q
  | true, false => c q
  | true, true => d q
  end.

(** Approximate equality: every real and every imaginary part of [q] is
    less than [eps] away from that of [o]. *)
Definition cnear (eps : num) (z o : complex_of num) : bool :=
  (nabs N (real z - real o) <? eps) && (nabs N (imag z - imag o) <? eps).

Definition near (eps : num) (q o : quop_of num) : bool :=
  cnear eps (a q) (a o) && cnear eps (b q) (b o) &&
  cnear eps (c q) (c o) && cnear eps (d q) (d o).

(** The tolerance 1e-9. *)
Definition tolerance : num := #1 / #1000000000.

(** *** The conversion of a rotation vector *)

(** Step 5: the series below 0.0002, that is 2/10000. *)
Definition sinc (t : num) : num :=
  if nabs N t <? #2 / #10000 then #1 - t * t / #6 else nsin N t / t.

(** Step 2: the angle, from the scaled components. *)
Definition angle (x' y' z' : num) : num :=
  nsqrt N (x' * x' + y' * y' + z' * z').

(** Step 3: the sign, 1 when the linear form is at least 0. *)
Definition sign (x' y' z' : num) : num :=
  if #0 <=? #(-11) * x' - #13 * y' - #17 * z' then #1 else #(-1).

(** Step 4: the scaled Pauli constants, summed.  A real factor of a Scalar
    goes through [fromReal]. *)
Definition sigma (x' y' z' : num) : quop_of num :=
  plus (plus (scaledBy PauliX (fromReal x')) (scaledBy PauliY (fromReal y')))
       (scaledBy PauliZ (fromReal z')).

(** Step 6: the two coefficients.  The decimal 0.5 is 1/2. *)
Definition c_identity (s theta : num) : complex_of num :=
  ctimes (fromReal (#1 / #2))
         (fromComplex (#1 + ncos N (s * theta)) (nsin N (s * theta))).

Definition c_axis (s theta : num) : complex_of num :=
  ctimes (fromReal (s * (#1 / #2)))
         (fromComplex (nsin N (theta / #2) * sinc (theta / #2))
                      (- s * sinc theta)).

(** Step 7: the identity scaled, minus sigma scaled. *)
Definition blend (ci cv : complex_of num) (sv : quop_of num) : quop_of num :=
  minus (scaledBy Identity ci) (scaledBy sv cv).

Definition rotation (x' y' z' : num) : quop_of num :=
  let theta := angle x' y' z' in
  let s := sign x' y' z' in
  blend (c_identity s theta) (c_axis s theta) (sigma x' y' z').

(** Step 1, then the rest. *)
Definition fromRotationVector (x y z : num) : quop_of num :=
  rotation (#2 * (npi N * x)) (#2 * (npi N * y)) (#2 * (npi N * z)).

End Algorithm.

Arguments fromReal {num} N r.
Arguments fromComplex {num} re im.
Arguments conjugate {num} N z.
Arguments cplus {num} N z o.
Arguments cminus {num} N z o.
Arguments ctimes {num} N z o.
Arguments construct {num} a b c d.
Arguments Identity {num} N.
Arguments PauliX {num} N.
Arguments PauliY {num} N.
Arguments PauliZ {num} N.
Arguments adjoint {num} N q.
Arguments scaledBy {num} N q v.
Arguments plus {num} N q o.
Arguments minus {num} N q o.
Arguments times {num} N q o.
Arguments entry {num} q i j.
Arguments cnear {num} N eps z o.
Arguments near {num} N eps q o.
Arguments tolerance {num} N.
Arguments sinc {num} N t.
Arguments angle {num} N x' y' z'.
Arguments sign {num} N x' y' z'.
Arguments sigma {num} N x' y' z'.
Arguments c_identity {num} N s theta.
Arguments c_axis {num} N s theta.
Arguments blend {num} N ci cv sv.
Arguments rotation {num} N x' y' z'.
Arguments fromRotationVector {num} N x y z.

End Reference.

(** ** Sample host functions

    Concrete stand-ins for the parameters, to run the definitions on. *)

(** Polynomial approximations of sine and cosine. *)
Definition poly_sin (t : float) : float := t - t * t * t / 6.
Definition poly_cos (t : float) : float := 1 - t * t / 2.

(** A display of the complex numbers with parts among -1, 0 and 1. *)
Definition show_unit (n : float) : string :=
  if n =? 0 then "0" else if n =? 1 then "1" else if n =? -1 then "-1" else "?".
Definition show_complex (z : complex) : string :=
  if imag z =? 0 then show_unit (real z)
  else (show_unit (real z) ++ "+" ++ show_unit (imag z) ++ "i")%string.

(** [convertible v]: [v] is a real number or a [Complex]. *)
Definition convertible (v : value) : bool :=
  match v with
  | VNumber _ | VComplex _ => true
  | _ => false
  end.

(** [is_Quop v]: [v instanceof Quop]. *)
Definition is_Quop (v : value) : bool :=
  match v with
  | VQuop _ => true
  | _ => false
  end.

(** No real or imaginary part of the matrix is NaN. *)
Definition nan_free_complex (z : complex) : bool :=
  negb (is_nan (real z)) && negb (is_nan (imag z)).
Definition nan_free (q : quop) : bool :=
  nan_free_complex (a q) && nan_free_complex (b q) &&
  nan_free_complex (c q) && nan_free_complex (d q).

(** The matrix whose eight parts are all NaN. *)
Definition nan_quop : quop :=
  mkQuop (mkComplex nan nan) (mkComplex nan nan)
         (mkComplex nan nan) (mkComplex nan nan).

(** [fromRotation(v).times(fromRotation(v).adjoint())] compared with the
    identity, within 1e-9 on every part. *)
Definition unitary_check (Math_sin Math_cos : float -> float) (v : list float)
  : result bool :=
  U <- Quop.fromRotation Math_sin Math_cos v ;;
  U' <- Quop.adjoint U ;;
  P <- Quop.times U U' ;;
  Ok (Reference.near (binary64 Math_sin Math_cos)
                     (Reference.tolerance (binary64 Math_sin Math_cos))
                     P Quop.IDENTITY).

(** ** Quantities of the analysis over the real numbers *)

(** For the coefficients [p + q i] of the identity and [u + w i] of sigma:
    the diagonal of the product with the adjoint is
    [norm_part - 1 +/- 2 z cross_part] away from 1, the rest is a multiple of
    [cross_part]. *)
Definition norm_part (p q u w theta : R) : R :=
  (p * p + q * q + (u * u + w * w) * (theta * theta))%R.

Definition cross_part (p q u w : R) : R := (p * u + q * w)%R.

(** The bound proved on both, a ten-thousandth of the tolerance. *)
Definition bound : R := (1 / 10000000000000)%R.

(** The coefficients of the algorithm as real numbers: [s] is the sign,
    [t] half the angle, [S1] and [S2] the values of [sinc] at [t] and at
    [2 t].  [ideal_p + ideal_q i] is the coefficient of the identity,
    [ideal_mu + ideal_nu i] that of sigma. *)
Definition ideal_p (s t : R) : R := ((1 + cos (s * (2 * t))) / 2)%R.
Definition ideal_q (s t : R) : R := (sin (s * (2 * t)) / 2)%R.
Definition ideal_mu (s t S1 : R) : R := (s / 2 * (sin t * S1))%R.
Definition ideal_nu (S2 : R) : R := (- (S2 / 2))%R.

(** ** Predicates of the further properties *)

(** [is_Complex v]: [v instanceof Complex]. *)
Definition is_Complex (v : value) : bool :=
  match v with
  | VComplex _ => true
  | _ => false
  end.

(** [is_Array v]: [v instanceof Array]. *)
Definition is_Array (v : value) : bool :=
  match v with
  | VArray _ => true
  | _ => false
  end.

(** Both parts of the complex number are finite numbers (neither NaN nor
    an infinity), as [isFinite] tests. *)
Definition finite_complex (z : complex) : bool :=
  is_finite (real z) && is_finite (imag z).

(** The eight parts of the matrix are finite numbers. *)
Definition all_finite (q : quop) : bool :=
  finite_complex (a q) && finite_complex (b q) &&
  finite_complex (c q) && finite_complex (d q).

(** The matrix of zeros, [Quop.from([0, 0, 0, 0])]. *)
Definition zero_quop : quop :=
  mkQuop (mkComplex 0 0) (mkComplex 0 0) (mkComplex 0 0) (mkComplex 0 0).

(** The number 1 in the specification of binary64: mantissa 2^52, exponent
    -52. *)
Definition SF_one : spec_float := S754_finite false 4503599627370496 (-52).

(** A zero or a number with a mantissa, in the specification of binary64. *)
Definition sf_finite (X : spec_float) : bool :=
  match X with
  | S754_zero _ | S754_finite _ _ _ => true
  | _ => false
  end.

(** The product of [X] with the number +0: a zero of the sign of [X], or
    NaN when [X] is not finite. *)
Definition zeroed (X : spec_float) : spec_float :=
  match X with
  | S754_zero s | S754_finite s _ _ => S754_zero s
  | _ => S754_nan
  end.

(** Two values of the specification of binary64 that are the same number:
    equal, or two zeros whatever their signs. *)
Definition sf_same (X Y : spec_float) : Prop :=
  X = Y \/ exists s s', X = S754_zero s /\ Y = S754_zero s'.

Definition same_number (x y : float) : Prop := sf_same (Prim2SF x) (Prim2SF y).

(** ** The numbers of binary64 as real numbers

    What the error analysis of [Quop.fromRotation] speaks of: the real
    number a binary64 value stands for, and how far a computed value is
    from the real number it approximates. *)

Local Open Scope R_scope.

(** The power of two of an integer exponent. *)
Definition pow2 (e : Z) : R := powerRZ 2 e.

(** The real number of a value of the specification of binary64: zero for
    the zeros, and by convention for the infinities and NaN. *)
Definition SF2R (x : spec_float) : R :=
  match x with
  | S754_finite s m e => (if s then -1 else 1) * (IZR (Zpos m) * pow2 e)
  | _ => 0
  end.

(** The real number of a JavaScript number. *)
Definition B2R (x : float) : R := SF2R (Prim2SF x).

(** [located u m l]: the real [u] lies at the location [l] of the interval
    from [m] to [m + 1], as the rounding of the specification records it. *)
Definition located (u : R) (m : Z) (l : location) : Prop :=
  match l with
  | loc_Exact => u = IZR m
  | loc_Inexact Lt => IZR m < u < IZR m + 1 / 2
  | loc_Inexact Eq => u = IZR m + 1 / 2
  | loc_Inexact Gt => IZR m + 1 / 2 < u < IZR m + 1
  end.

(** The same for a mantissa with its round and sticky bits. *)
Definition rec_located (u : R) (mrs : shr_record) : Prop :=
  located u (shr_m mrs) (loc_of_shr_record mrs).

(** The sign bit as a factor. *)
Definition sign_of (s : bool) : R := if s then -1 else 1.

(** [rounded x r]: [r] is the real [x] rounded to binary64.  Either [r] is
    a number, with the relative error 2^-53 and the absolute error 2^-1075
    of a number that underflows, or [x] is too large and [r] is not one. *)
Definition rounded (x : R) (r : spec_float) : Prop :=
  (sf_finite r = true /\ Rabs (SF2R r - x) <= Rabs x * pow2 (-53) + pow2 (-1075)) \/
  (sf_finite r = false /\ pow2 1023 <= Rabs x).

Definition rounds (x : R) (f : float) : Prop := rounded x (Prim2SF f).

(** What a comparison of the specification says of two real numbers. *)
Definition cmp_rel (c : comparison) (a b : R) : Prop :=
  match c with
  | Lt => a < b
  | Eq => a = b
  | Gt => b < a
  end.

(** The number 2 in the specification of binary64. *)
Definition SF_two : spec_float := S754_finite false 4503599627370496 (-51).

(** The unit roundoff and the underflow error of binary64. *)
Definition u64 : R := / 9007199254740992.
Definition eta64 : R := pow2 (-1075).

(** [approx f r e]: the number [f] is finite and at most [e] away from
    [r]. *)
Definition approx (f : float) (r e : R) : Prop :=
  is_finite f = true /\ Rabs (B2R f - r) <= e.

(** [signed_zero f]: the number is a zero, of either sign. *)
Definition signed_zero (f : float) : Prop := exists s, Prim2SF f = S754_zero s.

(** The accuracy asked of the host: 1e-12. *)
Definition host_eps : R := / 1000000000000.

(** The real number of the literal [0.0002] of [sinc]. *)
Definition cutoff : R := 7378697629483821 / 36893488147419103232.

(** A part of the matrix [Quop.fromRotation] returns: the real number it
    stands for, within 13e-12, and at most 4. *)
Definition part (f : float) (r : R) : Prop :=
  approx f r (13 * host_eps) /\ Rabs r <= 4.

(** Both parts of an entry of that matrix. *)
Definition entry_is (w : complex) (re im : R) : Prop :=
  part (real w) re /\ part (imag w) im.

(** The tolerance of [unitary_check], 1 / 1000000000 rounded to binary64. *)
Definition tol64 : float := (float_of_Z 1 / float_of_Z 1000000000)%float.

(** The local variables [theta] and [s] of [Quop.fromRotation(v)]. *)
Definition rotation_angle (v : list float) : float :=
  Quop.fromRotation_theta (number_at v 0 * Quop.Math_PI * 2)%float
                          (number_at v 1 * Quop.Math_PI * 2)%float
                          (number_at v 2 * Quop.Math_PI * 2)%float.

Definition rotation_sign (v : list float) : float :=
  Quop.fromRotation_s (number_at v 0 * Quop.Math_PI * 2)%float
                      (number_at v 1 * Quop.Math_PI * 2)%float
                      (number_at v 2 * Quop.Math_PI * 2)%float.

(** The host is accurate where [Quop.fromRotation(v)] calls it: each of the
    four values [Math.cos(s * theta)], [Math.sin(s * theta)],
    [Math.sin(theta / 2)] and [Math.sin(theta)] is a finite number within
    1e-12 of the cosine or the sine of the argument. *)
Definition host_accurate (Math_sin Math_cos : float -> float) (v : list float)
  : Prop :=
  let s := rotation_sign v in
  let theta := rotation_angle v in
  approx (Math_cos (s * theta)%float) (cos (B2R (s * theta)%float)) host_eps /\
  approx (Math_sin (s * theta)%float) (sin (B2R (s * theta)%float)) host_eps /\
  approx (Math_sin (theta / 2)%float) (sin (B2R (theta / 2)%float)) host_eps /\
  approx (Math_sin theta) (sin (B2R theta)) host_eps.

Local Close Scope R_scope.

(** * Properties *)

(** ** Facts of binary64 arithmetic *)

Section FloatFacts.

Lemma SFopp_involutive (x : spec_float) : SFopp (SFopp x) = x.
Proof.
  destruct x as [s|s| |s m e]; simpl; try rewrite negb_involutive; reflexivity.
Qed.

Lemma opp_involutive (x : float) : - - x = x.
Proof.
  apply Prim2SF_inj. rewrite !opp_spec. apply SFopp_involutive.
Qed.

Lemma binary_round_aux_opp prec emax s m e l :
  binary_round_aux prec emax (negb s) m e l
  = SFopp (binary_round_aux prec emax s m e l).
Proof.
  unfold binary_round_aux.
  destruct (shr_fexp prec emax m e l) as [mrs' e'].
  destruct (shr_fexp prec emax _ e' loc_Exact) as [mrs'' e''].
  destruct (shr_m mrs''); simpl; try reflexivity.
  destruct (Z.leb e'' _); reflexivity.
Qed.

Lemma SFmul_opp_l prec emax x y :
  SFmul prec emax (SFopp x) y = SFopp (SFmul prec emax x y).
Proof.
  destruct x as [sx|sx| |sx mx ex], y as [sy|sy| |sy my ey]; simpl;
    try rewrite <- negb_xorb_l; try reflexivity.
  apply binary_round_aux_opp.
Qed.

Lemma mul_opp_l (k y : float) : (- k) * y = - (k * y).
Proof.
  apply Prim2SF_inj. rewrite opp_spec, !mul_spec, opp_spec. apply SFmul_opp_l.
Qed.

Lemma SFadd_opp_r prec emax x y :
  SFadd prec emax x (SFopp y) = SFsub prec emax x y.
Proof.
  destruct x as [sx|sx| |sx mx ex], y as [sy|sy| |sy my ey]; simpl;
    try reflexivity; destruct sx, sy; reflexivity.
Qed.

Lemma add_opp_r (x w : float) : x + (- w) = x - w.
Proof.
  apply Prim2SF_inj. rewrite add_spec, sub_spec, opp_spec. apply SFadd_opp_r.
Qed.

Lemma SFmul_comm prec emax x y : SFmul prec emax x y = SFmul prec emax y x.
Proof.
  destruct x as [sx|sx| |sx mx ex], y as [sy|sy| |sy my ey]; simpl;
    try rewrite (xorb_comm sx sy); try reflexivity.
  now rewrite Pos.mul_comm, Z.add_comm.
Qed.

Lemma mul_comm (x y : float) : x * y = y * x.
Proof.
  apply Prim2SF_inj. rewrite !mul_spec. apply SFmul_comm.
Qed.

Lemma SFadd_comm prec emax x y : SFadd prec emax x y = SFadd prec emax y x.
Proof.
  destruct x as [sx|sx| |sx mx ex], y as [sy|sy| |sy my ey]; simpl;
    try reflexivity; try (destruct sx, sy; reflexivity).
  now rewrite Z.min_comm, Z.add_comm.
Qed.

Lemma add_comm (x y : float) : x + y = y + x.
Proof.
  apply Prim2SF_inj. rewrite !add_spec. apply SFadd_comm.
Qed.

Lemma mul_nan_l (t : float) : nan * t = nan.
Proof.
  apply Prim2SF_inj. rewrite mul_spec. reflexivity.
Qed.

Lemma add_nan_r (t : float) : t + nan = nan.
Proof.
  apply Prim2SF_inj. rewrite add_spec.
  change (Prim2SF nan) with S754_nan. destruct (Prim2SF t); reflexivity.
Qed.

Lemma sub_nan_r (t : float) : t - nan = nan.
Proof.
  apply Prim2SF_inj. rewrite sub_spec.
  change (Prim2SF nan) with S754_nan. destruct (Prim2SF t); reflexivity.
Qed.

(** [x + -k*y] is the subtraction [x - k*y], bit for bit. *)
Lemma add_mul_opp (x k y : float) : x + (- k) * y = x - k * y.
Proof.
  rewrite mul_opp_l. apply add_opp_r.
Qed.

End FloatFacts.

(** ** The error monad and the constructor *)

Lemma new_Complex (a b c d : complex) :
  Quop.new (VComplex a) (VComplex b) (VComplex c) (VComplex d)
  = Ok (mkQuop a b c d).
Proof. reflexivity. Qed.

Lemma times_Complex (z o : complex) :
  Complex.times z (VComplex o) = Ok (Complex.mul z o).
Proof. reflexivity. Qed.

Lemma times_number (z : complex) (n : float) :
  Complex.times z (VNumber n) = Ok (Complex.mul z (mkComplex n 0)).
Proof. reflexivity. Qed.

(** ** The script against the reference operations, at binary64 *)

Section Binary64.

Variables Math_sin Math_cos : float -> float.

Let B : arith float := binary64 Math_sin Math_cos.

(** The integers and the decimals of the script are those of the
    reference algorithm. *)
Lemma literals :
  nlit B 0 = 0 /\ nlit B 1 = 1 /\ nlit B (-1) = -1 /\ nlit B 2 = 2 /\
  nlit B 6 = 6.0 /\ nlit B (-11) = -11 /\ nlit B 13 = 13 /\ nlit B 17 = 17 /\
  ndiv B (nlit B 1) (nlit B 2) = 0.5 /\
  ndiv B (nlit B 2) (nlit B 10000) = 0.0002 /\
  Reference.tolerance B = 1e-9.
Proof. repeat split. Qed.

(** The four Pauli-basis constants are initialised without a throw, to the
    matrices of the specification. *)
Lemma constants_loaded :
  Quop.IDENTITY_init = Ok (Reference.Identity B) /\
  Quop.PAULI_X_init = Ok (Reference.PauliX B) /\
  Quop.PAULI_Y_init = Ok (Reference.PauliY B) /\
  Quop.PAULI_Z_init = Ok (Reference.PauliZ B).
Proof. repeat split. Qed.

(** The methods that build a matrix from [Complex] entries agree with the
    operations of the specification, and never throw. *)
Lemma scaledBy_Complex (q : quop) (z : complex) :
  Quop.scaledBy q (VComplex z) = Ok (Reference.scaledBy B q z).
Proof. reflexivity. Qed.

Lemma scaledBy_number (q : quop) (n : float) :
  Quop.scaledBy q (VNumber n)
  = Ok (Reference.scaledBy B q (Reference.fromReal B n)).
Proof. reflexivity. Qed.

Lemma plus_entries (q o : quop) : Quop.plus q o = Ok (Reference.plus B q o).
Proof. reflexivity. Qed.

Lemma minus_entries (q o : quop) : Quop.minus q o = Ok (Reference.minus B q o).
Proof. reflexivity. Qed.

Lemma times_entries (q o : quop) : Quop.times q o = Ok (Reference.times B q o).
Proof. destruct q, o; reflexivity. Qed.

Lemma adjoint_entries (q : quop) : Quop.adjoint q = Ok (Reference.adjoint B q).
Proof. reflexivity. Qed.

(** The product of two Scalars does not depend on which is the receiver. *)
Lemma ctimes_comm (z o : complex) : Reference.ctimes B z o = Reference.ctimes B o z.
Proof.
  destruct z as [zr zi], o as [or oi]. unfold Reference.ctimes.
  cbn [real imag nmul nsub nadd B binary64].
  rewrite (mul_comm zr or), (mul_comm zi oi).
  rewrite (add_comm (zr * oi) (zi * or)), (mul_comm zi or), (mul_comm zr oi).
  reflexivity.
Qed.

(** [z.times(n)] is the product written [n · z] in the specification. *)
Lemma times_number_left (z : complex) (n : float) :
  Complex.times z (VNumber n)
  = Ok (Reference.ctimes B (Reference.fromReal B n) z).
Proof.
  rewrite <- ctimes_comm. reflexivity.
Qed.

End Binary64.

(** ** The matrix product *)

(** C4: [times] returns the standard 2x2 matrix product.  For the receiver
    [[a, b], [c, d]] and the argument [[e, f], [g, h]] the call returns, and
    never throws, the matrix with the entries [a·e+b·g], [a·f+b·h],
    [c·e+d·g], [c·f+d·h]; that is, entry (i, j) of the product is row [i] of
    the receiver against column [j] of the argument, receiver on the left. *)
Theorem times_matrix_product :
  (forall a b c d e f g h : complex,
      Quop.times (mkQuop a b c d) (mkQuop e f g h)
      = Ok (mkQuop
              (Complex.plus (Complex.mul a e) (Complex.mul b g))
              (Complex.plus (Complex.mul a f) (Complex.mul b h))
              (Complex.plus (Complex.mul c e) (Complex.mul d g))
              (Complex.plus (Complex.mul c f) (Complex.mul d h)))) /\
  (forall this other : quop,
      exists p : quop,
        Quop.times this other = Ok p /\
        forall i j : bool,
          Reference.entry p i j
          = Complex.plus
              (Complex.mul (Reference.entry this i false)
                           (Reference.entry other false j))
              (Complex.mul (Reference.entry this i true)
                           (Reference.entry other true j))).
Proof.
  split.
  - intros; reflexivity.
  - intros [a b c d] [e f g h].
    eexists; split; [ reflexivity | ].
    intros [|] [|]; reflexivity.
Qed.

(** C5: the product of the Pauli constants does not commute.
    [PauliX.times(PauliY)] is equal to [PauliZ] scaled by [i],
    [PauliY.times(PauliX)] is equal to [PauliZ] scaled by [-i], and the two
    products are not equal to each other ([isEqualTo] is the equality). *)
Theorem pauli_product_not_commutative :
  (xy <- Quop.times Quop.PAULI_X Quop.PAULI_Y ;;
   iz <- Quop.scaledBy Quop.PAULI_Z (VComplex (mkComplex 0 1)) ;;
   Ok (Quop.isEqualTo xy (VQuop iz))) = Ok true /\
  (yx <- Quop.times Quop.PAULI_Y Quop.PAULI_X ;;
   miz <- Quop.scaledBy Quop.PAULI_Z (VComplex (mkComplex 0 (-1))) ;;
   Ok (Quop.isEqualTo yx (VQuop miz))) = Ok true /\
  (xy <- Quop.times Quop.PAULI_X Quop.PAULI_Y ;;
   yx <- Quop.times Quop.PAULI_Y Quop.PAULI_X ;;
   Ok (Quop.isEqualTo xy (VQuop yx))) = Ok false.
Proof.
  repeat split; vm_compute; reflexivity.
Qed.

(** ** Construction from a sequence of coefficients *)

Lemma from_returns_convertible (v : value) :
  returns (Complex.from v) = convertible v.
Proof. destruct v; reflexivity. Qed.

Lemma from_four (v0 v1 v2 v3 : value) :
  Quop.from (VArray [v0; v1; v2; v3])
  = (c0 <- Complex.from v0 ;;
     c1 <- Complex.from v1 ;;
     c2 <- Complex.from v2 ;;
     c3 <- Complex.from v3 ;;
     Ok (mkQuop c0 c1 c2 c3)).
Proof. reflexivity. Qed.

Lemma from_returns (l : list value) :
  returns (Quop.from (VArray l))
  = Nat.eqb (List.length l) 4 && forallb convertible l.
Proof.
  destruct l as [|v0 [|v1 [|v2 [|v3 [|v4 l]]]]]; try reflexivity.
  rewrite from_four. simpl forallb. simpl Nat.eqb.
  rewrite <- !from_returns_convertible.
  destruct (Complex.from v0); [ | reflexivity ].
  destruct (Complex.from v1); [ | reflexivity ].
  destruct (Complex.from v2); [ | reflexivity ].
  destruct (Complex.from v3); reflexivity.
Qed.

Lemma forallb_false_witness {A : Type} (f : A -> bool) (l : list A) :
  forallb f l = false -> exists v, In v l /\ f v = false.
Proof.
  induction l as [|v l IH]; simpl; [ discriminate | ].
  intros H. apply andb_false_iff in H as [H | H].
  - exists v; split; [ left; reflexivity | exact H ].
  - destruct (IH H) as [w [Hin Hw]].
    exists w; split; [ right; exact Hin | exact Hw ].
Qed.

(** The rejected sequences of the specification: three coefficients, five
    coefficients, and a coefficient that is a string. *)
Example from_three_coefficients :
  Quop.from (VArray [VNumber 1; VNumber 0; VNumber 0])
  = Raise (Thrown "Wrong number of coefficients: "
                  (VArray [VNumber 1; VNumber 0; VNumber 0])).
Proof. reflexivity. Qed.

Example from_five_coefficients :
  returns (Quop.from (VArray [VNumber 1; VNumber 0; VNumber 0; VNumber 1; VNumber 0]))
  = false.
Proof. reflexivity. Qed.

Example from_string_coefficient :
  returns (Quop.from (VArray [VNumber 1; VString "0"; VNumber 0; VNumber 1]))
  = false.
Proof. reflexivity. Qed.

(** Anything but an array is rejected too. *)
Example from_number :
  returns (Quop.from (VNumber 1)) = false.
Proof. reflexivity. Qed.

(** C6: [Quop.from] on an array throws exactly when the array does not hold
    4 elements or holds an element that is neither a number nor a [Complex];
    on 4 convertible elements it returns the matrix whose entries are the
    converted elements in a-b-c-d order. *)
Theorem from_coefficients (l : list value) :
  (returns (Quop.from (VArray l)) = false <->
   List.length l <> 4%nat \/ exists v, In v l /\ convertible v = false) /\
  (List.length l = 4%nat ->
   (forall v, In v l -> convertible v = true) ->
   exists z0 z1 z2 z3 : complex,
     map Complex.from l = [Ok z0; Ok z1; Ok z2; Ok z3] /\
     Quop.from (VArray l) = Ok (mkQuop z0 z1 z2 z3)).
Proof.
  split.
  - rewrite from_returns, andb_false_iff, Nat.eqb_neq.
    split; (intros [H | H]; [ left; exact H | right ]).
    + apply forallb_false_witness. exact H.
    + destruct H as [v [Hin Hv]].
      destruct (forallb convertible l) eqn:E; [ | reflexivity ].
      rewrite forallb_forall in E. rewrite (E v Hin) in Hv. discriminate.
  - intros Hlen Hall.
    destruct l as [|v0 [|v1 [|v2 [|v3 [|v4 l]]]]]; try discriminate.
    assert (H0 := Hall v0 (or_introl eq_refl)).
    assert (H1 := Hall v1 (or_intror (or_introl eq_refl))).
    assert (H2 := Hall v2 (or_intror (or_intror (or_introl eq_refl)))).
    assert (H3 := Hall v3 (or_intror (or_intror (or_intror (or_introl eq_refl))))).
    rewrite <- from_returns_convertible in H0, H1, H2, H3.
    rewrite from_four. simpl map.
    destruct (Complex.from v0) as [z0|]; [ | discriminate ].
    destruct (Complex.from v1) as [z1|]; [ | discriminate ].
    destruct (Complex.from v2) as [z2|]; [ | discriminate ].
    destruct (Complex.from v3) as [z3|]; [ | discriminate ].
    exists z0, z1, z2, z3. split; reflexivity.
Qed.

(** ** Equality and display *)

(** C7: [isEqualTo] is a total boolean function.  It is [false] on every
    value that is not a [Quop] (a number, [null], [undefined], ...), and on a
    [Quop] it is [true] exactly when the four pairs of entries [a], [b], [c],
    [d] are equal as Complex numbers. *)
Theorem isEqualTo_total (this : quop) :
  (forall other : value, is_Quop other = false ->
                         Quop.isEqualTo this other = false) /\
  (forall n : float, Quop.isEqualTo this (VNumber n) = false) /\
  Quop.isEqualTo this VNull = false /\
  Quop.isEqualTo this VUndefined = false /\
  (forall o : quop,
      Quop.isEqualTo this (VQuop o) = true <->
      Complex.isEqualTo (a this) (VComplex (a o)) = true /\
      Complex.isEqualTo (b this) (VComplex (b o)) = true /\
      Complex.isEqualTo (c this) (VComplex (c o)) = true /\
      Complex.isEqualTo (d this) (VComplex (d o)) = true).
Proof.
  repeat split; try reflexivity.
  - intros other H. destruct other; try reflexivity. discriminate.
  - unfold Quop.isEqualTo in H.
    apply andb_true_iff in H as [H _].
    apply andb_true_iff in H as [H _].
    apply andb_true_iff in H as [H _]. exact H.
  - unfold Quop.isEqualTo in H.
    apply andb_true_iff in H as [H _].
    apply andb_true_iff in H as [H _].
    apply andb_true_iff in H as [_ H]. exact H.
  - unfold Quop.isEqualTo in H.
    apply andb_true_iff in H as [H _].
    apply andb_true_iff in H as [_ H]. exact H.
  - unfold Quop.isEqualTo in H.
    apply andb_true_iff in H as [_ H]. exact H.
  - intros (Ha & Hb & Hc & Hd). unfold Quop.isEqualTo.
    rewrite Ha, Hb, Hc, Hd. reflexivity.
Qed.

(** C9: [toString] renders the matrix as [{{a, b}, {c, d}}], with each
    entry in the display form of its Complex number; with a display that
    writes the numbers one and zero as [1] and [0], the identity is displayed
    as [{{1, 0}, {0, 1}}]. *)
Theorem toString_format (Complex_toString : complex -> string) :
  (forall q : quop,
      Quop.toString Complex_toString q
      = String.concat EmptyString
          ["{{"; Complex_toString (a q); ", "; Complex_toString (b q);
           "}, {"; Complex_toString (c q); ", "; Complex_toString (d q);
           "}}"]%string) /\
  (Complex_toString (mkComplex 1 0) = "1"%string ->
   Complex_toString (mkComplex 0 0) = "0"%string ->
   Quop.toString Complex_toString Quop.IDENTITY = "{{1, 0}, {0, 1}}"%string).
Proof.
  split.
  - intros q. reflexivity.
  - intros H1 H0. unfold Quop.toString. simpl.
    rewrite H1, H0. reflexivity.
Qed.

(** ** The Pauli constants *)

(** C10: each Pauli constant is its own inverse and its own adjoint:
    [PauliX.times(PauliX)], [PauliY.times(PauliY)] and [PauliZ.times(PauliZ)]
    return the identity constant, and each constant is equal to its
    adjoint. *)
Theorem pauli_self_inverse :
  Quop.times Quop.PAULI_X Quop.PAULI_X = Ok Quop.IDENTITY /\
  Quop.times Quop.PAULI_Y Quop.PAULI_Y = Ok Quop.IDENTITY /\
  Quop.times Quop.PAULI_Z Quop.PAULI_Z = Ok Quop.IDENTITY /\
  Quop.isEqualTo Quop.IDENTITY (VQuop Quop.IDENTITY) = true /\
  (h <- Quop.adjoint Quop.PAULI_X ;;
   Ok (Quop.isEqualTo Quop.PAULI_X (VQuop h))) = Ok true /\
  (h <- Quop.adjoint Quop.PAULI_Y ;;
   Ok (Quop.isEqualTo Quop.PAULI_Y (VQuop h))) = Ok true /\
  (h <- Quop.adjoint Quop.PAULI_Z ;;
   Ok (Quop.isEqualTo Quop.PAULI_Z (VQuop h))) = Ok true.
Proof.
  repeat split; vm_compute; reflexivity.
Qed.

(** ** The adjoint *)

Lemma adjoint_transpose (q : quop) :
  Quop.adjoint q
  = Ok (mkQuop (Complex.conjugate (a q)) (Complex.conjugate (c q))
               (Complex.conjugate (b q)) (Complex.conjugate (d q))).
Proof. reflexivity. Qed.

Lemma conjugate_involutive (z : complex) :
  Complex.conjugate (Complex.conjugate z) = z.
Proof.
  destruct z as [re im]. unfold Complex.conjugate. simpl.
  rewrite opp_involutive. reflexivity.
Qed.

Lemma adjoint_adjoint (q : quop) :
  (p <- Quop.adjoint q ;; Quop.adjoint p) = Ok q.
Proof.
  destruct q as [qa qb qc qd]. rewrite adjoint_transpose.
  cbn [bind]. rewrite adjoint_transpose. cbn [a b c d].
  rewrite !conjugate_involutive. reflexivity.
Qed.

Lemma isEqualTo_self (z : complex) :
  Complex.isEqualTo z (VComplex z) = nan_free_complex z.
Proof.
  unfold Complex.isEqualTo, nan_free_complex, is_nan.
  rewrite !negb_involutive. reflexivity.
Qed.

Lemma isEqualTo_refl (q : quop) :
  Quop.isEqualTo q (VQuop q) = nan_free q.
Proof.
  unfold Quop.isEqualTo, nan_free. rewrite !isEqualTo_self. reflexivity.
Qed.

(** C8, as the code has it: [adjoint] returns the conjugate transpose, and
    [X.adjoint().adjoint()] has exactly the entries of [X], for every [X];
    [isEqualTo] reports the two equal exactly when no real or imaginary part
    of [X] is NaN, since a NaN is not equal to itself. *)
Theorem adjoint_involution (X : quop) :
  Quop.adjoint X
  = Ok (mkQuop (Complex.conjugate (a X)) (Complex.conjugate (c X))
               (Complex.conjugate (b X)) (Complex.conjugate (d X))) /\
  (p <- Quop.adjoint X ;; Quop.adjoint p) = Ok X /\
  (p <- Quop.adjoint X ;;
   q <- Quop.adjoint p ;;
   Ok (Quop.isEqualTo q (VQuop X))) = Ok (nan_free X).
Proof.
  split; [ reflexivity | ].
  split; [ apply adjoint_adjoint | ].
  assert (H := adjoint_adjoint X).
  destruct (Quop.adjoint X) as [p|e]; [ | discriminate ].
  cbn [bind] in *. rewrite H. cbn [bind].
  rewrite isEqualTo_refl. reflexivity.
Qed.

(** C8 fails as stated: the matrix [Quop.from([NaN, 0, 0, 1])] is not
    [isEqualTo] the adjoint of its adjoint. *)
Lemma adjoint_involution_fails_on_nan :
  (X <- Quop.from (VArray [VNumber nan; VNumber 0; VNumber 0; VNumber 1]) ;;
   p <- Quop.adjoint X ;;
   q <- Quop.adjoint p ;;
   Ok (Quop.isEqualTo q (VQuop X))) = Ok false.
Proof. vm_compute. reflexivity. Qed.

(** ** The conversion of a rotation vector *)

Lemma scaled_component (x : float) :
  x * Quop.Math_PI * 2 = 2 * (Quop.Math_PI * x).
Proof.
  rewrite (mul_comm (x * Quop.Math_PI) 2), (mul_comm x Quop.Math_PI).
  reflexivity.
Qed.

Lemma sign_form (x y z : float) :
  -11 * x + -13 * y + -17 * z = -11 * x - 13 * y - 17 * z.
Proof.
  change (-13) with (PrimFloat.opp 13). change (-17) with (PrimFloat.opp 17).
  rewrite !add_mul_opp. reflexivity.
Qed.

Lemma sinc_reference (Math_sin Math_cos : float -> float) (t : float) :
  Quop.sinc Math_sin t = Reference.sinc (binary64 Math_sin Math_cos) t.
Proof. reflexivity. Qed.

Lemma fromRotation_agrees (Math_sin Math_cos : float -> float) (x y z : float) :
  Quop.fromRotation Math_sin Math_cos [x; y; z]
  = Ok (Reference.fromRotationVector (binary64 Math_sin Math_cos) x y z).
Proof.
  unfold Quop.fromRotation, Reference.fromRotationVector, Reference.rotation.
  unfold Reference.sign, Reference.angle.
  unfold number_at, nth.
  rewrite !scaled_component.
  unfold Quop.fromRotation_s, Quop.fromRotation_theta.
  rewrite sign_form.
  rewrite !(times_number_left Math_sin Math_cos).
  reflexivity.
Qed.

(** C1: on every vector [[x, y, z]] of numbers, [Quop.fromRotation] returns
    the matrix of the reference algorithm of the specification (the scaling
    by 2 pi, theta, the sign [s] of the linear form with coefficients -11,
    -13, -17, the series branch of [sinc] below 0.0002, the two complex
    coefficients, and identity scaled minus sigma scaled), and it throws on no
    array of numbers at all, finite or not. *)
Theorem fromRotation_reference (Math_sin Math_cos : float -> float) :
  (forall x y z : float,
      Quop.fromRotation Math_sin Math_cos [x; y; z]
      = Ok (Reference.fromRotationVector (binary64 Math_sin Math_cos) x y z)) /\
  (forall v : list float,
      returns (Quop.fromRotation Math_sin Math_cos v) = true).
Proof.
  split.
  - apply fromRotation_agrees.
  - intros v. reflexivity.
Qed.

(** C2: [Quop.fromRotation([0, 0, 0])] is the identity.  With a host whose
    sine and cosine are exact at zero ([sin 0 = 0], [cos 0 = 1]): the scaled
    components are 0, theta is 0, the linear form is equal to 0 and the
    [>= 0] test gives [s = 1], both calls of [sinc] take the series branch
    (whatever the host's sine is) and give 1, and the call returns the
    identity constant, which [isEqualTo] confirms. *)
Theorem fromRotation_zero (Math_sin Math_cos : float -> float) :
  Math_sin 0 = 0 ->
  Math_cos 0 = 1 ->
  let x := 0 * Quop.Math_PI * 2 in
  let theta := Quop.fromRotation_theta x x x in
  x = 0 /\
  theta = 0 /\
  (-11 * x + -13 * x + -17 * x =? 0) = true /\
  Quop.fromRotation_s x x x = 1 /\
  (PrimFloat.abs (theta / 2) <? 0.0002) = true /\
  (PrimFloat.abs theta <? 0.0002) = true /\
  (forall g : float -> float, Quop.sinc g (theta / 2) = 1 /\ Quop.sinc g theta = 1) /\
  Quop.fromRotation Math_sin Math_cos [0; 0; 0] = Ok Quop.IDENTITY /\
  (q <- Quop.fromRotation Math_sin Math_cos [0; 0; 0] ;;
   Ok (Quop.isEqualTo q (VQuop Quop.IDENTITY))) = Ok true.
Proof.
  intros Hsin Hcos x theta.
  assert (Hrot : Quop.fromRotation Math_sin Math_cos [0; 0; 0] = Ok Quop.IDENTITY).
  { rewrite fromRotation_agrees.
    unfold Reference.fromRotationVector.
    change (nmul _ (nlit _ 2) (nmul _ (npi _) 0)) with 0.
    unfold Reference.rotation.
    change (Reference.angle _ 0 0 0) with 0.
    change (Reference.sign _ 0 0 0) with 1.
    cbv zeta. unfold Reference.c_identity, Reference.c_axis.
    change (Reference.sinc _ 0) with 1.
    change (Reference.sinc _ (ndiv _ 0 (nlit _ 2))) with 1.
    change (ndiv _ 0 (nlit _ 2)) with 0.
    change (nmul _ 1 0) with 0.
    cbn [nsin ncos binary64].
    rewrite Hsin, Hcos.
    vm_compute. reflexivity. }
  repeat split; try reflexivity.
  - exact Hrot.
  - rewrite Hrot. reflexivity.
Qed.

(** The zero vector, with the polynomial host functions. *)
Lemma fromRotation_zero_witness :
  (q <- Quop.fromRotation poly_sin poly_cos [0; 0; 0] ;;
   Ok (Quop.isEqualTo q (VQuop Quop.IDENTITY))) = Ok true.
Proof.
  apply (fromRotation_zero poly_sin poly_cos eq_refl eq_refl).
Defined.

(** A non-[Quop] argument: a string. *)
Lemma isEqualTo_total_witness :
  Quop.isEqualTo Quop.IDENTITY (VString "I") = false.
Proof.
  apply (proj1 (isEqualTo_total Quop.IDENTITY) (VString "I")). reflexivity.
Defined.

(** Four convertible coefficients, two numbers and two [Complex]. *)
Lemma from_coefficients_witness :
  exists z0 z1 z2 z3 : complex,
    map Complex.from
        [VNumber 0; VComplex (mkComplex 0 (-1)); VComplex (mkComplex 0 1); VNumber 0]
    = [Ok z0; Ok z1; Ok z2; Ok z3] /\
    Quop.PAULI_Y_init = Ok (mkQuop z0 z1 z2 z3).
Proof.
  apply (proj2 (from_coefficients
                  [VNumber 0; VComplex (mkComplex 0 (-1));
                   VComplex (mkComplex 0 1); VNumber 0])).
  - reflexivity.
  - intros v [H | [H | [H | [H | []]]]]; subst v; reflexivity.
Defined.

(** The identity, displayed with [show_complex]. *)
Lemma toString_format_witness :
  Quop.toString show_complex Quop.IDENTITY = "{{1, 0}, {0, 1}}"%string.
Proof.
  apply (proj2 (toString_format show_complex)); reflexivity.
Defined.

(** ** The rotation at binary64, where the scaling overflows *)

(** Whatever the sine and the cosine of the host, the vector
    [[1e308, 0, 0]] is converted to the matrix of NaN: its first component
    times pi is infinite, and sigma holds [0 * infinity]. *)
Lemma fromRotation_overflow (Math_sin Math_cos : float -> float) :
  Quop.fromRotation Math_sin Math_cos [1e308; 0; 0] = Ok nan_quop.
Proof.
  rewrite fromRotation_agrees.
  unfold Reference.fromRotationVector.
  change (nmul _ (nlit _ 2) (nmul _ (npi _) 1e308)) with infinity.
  change (nmul _ (nlit _ 2) (nmul _ (npi _) 0)) with 0.
  unfold Reference.rotation. cbv zeta.
  generalize (Reference.c_identity (binary64 Math_sin Math_cos)
                (Reference.sign (binary64 Math_sin Math_cos) infinity 0 0)
                (Reference.angle (binary64 Math_sin Math_cos) infinity 0 0)).
  generalize (Reference.c_axis (binary64 Math_sin Math_cos)
                (Reference.sign (binary64 Math_sin Math_cos) infinity 0 0)
                (Reference.angle (binary64 Math_sin Math_cos) infinity 0 0)).
  intros [u w] [p q].
  change (Reference.sigma (binary64 Math_sin Math_cos) infinity 0 0)
    with (mkQuop (mkComplex nan nan) (mkComplex infinity nan)
                 (mkComplex infinity nan) (mkComplex nan nan) : quop).
  unfold Reference.blend, Reference.minus, Reference.scaledBy,
    Reference.construct, Reference.ctimes, Reference.cminus.
  cbn [a b c d real imag nmul nsub nadd binary64].
  rewrite !mul_nan_l, !sub_nan_r, !add_nan_r, !sub_nan_r.
  reflexivity.
Qed.

(** A small vector on which the check succeeds with the sample host
    functions, and a larger one on which their error already exceeds the
    tolerance: at binary64 the property rests on the accuracy of the host. *)
Example unitary_check_small :
  unitary_check poly_sin poly_cos [0.00001; 0.00002; 0] = Ok true.
Proof. vm_compute. reflexivity. Qed.

Example unitary_check_coarse_host :
  unitary_check poly_sin poly_cos [0.001; 0.002; -0.003] = Ok false.
Proof. vm_compute. reflexivity. Qed.


(** * Further properties *)

(** ** More facts of binary64 arithmetic *)

Lemma iter_pos_eq {A : Type} (f : A -> A) (k : positive) (x : A) :
  SpecFloat.iter_pos f k x = Pos.iter f x k.
Proof.
  revert x. induction k; intros x; simpl; rewrite ?IHk, ?Pos.iter_swap; reflexivity.
Qed.

Lemma digits2_iter (m k : positive) :
  digits2_pos (Pos.iter xO m k) = (digits2_pos m + k)%positive.
Proof.
  revert m. induction k using Pos.peano_ind; intros m.
  - simpl. lia.
  - rewrite Pos.iter_succ. simpl. rewrite IHk. lia.
Qed.

(** Shifting right the [k] zero bits that were appended loses nothing. *)
Lemma shr_iter (k m : positive) :
  Pos.iter shr_1 (Build_shr_record (Zpos (Pos.iter xO m k)) false false) k
  = Build_shr_record (Zpos m) false false.
Proof.
  revert m. induction k using Pos.peano_ind; intros m.
  - reflexivity.
  - rewrite (Pos.iter_succ k _ xO m), Pos.iter_succ_r.
    cbn [shr_1 orb]. apply IHk.
Qed.

Lemma SFmul_one_r (x : spec_float) :
  valid_binary x = true -> SF64mul x SF_one = x.
Proof.
  unfold SF64mul, valid_binary, SF_one.
  destruct x as [s|s| |s m e]; cbn [SFmul SpecFloat.valid_binary]; intros Hv;
    rewrite ?xorb_false_r; try reflexivity.
  apply andb_true_iff in Hv as [Hc Hb].
  unfold canonical_mantissa in Hc. apply Z.eqb_eq in Hc.
  rewrite (Pos.mul_comm m 4503599627370496).
  change (4503599627370496 * m)%positive with (Pos.iter xO m 52).
  unfold binary_round_aux, shr_fexp.
  cbn [Zdigits2]. rewrite digits2_iter.
  replace (Z.pos (digits2_pos m + 52) + (e + -52))%Z
    with (Z.pos (digits2_pos m) + e)%Z by lia.
  rewrite Hc.
  replace (e - (e + -52))%Z with 52%Z by lia.
  cbn [shr_record_of_loc shr].
  rewrite iter_pos_eq, shr_iter.
  replace (e + -52 + 52)%Z with e by lia.
  cbn [shr_m loc_of_shr_record round_nearest_even Zdigits2].
  rewrite Hc, Z.sub_diag.
  cbn [shr_record_of_loc shr shr_m].
  rewrite Hb. reflexivity.
Qed.

(** Multiplying by 1 is exact, on every number. *)
Lemma mul_one_r (x : float) : x * 1 = x.
Proof.
  apply Prim2SF_inj. rewrite mul_spec.
  change (Prim2SF 1) with SF_one.
  apply SFmul_one_r, Prim2SF_valid.
Qed.

Lemma mul_one_l (x : float) : 1 * x = x.
Proof. rewrite mul_comm. apply mul_one_r. Qed.

Lemma SFeqb_refl_finite s m e :
  SFeqb (S754_finite s m e) (S754_finite s m e) = true.
Proof.
  unfold SFeqb, SFcompare.
  destruct s; rewrite Z.compare_refl, Pos.compare_cont_refl; reflexivity.
Qed.

Lemma is_finite_spec (x : float) : is_finite x = sf_finite (Prim2SF x).
Proof.
  unfold is_finite, is_nan, is_infinity.
  rewrite !eqb_spec, abs_spec.
  change (Prim2SF infinity) with (S754_infinity false).
  destruct (Prim2SF x) as [s|s| |s m e]; try reflexivity.
  - destruct s; reflexivity.
  - unfold SFabs. rewrite SFeqb_refl_finite. reflexivity.
Qed.

Lemma mul_zero_l_spec (x : float) : Prim2SF (0 * x) = zeroed (Prim2SF x).
Proof.
  rewrite mul_spec. change (Prim2SF 0) with (S754_zero false).
  destruct (Prim2SF x); reflexivity.
Qed.

Lemma mul_zero_r_spec (x : float) : Prim2SF (x * 0) = zeroed (Prim2SF x).
Proof. rewrite mul_comm. apply mul_zero_l_spec. Qed.

Lemma sub_self_spec (x : float) :
  Prim2SF (x - x) = if sf_finite (Prim2SF x) then S754_zero false else S754_nan.
Proof.
  rewrite sub_spec. unfold SF64sub.
  destruct (Prim2SF x) as [s|s| |s m e]; cbn [SFsub sf_finite];
    try (destruct s; reflexivity); try reflexivity.
  rewrite Z.sub_diag. reflexivity.
Qed.

(** [x - x] is +0 exactly when [x] is finite. *)
Lemma sub_self (x : float) : x - x = 0 <-> is_finite x = true.
Proof.
  rewrite is_finite_spec. split.
  - intros H. apply (f_equal Prim2SF) in H. rewrite sub_self_spec in H.
    destruct (sf_finite (Prim2SF x)); [ reflexivity | discriminate ].
  - intros H. apply Prim2SF_inj. rewrite sub_self_spec, H. reflexivity.
Qed.

Lemma SFeqb_sym (X Y : spec_float) : SFeqb X Y = SFeqb Y X.
Proof.
  unfold SFeqb, SFcompare.
  destruct X as [s1|s1| |s1 m1 e1], Y as [s2|s2| |s2 m2 e2];
    try reflexivity; try (destruct s1, s2; reflexivity).
  change (Pos.compare_cont Eq m1 m2) with (Pos.compare m1 m2).
  change (Pos.compare_cont Eq m2 m1) with (Pos.compare m2 m1).
  rewrite (Z.compare_antisym e1 e2), (Pos.compare_antisym m1 m2).
  destruct s1, s2; try reflexivity;
    destruct (e1 ?= e2)%Z; try reflexivity;
    cbn [CompOpp]; destruct (Pos.compare m1 m2); reflexivity.
Qed.

Lemma eqb_sym (x y : float) : (x =? y) = (y =? x).
Proof. rewrite !eqb_spec. apply SFeqb_sym. Qed.

Lemma SFeqb_finite_inv s1 m1 e1 s2 m2 e2 :
  SFeqb (S754_finite s1 m1 e1) (S754_finite s2 m2 e2) = true ->
  s1 = s2 /\ m1 = m2 /\ e1 = e2.
Proof.
  unfold SFeqb, SFcompare.
  change (Pos.compare_cont Eq m1 m2) with (Pos.compare m1 m2).
  destruct s1, s2; try discriminate;
    destruct (e1 ?= e2)%Z eqn:He; try discriminate;
    destruct (m1 ?= m2)%positive eqn:Hm; try discriminate;
    intros _; apply Z.compare_eq in He; apply Pos.compare_eq in Hm;
    repeat split; assumption.
Qed.

Lemma SFeqb_trans (X Y Z : spec_float) :
  SFeqb X Y = true -> SFeqb Y Z = true -> SFeqb X Z = true.
Proof.
  destruct X as [s1|s1| |s1 m1 e1], Y as [s2|s2| |s2 m2 e2], Z as [s3|s3| |s3 m3 e3];
    intros H1 H2; try reflexivity; try discriminate;
    try (destruct s1; discriminate); try (destruct s2; discriminate);
    try (destruct s3; discriminate);
    try (destruct s1, s2, s3; (discriminate || reflexivity)).
  apply SFeqb_finite_inv in H1 as (-> & -> & ->). exact H2.
Qed.

Lemma eqb_trans (x y z : float) :
  (x =? y) = true -> (y =? z) = true -> (x =? z) = true.
Proof. rewrite !eqb_spec. apply SFeqb_trans. Qed.

Lemma mul_nan_r (t : float) : t * nan = nan.
Proof. rewrite mul_comm. apply mul_nan_l. Qed.

Lemma add_nan_l (t : float) : nan + t = nan.
Proof. rewrite add_comm. apply add_nan_r. Qed.

Lemma sub_nan_l (t : float) : nan - t = nan.
Proof.
  apply Prim2SF_inj. rewrite sub_spec. reflexivity.
Qed.

(** A number that is not finite is NaN or one of the two infinities. *)
Lemma not_finite_cases (x : float) :
  is_finite x = false -> x = nan \/ x = infinity \/ x = neg_infinity.
Proof.
  rewrite is_finite_spec. intros H.
  destruct (Prim2SF x) as [s|s| |s m e] eqn:E; try discriminate.
  - right. destruct s; [ right | left ]; apply Prim2SF_inj; rewrite E; reflexivity.
  - left. apply Prim2SF_inj. rewrite E. reflexivity.
Qed.

(** Moves a goal on numbers to the specification of binary64, with the
    numbers abstracted. *)
Ltac to_spec :=
  rewrite !eqb_spec, ?add_spec, ?sub_spec, ?add_spec, ?sub_spec,
    ?mul_zero_l_spec, ?mul_zero_r_spec, ?is_finite_spec;
  repeat match goal with
         | |- context [Prim2SF ?x] => is_var x; generalize (Prim2SF x); clear x; intro
         end;
  unfold SF64add, SF64sub.

(** Decides such a goal by cases, when no two mantissas meet. *)
Ltac sf_cases :=
  repeat match goal with
         | X : spec_float |- _ => destruct X as [?s|?s| |?s ?m ?e]
         end;
  cbn [zeroed sf_finite SF64add SF64sub SFadd SFsub SFeqb SFcompare andb negb];
  repeat match goal with
         | s : bool |- _ => destruct s
         end;
  cbn [zeroed sf_finite SF64add SF64sub SFadd SFsub SFeqb SFcompare andb negb];
  rewrite ?Z.compare_refl, ?Pos.compare_cont_refl; reflexivity.

(** The entry [1·z + 0·o] of a product, once the products by 1 are gone,
    compared with [z]; and the three other places of the 1. *)
Lemma neutral_left (zr zi or oi : float) :
  (((zr - 0 * zi) + (0 * or - 0 * oi)) =? zr)
  && (((zi + 0 * zr) + (0 * oi + 0 * or)) =? zi)
  = is_finite zr && is_finite zi && (is_finite or && is_finite oi).
Proof. to_spec. sf_cases. Qed.

Lemma neutral_left' (zr zi or oi : float) :
  (((0 * zr - 0 * zi) + (or - 0 * oi)) =? or)
  && (((0 * zi + 0 * zr) + (oi + 0 * or)) =? oi)
  = is_finite zr && is_finite zi && (is_finite or && is_finite oi).
Proof. to_spec. sf_cases. Qed.

Lemma neutral_right (zr zi or oi : float) :
  (((zr - zi * 0) + (or * 0 - oi * 0)) =? zr)
  && (((zr * 0 + zi) + (or * 0 + oi * 0)) =? zi)
  = is_finite zr && is_finite zi && (is_finite or && is_finite oi).
Proof. to_spec. sf_cases. Qed.

Lemma neutral_right' (zr zi or oi : float) :
  (((zr * 0 - zi * 0) + (or - oi * 0)) =? or)
  && (((zr * 0 + zi * 0) + (or * 0 + oi)) =? oi)
  = is_finite zr && is_finite zi && (is_finite or && is_finite oi).
Proof. to_spec. sf_cases. Qed.

(** ** The constructor and the conversion of coefficients *)

(** X1: [new Quop(a, b, c, d)] returns exactly when its four arguments are
    instances of [Complex]; otherwise it throws for the first argument, in
    the order a, b, c, d, that is not one, with that argument in the text;
    and what it returns holds the four arguments themselves. *)
Theorem new_validation (va vb vc vd : value) :
  returns (Quop.new va vb vc vd)
  = is_Complex va && is_Complex vb && is_Complex vc && is_Complex vd /\
  (is_Complex va = false ->
   Quop.new va vb vc vd = Raise (Thrown "need(a instanceof Complex): " va)) /\
  (is_Complex va = true -> is_Complex vb = false ->
   Quop.new va vb vc vd = Raise (Thrown "need(b instanceof Complex): " vb)) /\
  (is_Complex va = true -> is_Complex vb = true -> is_Complex vc = false ->
   Quop.new va vb vc vd = Raise (Thrown "need(c instanceof Complex): " vc)) /\
  (is_Complex va = true -> is_Complex vb = true -> is_Complex vc = true ->
   is_Complex vd = false ->
   Quop.new va vb vc vd = Raise (Thrown "need(d instanceof Complex): " vd)) /\
  (forall q : quop,
      Quop.new va vb vc vd = Ok q ->
      va = VComplex (a q) /\ vb = VComplex (b q) /\
      vc = VComplex (c q) /\ vd = VComplex (d q)).
Proof.
  repeat split.
  - destruct va; try reflexivity; destruct vb; try reflexivity;
      destruct vc; try reflexivity; destruct vd; reflexivity.
  - destruct va; try reflexivity; discriminate.
  - destruct va; try discriminate; destruct vb; try reflexivity; discriminate.
  - destruct va; try discriminate; destruct vb; try discriminate;
      destruct vc; try reflexivity; discriminate.
  - destruct va; try discriminate; destruct vb; try discriminate;
      destruct vc; try discriminate; destruct vd; try reflexivity; discriminate.
  - destruct va; try discriminate; destruct vb; try discriminate;
      destruct vc; try discriminate; destruct vd; try discriminate.
    cbn in H. injection H as <-. reflexivity.
  - destruct va; try discriminate; destruct vb; try discriminate;
      destruct vc; try discriminate; destruct vd; try discriminate.
    cbn in H. injection H as <-. reflexivity.
  - destruct va; try discriminate; destruct vb; try discriminate;
      destruct vc; try discriminate; destruct vd; try discriminate.
    cbn in H. injection H as <-. reflexivity.
  - destruct va; try discriminate; destruct vb; try discriminate;
      destruct vc; try discriminate; destruct vd; try discriminate.
    cbn in H. injection H as <-. reflexivity.
Qed.

(** A number where the third argument should be a [Complex]. *)
Lemma new_validation_witness :
  Quop.new (VComplex (mkComplex 1 0)) (VComplex (mkComplex 0 0)) (VNumber 0) VNull
  = Raise (Thrown "need(c instanceof Complex): " (VNumber 0)).
Proof.
  apply (proj1 (proj2 (proj2 (proj2
    (new_validation (VComplex (mkComplex 1 0)) (VComplex (mkComplex 0 0))
                    (VNumber 0) VNull))))); reflexivity.
Defined.

(** X2: [Quop.from] throws "Don't know how to convert" on everything that
    is not an array (a [Quop] included) and "Wrong number of coefficients"
    on an array of another length than 4, whatever it holds; on an array of
    4 it throws what the conversion of its first element that does not
    convert throws.  The value or the array is part of the text. *)
Theorem from_errors :
  (forall coefs : value,
      is_Array coefs = false ->
      Quop.from coefs
      = Raise (Thrown "Don't know how to convert into a 2x2 unitary matrix: " coefs)) /\
  (forall l : list value,
      List.length l <> 4%nat ->
      Quop.from (VArray l)
      = Raise (Thrown "Wrong number of coefficients: " (VArray l))) /\
  (forall (v0 v1 v2 v3 : value) (e : exn),
      Complex.from v0 = Raise e ->
      Quop.from (VArray [v0; v1; v2; v3]) = Raise e) /\
  (forall (v0 v1 v2 v3 : value) (e : exn),
      convertible v0 = true -> Complex.from v1 = Raise e ->
      Quop.from (VArray [v0; v1; v2; v3]) = Raise e) /\
  (forall (v0 v1 v2 v3 : value) (e : exn),
      convertible v0 = true -> convertible v1 = true -> Complex.from v2 = Raise e ->
      Quop.from (VArray [v0; v1; v2; v3]) = Raise e) /\
  (forall (v0 v1 v2 v3 : value) (e : exn),
      convertible v0 = true -> convertible v1 = true -> convertible v2 = true ->
      Complex.from v3 = Raise e ->
      Quop.from (VArray [v0; v1; v2; v3]) = Raise e).
Proof.
  repeat split.
  - intros coefs H. destruct coefs; try reflexivity. discriminate.
  - intros l H.
    destruct l as [|v0 [|v1 [|v2 [|v3 [|v4 l]]]]]; try reflexivity.
    contradiction H. reflexivity.
  - intros v0 v1 v2 v3 e H0. rewrite from_four, H0. reflexivity.
  - intros v0 v1 v2 v3 e H0 H1. rewrite from_four, H1.
    destruct v0; try discriminate; reflexivity.
  - intros v0 v1 v2 v3 e H0 H1 H2. rewrite from_four, H2.
    destruct v0; try discriminate; destruct v1; try discriminate; reflexivity.
  - intros v0 v1 v2 v3 e H0 H1 H2 H3. rewrite from_four, H3.
    destruct v0; try discriminate; destruct v1; try discriminate;
      destruct v2; try discriminate; reflexivity.
Qed.

(** A [Quop] is not converted, and an array of three strings has the wrong
    length before it has the wrong elements. *)
Lemma from_errors_witness :
  Quop.from (VQuop Quop.IDENTITY)
  = Raise (Thrown "Don't know how to convert into a 2x2 unitary matrix: "
                  (VQuop Quop.IDENTITY)) /\
  Quop.from (VArray [VString "1"; VString "0"; VString "0"])
  = Raise (Thrown "Wrong number of coefficients: "
                  (VArray [VString "1"; VString "0"; VString "0"])).
Proof.
  split.
  - apply (proj1 from_errors). reflexivity.
  - apply (proj1 (proj2 from_errors)). simpl. lia.
Defined.

(** ** Equality *)

(** X3: between two [Quop], [isEqualTo] is symmetric and transitive.  (It
    is reflexive only on matrices without NaN, see C8.) *)
Theorem isEqualTo_partial_equivalence :
  (forall X Y : quop,
      Quop.isEqualTo X (VQuop Y) = Quop.isEqualTo Y (VQuop X)) /\
  (forall X Y Z : quop,
      Quop.isEqualTo X (VQuop Y) = true ->
      Quop.isEqualTo Y (VQuop Z) = true ->
      Quop.isEqualTo X (VQuop Z) = true).
Proof.
  split.
  - intros X Y. unfold Quop.isEqualTo, Complex.isEqualTo.
    rewrite (eqb_sym (real (a X))), (eqb_sym (imag (a X))),
      (eqb_sym (real (b X))), (eqb_sym (imag (b X))),
      (eqb_sym (real (c X))), (eqb_sym (imag (c X))),
      (eqb_sym (real (d X))), (eqb_sym (imag (d X))).
    reflexivity.
  - intros X Y Z. unfold Quop.isEqualTo, Complex.isEqualTo.
    rewrite !andb_true_iff.
    intros [[[[Ha Ha'] [Hb Hb']] [Hc Hc']] [Hd Hd']]
           [[[[Ka Ka'] [Kb Kb']] [Kc Kc']] [Kd Kd']].
    repeat split; eapply eqb_trans; eassumption.
Qed.

(** The adjoint of Pauli-Y differs from it in the sign of its zeros only:
    the two are equal in both directions, and through the identity chain. *)
Lemma isEqualTo_partial_equivalence_witness :
  Quop.isEqualTo (mkQuop (mkComplex 0 (-0)) (mkComplex 0 (-1))
                         (mkComplex 0 1) (mkComplex 0 (-0)))
                 (VQuop Quop.PAULI_Y) = true.
Proof.
  apply (proj2 isEqualTo_partial_equivalence _
               (mkQuop (mkComplex (-0) 0) (mkComplex (-0) (-1))
                       (mkComplex (-0) 1) (mkComplex (-0) 0)));
    reflexivity.
Defined.

(** ** Scaling, sum and difference *)

(** X6: [plus] is commutative, bit for bit. *)
Theorem plus_commutative (X Y : quop) : Quop.plus X Y = Quop.plus Y X.
Proof.
  destruct X as [[ar ai] [br bi] [cr ci] [dr di]].
  destruct Y as [[er ei] [fr fi] [gr gi] [hr hi]].
  cbn -[PrimFloat.add]. unfold Complex.plus. cbn [real imag].
  rewrite (add_comm ar er), (add_comm ai ei), (add_comm br fr), (add_comm bi fi),
    (add_comm cr gr), (add_comm ci gi), (add_comm dr hr), (add_comm di hi).
  reflexivity.
Qed.

(** X7: [X.minus(X)] is the matrix of zeros exactly when the eight parts
    of [X] are finite (the difference of an infinity, or of NaN, with itself
    is NaN). *)
Theorem minus_self (X : quop) :
  Quop.minus X X = Ok zero_quop <-> all_finite X = true.
Proof.
  destruct X as [[ar ai] [br bi] [cr ci] [dr di]].
  unfold all_finite, finite_complex, zero_quop. cbn [a b c d real imag].
  rewrite !andb_true_iff, <- !sub_self.
  cbn -[PrimFloat.sub]. unfold Complex.minus. cbn [real imag]. split.
  - intros H. injection H. intros. repeat split; assumption.
  - intros [[[[-> ->] [-> ->]] [-> ->]] [-> ->]]. reflexivity.
Qed.

(** ** The identity in a product *)

(** X8: [IDENTITY.times(X)] and [X.times(IDENTITY)] return a matrix that
    [isEqualTo] [X] exactly when the eight parts of [X] are finite: the
    products by 1 are exact, the products by 0 are zeros that do not change
    a finite sum, and NaN for an infinite or NaN part. *)
Theorem identity_neutral (X : quop) :
  (p <- Quop.times Quop.IDENTITY X ;; Ok (Quop.isEqualTo p (VQuop X)))
  = Ok (all_finite X) /\
  (p <- Quop.times X Quop.IDENTITY ;; Ok (Quop.isEqualTo p (VQuop X)))
  = Ok (all_finite X).
Proof.
  destruct X as [[ar ai] [br bi] [cr ci] [dr di]].
  split.
  - cbn -[PrimFloat.eqb PrimFloat.add PrimFloat.sub PrimFloat.mul is_finite].
    rewrite !mul_one_l.
    rewrite (neutral_left ar ai cr ci), (neutral_left br bi dr di),
      (neutral_left' ar ai cr ci), (neutral_left' br bi dr di).
    unfold all_finite, finite_complex; cbn [a b c d real imag].
    f_equal.
    destruct (is_finite ar), (is_finite ai), (is_finite br), (is_finite bi),
      (is_finite cr), (is_finite ci), (is_finite dr), (is_finite di); reflexivity.
  - cbn -[PrimFloat.eqb PrimFloat.add PrimFloat.sub PrimFloat.mul is_finite].
    rewrite !mul_one_r.
    rewrite (neutral_right ar ai br bi), (neutral_right' ar ai br bi),
      (neutral_right cr ci dr di), (neutral_right' cr ci dr di).
    unfold all_finite, finite_complex; cbn [a b c d real imag].
    f_equal.
    destruct (is_finite ar), (is_finite ai), (is_finite br), (is_finite bi),
      (is_finite cr), (is_finite ci), (is_finite dr), (is_finite di); reflexivity.
Qed.

(** An infinite entry: the identity does not give the matrix back. *)
Example identity_times_infinite :
  (X <- Quop.from (VArray [VNumber infinity; VNumber 0; VNumber 0; VNumber 1]) ;;
   p <- Quop.times Quop.IDENTITY X ;;
   Ok (Quop.isEqualTo p (VQuop X), Quop.isEqualTo X (VQuop X)))
  = Ok (false, true).
Proof. vm_compute. reflexivity. Qed.

(** ** Rotations of binary64 *)

(** [fromRotation] on any array of numbers: the reference algorithm on the
    first three components, a missing one read as NaN. *)
Lemma fromRotation_agrees_at (Math_sin Math_cos : float -> float) (v : list float) :
  Quop.fromRotation Math_sin Math_cos v
  = Ok (Reference.fromRotationVector (binary64 Math_sin Math_cos)
          (number_at v 0) (number_at v 1) (number_at v 2)).
Proof.
  unfold Quop.fromRotation, Reference.fromRotationVector, Reference.rotation.
  unfold Reference.sign, Reference.angle.
  rewrite !scaled_component.
  unfold Quop.fromRotation_s, Quop.fromRotation_theta.
  rewrite sign_form.
  rewrite !(times_number_left Math_sin Math_cos).
  reflexivity.
Qed.

Ltac absorb_nan :=
  repeat (rewrite ?mul_nan_l, ?mul_nan_r, ?add_nan_l, ?add_nan_r,
           ?sub_nan_l, ?sub_nan_r);
  reflexivity.

(** With a component that is not finite, [sigma_v] has a NaN in every
    entry, and so has the matrix returned, whatever the two coefficients. *)
Lemma blend_not_finite (Math_sin Math_cos : float -> float)
  (ci cv : complex) (x y z : float) :
  is_finite x && is_finite y && is_finite z = false ->
  Reference.blend (binary64 Math_sin Math_cos) ci cv
    (Reference.sigma (binary64 Math_sin Math_cos) x y z) = nan_quop.
Proof.
  intros H.
  destruct ci as [p q], cv as [u w].
  apply andb_false_iff in H as [H | H]; [ apply andb_false_iff in H as [H | H] | ];
    apply not_finite_cases in H as [-> | [-> | ->]];
    vm_compute; absorb_nan.
Qed.

(** X9: [fromRotation] does not throw on a vector it cannot use, it returns
    the matrix whose eight parts are NaN: when one of the three components,
    scaled by 2 pi, is infinite or NaN (whatever the host's sine and cosine),
    and in particular when the array has fewer than three components. *)
Theorem fromRotation_not_finite (Math_sin Math_cos : float -> float) :
  (forall v : list float,
      is_finite (number_at v 0 * Quop.Math_PI * 2)
      && is_finite (number_at v 1 * Quop.Math_PI * 2)
      && is_finite (number_at v 2 * Quop.Math_PI * 2) = false ->
      Quop.fromRotation Math_sin Math_cos v = Ok nan_quop) /\
  (forall v : list float,
      (List.length v < 3)%nat ->
      Quop.fromRotation Math_sin Math_cos v = Ok nan_quop).
Proof.
  assert (Hmain : forall v : list float,
      is_finite (number_at v 0 * Quop.Math_PI * 2)
      && is_finite (number_at v 1 * Quop.Math_PI * 2)
      && is_finite (number_at v 2 * Quop.Math_PI * 2) = false ->
      Quop.fromRotation Math_sin Math_cos v = Ok nan_quop).
  { intros v H. rewrite fromRotation_agrees_at.
    unfold Reference.fromRotationVector, Reference.rotation. cbv zeta.
    apply (f_equal (@Ok quop)). apply blend_not_finite.
    rewrite !scaled_component in H. exact H. }
  split; [ exact Hmain | ].
  intros v Hlen. apply Hmain.
  destruct v as [|x [|y [|z l]]]; cbn [number_at nth].
  - reflexivity.
  - change (nan * Quop.Math_PI * 2) with nan.
    change (is_finite nan) with false. rewrite !andb_false_r. reflexivity.
  - change (nan * Quop.Math_PI * 2) with nan.
    change (is_finite nan) with false. rewrite !andb_false_r. reflexivity.
  - cbn [List.length] in Hlen. lia.
Qed.

Lemma fromRotation_not_finite_witness :
  Quop.fromRotation poly_sin poly_cos [0.25; infinity; 0] = Ok nan_quop /\
  Quop.fromRotation poly_sin poly_cos [0.25; 0] = Ok nan_quop.
Proof.
  split.
  - apply (proj1 (fromRotation_not_finite poly_sin poly_cos)). reflexivity.
  - apply (proj2 (fromRotation_not_finite poly_sin poly_cos)). simpl. lia.
Defined.

(** ** The Hadamard constant *)

(** X10: [HADAMARD] loads as the matrix [[h, h], [h, -h]] with
    [h = Math.sqrt(0.5)] and zero imaginary parts; it is its own adjoint for
    [isEqualTo], but its square is not [isEqualTo] the identity: rounding
    leaves it within 1e-9 of it. *)
Theorem hadamard_constant :
  Quop.HADAMARD_init
  = Ok (mkQuop (mkComplex (PrimFloat.sqrt 0.5) 0) (mkComplex (PrimFloat.sqrt 0.5) 0)
               (mkComplex (PrimFloat.sqrt 0.5) 0) (mkComplex (- PrimFloat.sqrt 0.5) 0)) /\
  (h <- Quop.adjoint Quop.HADAMARD ;;
   Ok (Quop.isEqualTo Quop.HADAMARD (VQuop h))) = Ok true /\
  (p <- Quop.times Quop.HADAMARD Quop.HADAMARD ;;
   Ok (Quop.isEqualTo p (VQuop Quop.IDENTITY))) = Ok false /\
  (p <- Quop.times Quop.HADAMARD Quop.HADAMARD ;;
   Ok (Reference.near (binary64 poly_sin poly_cos)
                      (Reference.tolerance (binary64 poly_sin poly_cos))
                      p Quop.IDENTITY)) = Ok true.
Proof.
  repeat split; vm_compute; reflexivity.
Qed.

(** ** The adjoint and the other operations

    The negation of a sum is the sum of the negations, but for the sign of a
    zero: [-(1 + -1)] is [-0] and [-1 + 1] is [+0].  [isEqualTo] does not see
    the difference. *)

Lemma cond_Zopp_negb s m : SpecFloat.cond_Zopp (negb s) m = (- SpecFloat.cond_Zopp s m)%Z.
Proof. destruct s; simpl; lia. Qed.

Lemma SFopp_add prec emax X Y :
  sf_same (SFopp (SFadd prec emax X Y)) (SFadd prec emax (SFopp X) (SFopp Y)).
Proof.
  destruct X as [sx|sx| |sx mx ex], Y as [sy|sy| |sy my ey];
    try (left; reflexivity);
    try (destruct sx, sy; simpl; solve [ left; reflexivity | right; eauto ]).
  cbn [SFadd SFopp]. cbv zeta.
  rewrite !cond_Zopp_negb, <- Z.opp_add_distr.
  destruct (_ + _)%Z as [|p|p]; cbn [Z.opp binary_normalize SFopp].
  - right. eauto.
  - left. unfold binary_round. destruct (shl_align _ _ _).
    symmetry. apply (binary_round_aux_opp prec emax false).
  - left. unfold binary_round. destruct (shl_align _ _ _).
    rewrite <- (binary_round_aux_opp prec emax true). reflexivity.
Qed.

Lemma SFadd_same prec emax U U' V V' :
  sf_same U U' -> sf_same V V' ->
  sf_same (SFadd prec emax U V) (SFadd prec emax U' V').
Proof.
  intros [-> | (s & s' & -> & ->)] [-> | (t & t' & -> & ->)].
  - left. reflexivity.
  - destruct U' as [u|u| |u m e]; try (left; reflexivity).
    right. destruct u, t, t'; simpl; eauto.
  - destruct V' as [u|u| |u m e]; try (left; reflexivity).
    right. destruct s, s', u; simpl; eauto.
  - right. destruct s, s', t, t'; simpl; eauto.
Qed.

Lemma SFopp_same U U' : sf_same U U' -> sf_same (SFopp U) (SFopp U').
Proof.
  intros [-> | (s & s' & -> & ->)]; [ left; reflexivity | right; simpl; eauto ].
Qed.

Lemma SFeqb_same X Y : sf_same X Y -> SFeqb X Y = SFeqb X X.
Proof.
  intros [-> | (s & s' & -> & ->)]; reflexivity.
Qed.

Lemma same_refl (x : float) : same_number x x.
Proof. left. reflexivity. Qed.

Lemma opp_add_same (p q : float) : same_number (- (p + q)) (- p + - q).
Proof.
  unfold same_number. rewrite opp_spec, !add_spec, !opp_spec. apply SFopp_add.
Qed.

Lemma add_same (u u' v v' : float) :
  same_number u u' -> same_number v v' -> same_number (u + v) (u' + v').
Proof.
  unfold same_number. rewrite !add_spec. apply SFadd_same.
Qed.

Lemma opp_same (u u' : float) : same_number u u' -> same_number (- u) (- u').
Proof.
  unfold same_number. rewrite !opp_spec. apply SFopp_same.
Qed.

Lemma same_trans (x y z : float) :
  same_number x y -> same_number y z -> same_number x z.
Proof.
  unfold same_number, sf_same.
  intros [-> | (s & s' & -> & E)] [H | (t & t' & E1 & E2)]; eauto.
  - rewrite <- H. eauto.
Qed.

Lemma eqb_same (x y : float) : same_number x y -> (x =? y) = negb (is_nan x).
Proof.
  intros H. unfold is_nan. rewrite negb_involutive, !eqb_spec.
  apply SFeqb_same. exact H.
Qed.

Lemma is_nan_opp (x : float) : is_nan (- x) = is_nan x.
Proof.
  unfold is_nan. rewrite !eqb_spec, opp_spec.
  destruct (Prim2SF x) as [s|s| |s m e]; try reflexivity.
  - destruct s; reflexivity.
  - cbn [SFopp]. rewrite !SFeqb_refl_finite. reflexivity.
Qed.

Lemma mul_opp_opp (x y : float) : (- x) * (- y) = y * x.
Proof.
  rewrite mul_opp_l, (mul_comm x (- y)), mul_opp_l, opp_involutive. reflexivity.
Qed.

Lemma mul_opp_r (x y : float) : x * (- y) = - (y * x).
Proof.
  rewrite (mul_comm x (- y)). apply mul_opp_l.
Qed.

Lemma entry_same (p e q g : complex) :
  Complex.isEqualTo
    (Complex.conjugate (Complex.plus (Complex.mul p e) (Complex.mul q g)))
    (VComplex (Complex.plus (Complex.mul (Complex.conjugate e) (Complex.conjugate p))
                            (Complex.mul (Complex.conjugate g) (Complex.conjugate q))))
  = nan_free_complex (Complex.plus (Complex.mul p e) (Complex.mul q g)).
Proof.
  destruct p as [pr pi], e as [er ei], q as [qr qi], g as [gr gi].
  unfold Complex.isEqualTo, Complex.conjugate, Complex.plus, Complex.mul,
    nan_free_complex.
  cbn [real imag].
  rewrite !mul_opp_opp, !mul_opp_r, !mul_opp_l.
  rewrite (mul_comm er pr), (mul_comm gr qr), (mul_comm ei pr), (mul_comm gi qr).
  f_equal.
  - unfold is_nan. rewrite negb_involutive. reflexivity.
  - rewrite <- (is_nan_opp (pr * ei + pi * er + (qr * gi + qi * gr))).
    apply eqb_same.
    rewrite (add_comm (- (pi * er))), (add_comm (- (qi * gr))).
    eapply same_trans; [ apply opp_add_same | ].
    apply add_same; apply opp_add_same.
Qed.

(** X15: the adjoint of a product is the product of the adjoints in the
    reverse order: [X.times(Y).adjoint()] [isEqualTo]
    [Y.adjoint().times(X.adjoint())] exactly when no part of [X.times(Y)] is
    NaN, rounding included. *)
Theorem adjoint_times (X Y : quop) :
  (p <- Quop.times X Y ;;
   l <- Quop.adjoint p ;;
   y' <- Quop.adjoint Y ;;
   x' <- Quop.adjoint X ;;
   r <- Quop.times y' x' ;;
   Ok (Quop.isEqualTo l (VQuop r)))
  = (p <- Quop.times X Y ;; Ok (nan_free p)).
Proof.
  destruct X as [xa xb xc xd], Y as [ya yb yc yd].
  change (Ok (Complex.isEqualTo
                (Complex.conjugate (Complex.plus (Complex.mul xa ya) (Complex.mul xb yc)))
                (VComplex (Complex.plus (Complex.mul (Complex.conjugate ya) (Complex.conjugate xa))
                                        (Complex.mul (Complex.conjugate yc) (Complex.conjugate xb))))
              && Complex.isEqualTo
                (Complex.conjugate (Complex.plus (Complex.mul xc ya) (Complex.mul xd yc)))
                (VComplex (Complex.plus (Complex.mul (Complex.conjugate ya) (Complex.conjugate xc))
                                        (Complex.mul (Complex.conjugate yc) (Complex.conjugate xd))))
              && Complex.isEqualTo
                (Complex.conjugate (Complex.plus (Complex.mul xa yb) (Complex.mul xb yd)))
                (VComplex (Complex.plus (Complex.mul (Complex.conjugate yb) (Complex.conjugate xa))
                                        (Complex.mul (Complex.conjugate yd) (Complex.conjugate xb))))
              && Complex.isEqualTo
                (Complex.conjugate (Complex.plus (Complex.mul xc yb) (Complex.mul xd yd)))
                (VComplex (Complex.plus (Complex.mul (Complex.conjugate yb) (Complex.conjugate xc))
                                        (Complex.mul (Complex.conjugate yd) (Complex.conjugate xd)))))
          = Ok (nan_free_complex (Complex.plus (Complex.mul xa ya) (Complex.mul xb yc))
                && nan_free_complex (Complex.plus (Complex.mul xa yb) (Complex.mul xb yd))
                && nan_free_complex (Complex.plus (Complex.mul xc ya) (Complex.mul xd yc))
                && nan_free_complex (Complex.plus (Complex.mul xc yb) (Complex.mul xd yd)))).
  rewrite !entry_same.
  f_equal.
  destruct (nan_free_complex _), (nan_free_complex _), (nan_free_complex _),
    (nan_free_complex _); reflexivity.
Qed.

Lemma sum_same (p e : complex) :
  Complex.isEqualTo (Complex.conjugate (Complex.plus p e))
    (VComplex (Complex.plus (Complex.conjugate p) (Complex.conjugate e)))
  = nan_free_complex (Complex.plus p e).
Proof.
  destruct p as [pr pi], e as [er ei].
  unfold Complex.isEqualTo, Complex.conjugate, Complex.plus, nan_free_complex.
  cbn [real imag].
  f_equal.
  - unfold is_nan. rewrite negb_involutive. reflexivity.
  - rewrite <- (is_nan_opp (pi + ei)). apply eqb_same, opp_add_same.
Qed.

Lemma difference_same (p e : complex) :
  Complex.isEqualTo (Complex.conjugate (Complex.minus p e))
    (VComplex (Complex.minus (Complex.conjugate p) (Complex.conjugate e)))
  = nan_free_complex (Complex.minus p e).
Proof.
  destruct p as [pr pi], e as [er ei].
  unfold Complex.isEqualTo, Complex.conjugate, Complex.minus, nan_free_complex.
  cbn [real imag].
  f_equal.
  - unfold is_nan. rewrite negb_involutive. reflexivity.
  - rewrite <- (is_nan_opp (pi - ei)), <- !add_opp_r.
    apply eqb_same, opp_add_same.
Qed.

Lemma scaled_same (p z : complex) :
  Complex.isEqualTo (Complex.conjugate (Complex.mul p z))
    (VComplex (Complex.mul (Complex.conjugate p) (Complex.conjugate z)))
  = nan_free_complex (Complex.mul p z).
Proof.
  destruct p as [pr pi], z as [zr zi].
  unfold Complex.isEqualTo, Complex.conjugate, Complex.mul, nan_free_complex.
  cbn [real imag].
  rewrite !mul_opp_opp, !mul_opp_r, !mul_opp_l.
  rewrite (mul_comm zi pi), (mul_comm zi pr).
  f_equal.
  - unfold is_nan. rewrite negb_involutive. reflexivity.
  - rewrite <- (is_nan_opp (pr * zi + pi * zr)). apply eqb_same, opp_add_same.
Qed.

(** X16: the adjoint goes through [plus], [minus] and [scaledBy], the factor
    conjugated: the adjoint of [X.plus(Y)] [isEqualTo] the sum of the
    adjoints, that of [X.minus(Y)] their difference, and that of
    [X.scaledBy(z)] the adjoint of [X] scaled by the conjugate of [z], each
    exactly when no part of the matrix on the left is NaN. *)
Theorem adjoint_linear (X Y : quop) (z : complex) :
  (s <- Quop.plus X Y ;;
   l <- Quop.adjoint s ;;
   x' <- Quop.adjoint X ;;
   y' <- Quop.adjoint Y ;;
   r <- Quop.plus x' y' ;;
   Ok (Quop.isEqualTo l (VQuop r)))
  = (s <- Quop.plus X Y ;; Ok (nan_free s)) /\
  (s <- Quop.minus X Y ;;
   l <- Quop.adjoint s ;;
   x' <- Quop.adjoint X ;;
   y' <- Quop.adjoint Y ;;
   r <- Quop.minus x' y' ;;
   Ok (Quop.isEqualTo l (VQuop r)))
  = (s <- Quop.minus X Y ;; Ok (nan_free s)) /\
  (s <- Quop.scaledBy X (VComplex z) ;;
   l <- Quop.adjoint s ;;
   x' <- Quop.adjoint X ;;
   r <- Quop.scaledBy x' (VComplex (Complex.conjugate z)) ;;
   Ok (Quop.isEqualTo l (VQuop r)))
  = (s <- Quop.scaledBy X (VComplex z) ;; Ok (nan_free s)).
Proof.
  destruct X as [xa xb xc xd], Y as [ya yb yc yd].
  repeat split.
  - cbn [Quop.plus Quop.adjoint Quop.new Quop.need_Complex bind a b c d
         Quop.isEqualTo].
    unfold nan_free. cbn [a b c d].
    rewrite !sum_same. f_equal.
    destruct (nan_free_complex _), (nan_free_complex _), (nan_free_complex _),
      (nan_free_complex _); reflexivity.
  - cbn [Quop.minus Quop.adjoint Quop.new Quop.need_Complex bind a b c d
         Quop.isEqualTo].
    unfold nan_free. cbn [a b c d].
    rewrite !difference_same. f_equal.
    destruct (nan_free_complex _), (nan_free_complex _), (nan_free_complex _),
      (nan_free_complex _); reflexivity.
  - cbn [Quop.scaledBy Complex.times Complex.from Quop.adjoint Quop.new
         Quop.need_Complex bind a b c d Quop.isEqualTo].
    unfold nan_free. cbn [a b c d].
    rewrite !scaled_same. f_equal.
    destruct (nan_free_complex _), (nan_free_complex _), (nan_free_complex _),
      (nan_free_complex _); reflexivity.
Qed.

(** * The rotation is unitary at binary64

    The error analysis of [Quop.fromRotation]: every operation of binary64
    is followed through the specification of the standard library, and the
    matrix the script returns is compared with the one the same formulas
    give over the real numbers. *)

Local Open Scope R_scope.

(** ** Powers of two, digits and the location of a real number *)

(** *** Powers of two *)

Lemma pow2_pos (e : Z) : 0 < pow2 e.
Proof. apply powerRZ_lt. lra. Qed.

Lemma pow2_add (a b : Z) : pow2 (a + b) = pow2 a * pow2 b.
Proof. apply powerRZ_add. lra. Qed.

Lemma pow2_0 : pow2 0 = 1.
Proof. reflexivity. Qed.

Lemma pow2_1 : pow2 1 = 2.
Proof. unfold pow2. simpl. lra. Qed.

Lemma pow2_succ (e : Z) : pow2 (e + 1) = 2 * pow2 e.
Proof. rewrite pow2_add, pow2_1. ring. Qed.

Lemma pow2_pred (e : Z) : pow2 (e - 1) = pow2 e / 2.
Proof.
  replace e with ((e - 1) + 1)%Z at 2 by lia. rewrite pow2_succ. field.
Qed.

Lemma pow2_IZR (e : Z) : (0 <= e)%Z -> pow2 e = IZR (2 ^ e).
Proof.
  intros H. destruct e as [|p|p]; [ reflexivity | | lia ].
  unfold pow2. change (2 ^ Z.pos p)%Z with (Z.pow_pos 2 p).
  rewrite Zpower_pos_powerRZ. reflexivity.
Qed.

Lemma pow2_ge_1 (e : Z) : (0 <= e)%Z -> 1 <= pow2 e.
Proof.
  intros H. rewrite pow2_IZR by exact H. apply IZR_le.
  assert (0 < 2 ^ e)%Z by (apply Z.pow_pos_nonneg; lia). lia.
Qed.

Lemma pow2_le (a b : Z) : (a <= b)%Z -> pow2 a <= pow2 b.
Proof.
  intros H. replace b with (a + (b - a))%Z by lia. rewrite pow2_add.
  pose proof (pow2_pos a) as Ha.
  assert (Hb : 1 <= pow2 (b - a)) by (apply pow2_ge_1; lia).
  rewrite <- (Rmult_1_r (pow2 a)) at 1.
  apply Rmult_le_compat_l; lra.
Qed.

Lemma pow2_lt (a b : Z) : (a < b)%Z -> pow2 a < pow2 b.
Proof.
  intros H. apply Rlt_le_trans with (pow2 (a + 1)).
  - rewrite pow2_succ. pose proof (pow2_pos a). lra.
  - apply pow2_le. lia.
Qed.

Lemma pow2_opp (e : Z) : pow2 (- e) = / pow2 e.
Proof.
  pose proof (pow2_pos e). pose proof (pow2_add (- e) e) as H1.
  replace (- e + e)%Z with 0%Z in H1 by lia. rewrite pow2_0 in H1.
  apply Rmult_eq_reg_r with (pow2 e); [ | lra ].
  rewrite <- H1. field. lra.
Qed.

(** *** Digits *)

Lemma digits2_bounds (m : positive) :
  (2 ^ (Zpos (digits2_pos m) - 1) <= Zpos m < 2 ^ Zpos (digits2_pos m))%Z.
Proof.
  induction m as [m IH | m IH | ]; cbn [digits2_pos].
  - rewrite Pos2Z.inj_succ.
    replace (Z.succ (Z.pos (digits2_pos m)) - 1)%Z with (Z.succ (Z.pos (digits2_pos m) - 1))%Z by lia.
    rewrite !Z.pow_succ_r by lia. lia.
  - rewrite Pos2Z.inj_succ.
    replace (Z.succ (Z.pos (digits2_pos m)) - 1)%Z with (Z.succ (Z.pos (digits2_pos m) - 1))%Z by lia.
    rewrite !Z.pow_succ_r by lia. lia.
  - simpl. lia.
Qed.

Lemma Zdigits2_bounds (m : Z) :
  (0 < m)%Z -> (2 ^ (Zdigits2 m - 1) <= m < 2 ^ Zdigits2 m)%Z /\ (0 < Zdigits2 m)%Z.
Proof.
  destruct m as [|p|p]; try lia. intros _. split; [ apply digits2_bounds | simpl; lia ].
Qed.

(** The number of digits is fixed by the binade. *)
Lemma Zdigits2_unique (m d : Z) :
  (2 ^ (d - 1) <= m < 2 ^ d)%Z -> (0 < d)%Z -> Zdigits2 m = d.
Proof.
  intros [Hlo Hhi] Hd.
  assert (Hm : (0 < m)%Z).
  { assert (0 < 2 ^ (d - 1))%Z by (apply Z.pow_pos_nonneg; lia). lia. }
  destruct (Zdigits2_bounds m Hm) as [[Hl Hh] Hp].
  destruct (Z.lt_trichotomy (Zdigits2 m) d) as [Hc | [Hc | Hc]]; [ | exact Hc | ].
  - assert (2 ^ Zdigits2 m <= 2 ^ (d - 1))%Z by (apply Z.pow_le_mono_r; lia). lia.
  - assert (2 ^ d <= 2 ^ (Zdigits2 m - 1))%Z by (apply Z.pow_le_mono_r; lia). lia.
Qed.

(** *** Shifting right with a round and a sticky bit *)

Lemma IZR_xO (p : positive) : IZR (Zpos p~0) = 2 * IZR (Zpos p).
Proof. rewrite Pos2Z.inj_xO, mult_IZR. reflexivity. Qed.

Lemma IZR_xI (p : positive) : IZR (Zpos p~1) = 2 * IZR (Zpos p) + 1.
Proof. rewrite Pos2Z.inj_xI, plus_IZR, mult_IZR. reflexivity. Qed.

Lemma shr_1_located (u : R) (mrs : shr_record) :
  (0 <= shr_m mrs)%Z -> rec_located u mrs ->
  rec_located (u / 2) (shr_1 mrs) /\ shr_m (shr_1 mrs) = (shr_m mrs / 2)%Z.
Proof.
  destruct mrs as [m r s]. unfold rec_located. cbn [shr_m].
  intros Hm H.
  destruct m as [|[p|p|]|p]; try lia.
  - destruct r, s; cbn in *; split; try reflexivity; lra.
  - split.
    + destruct r, s; cbn [shr_1 orb loc_of_shr_record shr_m located] in *;
        rewrite IZR_xI in H; lra.
    + cbn [shr_1 shr_m]. destruct r, s; cbn [shr_m]; rewrite Pos2Z.inj_xI;
        apply Z.div_unique with 1%Z; lia.
  - split.
    + destruct r, s; cbn [shr_1 orb loc_of_shr_record shr_m located] in *;
        rewrite IZR_xO in H; lra.
    + cbn [shr_1 shr_m]. destruct r, s; cbn [shr_m]; rewrite Pos2Z.inj_xO;
        apply Z.div_unique with 0%Z; lia.
  - split.
    + destruct r, s; cbn [shr_1 orb loc_of_shr_record shr_m located] in *; lra.
    + destruct r, s; reflexivity.
Qed.

Lemma shr_iter_located (u : R) (mrs : shr_record) (p : positive) :
  (0 <= shr_m mrs)%Z -> rec_located u mrs ->
  rec_located (u / pow2 (Zpos p)) (Pos.iter shr_1 mrs p) /\
  shr_m (Pos.iter shr_1 mrs p) = (shr_m mrs / 2 ^ Zpos p)%Z.
Proof.
  intros Hm H. induction p as [|p IH] using Pos.peano_ind.
  - cbn [Pos.iter]. rewrite pow2_1. change (2 ^ 1)%Z with 2%Z.
    apply shr_1_located; assumption.
  - rewrite Pos.iter_succ. destruct IH as [IH1 IH2].
    assert (H0 : (0 <= shr_m (Pos.iter shr_1 mrs p))%Z).
    { rewrite IH2. apply Z.div_pos; [ exact Hm | apply Z.pow_pos_nonneg; lia ]. }
    destruct (shr_1_located _ _ H0 IH1) as [K1 K2]. split.
    + rewrite Pos2Z.inj_succ. unfold Z.succ. rewrite pow2_succ.
      replace (u / (2 * pow2 (Z.pos p))) with (u / pow2 (Z.pos p) / 2);
        [ exact K1 | field; pose proof (pow2_pos (Z.pos p)); lra ].
    + rewrite K2, IH2, Pos2Z.inj_succ, Z.pow_succ_r by lia.
      rewrite Z.div_div by (try apply Z.pow_pos_nonneg; lia).
      f_equal. lia.
Qed.

(** [shr] by [n >= 0] bits. *)
Lemma shr_located (u : R) (m : Z) (l : location) (e n : Z) :
  (0 <= m)%Z -> (0 <= n)%Z -> located u m l ->
  let '(mrs, e') := shr (shr_record_of_loc m l) e n in
  e' = (e + n)%Z /\ rec_located (u / pow2 n) mrs /\ shr_m mrs = (m / 2 ^ n)%Z.
Proof.
  intros Hm Hn H.
  assert (H0 : rec_located u (shr_record_of_loc m l) /\ shr_m (shr_record_of_loc m l) = m).
  { unfold rec_located. destruct l as [|[ | | ]]; split; try reflexivity; exact H. }
  destruct H0 as [H0 H1].
  destruct n as [|p|p]; [ | | lia ]; cbn [shr].
  - rewrite pow2_0, Z.pow_0_r, Z.div_1_r, Z.add_0_r.
    repeat split; [ | exact H1 ]. replace (u / 1) with u by field. exact H0.
  - rewrite iter_pos_eq.
    destruct (shr_iter_located u (shr_record_of_loc m l) p) as [K1 K2];
      [ rewrite H1; exact Hm | exact H0 | ].
    repeat split; [ exact K1 | rewrite K2, H1; reflexivity ].
Qed.

Lemma round_nearest_even_close (u : R) (m : Z) (l : location) :
  located u m l ->
  let k := round_nearest_even m l in
  (k = m \/ k = (m + 1)%Z) /\ Rabs (IZR k - u) <= 1 / 2 /\
  (l = loc_Exact -> k = m).
Proof.
  intros H k. subst k.
  destruct l as [|[ | | ]]; cbn [located round_nearest_even] in *.
  - repeat split; auto. rewrite H. replace (IZR m - IZR m) with 0 by ring.
    rewrite Rabs_R0. lra.
  - destruct (Z.even m); (split; [ auto | split; [ | discriminate ] ]);
      rewrite ?plus_IZR; apply Rabs_le; lra.
  - split; [ auto | split; [ | discriminate ] ]. apply Rabs_le; lra.
  - split; [ auto | split; [ | discriminate ] ]. rewrite plus_IZR. apply Rabs_le; lra.
Qed.

(** ** Rounding to nearest, ties to even *)

Lemma fexp_eq (z : Z) : fexp prec emax z = Z.max (z - 53) (-1074).
Proof. reflexivity. Qed.

Lemma shr_nonpos (mrs : shr_record) (e n : Z) : (n <= 0)%Z -> shr mrs e n = (mrs, e).
Proof. destruct n; try reflexivity. lia. Qed.

Lemma located_ge (u : R) (m : Z) (l : location) : located u m l -> IZR m <= u.
Proof. destruct l as [|[ | | ]]; cbn [located]; lra. Qed.

Lemma IZR_pow2 (m e : Z) : (0 <= e)%Z -> IZR (m * 2 ^ e) = IZR m * pow2 e.
Proof. intros H. rewrite mult_IZR, pow2_IZR by exact H. reflexivity. Qed.

Lemma pow2_split (a b : Z) : pow2 b = pow2 a * pow2 (b - a).
Proof. rewrite <- pow2_add. f_equal. lia. Qed.

(** The result of rounding: a multiple [k 2^E] of the unit of the binade,
    at most half a unit from the number rounded. *)
Lemma binary_round_aux_spec (s : bool) (m e : Z) (l : location) (u : R) :
  (0 <= m)%Z -> located u m l ->
  let E := fexp prec emax (Zdigits2 m + e) in
  (e <= E)%Z ->
  exists k : Z,
    (0 <= k)%Z /\ Rabs (IZR k * pow2 E - u * pow2 e) <= pow2 E / 2 /\
    ((k = 0%Z /\ binary_round_aux prec emax s m e l = S754_zero s) \/
     (exists m' e', binary_round_aux prec emax s m e l = S754_finite s m' e' /\
                    IZR (Zpos m') * pow2 e' = IZR k * pow2 E) \/
     (binary_round_aux prec emax s m e l = S754_infinity s /\
      pow2 1023 <= u * pow2 e)).
Proof.
  intros Hm Hl E HE.
  assert (Hdig : (m < 2 ^ Zdigits2 m)%Z /\ (0 <= Zdigits2 m)%Z /\
                 ((0 < m)%Z -> (2 ^ (Zdigits2 m - 1) <= m)%Z)).
  { destruct (Z.eq_dec m 0) as [-> | Hnz].
    - cbn. lia.
    - destruct (Zdigits2_bounds m ltac:(lia)) as [[Hdl Hdh] Hd]. lia. }
  destruct Hdig as (Hdh & Hd & Hdl).
  set (d := Zdigits2 m) in *.
  assert (HEd : (d + e - 53 <= E)%Z /\ (-1074 <= E)%Z /\
                (E = d + e - 53 \/ E = -1074)%Z).
  { unfold E. rewrite fexp_eq. lia. }
  destruct HEd as (HE1 & HE2 & HE3).
  unfold binary_round_aux, shr_fexp. fold d. fold E.
  pose proof (shr_located u m l e (E - e) Hm ltac:(lia) Hl) as Hshr.
  destruct (shr (shr_record_of_loc m l) e (E - e)) as [mrs' e'].
  destruct Hshr as (-> & Hloc & Hm').
  replace (e + (E - e))%Z with E by lia.
  pose proof (round_nearest_even_close _ _ _ Hloc) as Hk.
  set (k := round_nearest_even (shr_m mrs') (loc_of_shr_record mrs')) in *.
  cbv zeta in Hk. destruct Hk as (Hk1 & Hk2 & _).
  assert (Hm0 : (0 <= shr_m mrs' < 2 ^ 53)%Z).
  { rewrite Hm'. split.
    - apply Z.div_pos; [ lia | apply Z.pow_pos_nonneg; lia ].
    - apply Z.div_lt_upper_bound; [ apply Z.pow_pos_nonneg; lia | ].
      rewrite <- Z.pow_add_r by lia.
      apply Z.lt_le_trans with (2 ^ d)%Z; [ exact Hdh | ].
      apply Z.pow_le_mono_r; lia. }
  assert (Hk0 : (0 <= k <= 2 ^ 53)%Z) by lia.
  assert (Hval : Rabs (IZR k * pow2 E - u * pow2 e) <= pow2 E / 2).
  { rewrite (pow2_split e E).
    replace (IZR k * (pow2 e * pow2 (E - e)) - u * pow2 e)
      with ((pow2 e * pow2 (E - e)) * (IZR k - u / pow2 (E - e)))
      by (field; pose proof (pow2_pos (E - e)); lra).
    rewrite Rabs_mult.
    pose proof (pow2_pos e). pose proof (pow2_pos (E - e)).
    rewrite (Rabs_pos_eq (pow2 e * pow2 (E - e))) by nra.
    assert (0 < pow2 e * pow2 (E - e)) by nra. nra. }
  assert (Hu : (971 <= E)%Z -> pow2 1023 <= u * pow2 e).
  { intros Hbig.
    assert (Hpos : (0 < m)%Z).
    { destruct (Z.eq_dec m 0) as [Hz | Hz]; [ | lia ].
      exfalso. unfold d in *. rewrite Hz in *. cbn in *. lia. }
    apply Rle_trans with (pow2 (d - 1 + e)); [ apply pow2_le; lia | ].
    rewrite pow2_add. pose proof (pow2_pos e).
    apply Rmult_le_compat_r; [ lra | ].
    apply Rle_trans with (IZR m); [ | apply (located_ge _ _ _ Hl) ].
    rewrite pow2_IZR by lia. apply IZR_le. apply Hdl. exact Hpos. }
  exists k. split; [ lia | ]. split; [ exact Hval | ].
  destruct (Z.eq_dec k 0) as [Hz | Hnz].
  - (* the result is a zero *)
    left. split; [ exact Hz | ].
    rewrite Hz. cbn [Zdigits2]. rewrite shr_nonpos by (rewrite fexp_eq; lia).
    reflexivity.
  - right.
    destruct (Z.eq_dec k (2 ^ 53)) as [Htop | Hlow].
    + (* the rounding carried into the next binade *)
      rewrite Htop.
      change (Zdigits2 (2 ^ 53)) with 54%Z.
      replace (fexp prec emax (54 + E) - E)%Z with 1%Z by (rewrite fexp_eq; lia).
      change (2 ^ 53)%Z with 9007199254740992%Z.
      cbn [shr_record_of_loc shr iter_pos shr_1 shr_m orb].
      destruct (Z.leb (E + 1) (emax - prec)) eqn:Hov.
      * left. eexists _, _. split; [ reflexivity | ].
        rewrite pow2_succ. change 9007199254740992%Z with (2 * 4503599627370496)%Z.
        rewrite (mult_IZR 2). ring.
      * right. split; [ reflexivity | ].
        apply Z.leb_gt in Hov. change (emax - prec)%Z with 971%Z in Hov.
        apply Hu. lia.
    + assert (Hkd : (Zdigits2 k <= 53)%Z).
      { destruct (Zdigits2_bounds k ltac:(lia)) as [[Hl1 Hl2] Hl3].
        destruct (Z.le_gt_cases (Zdigits2 k) 53) as [Hc | Hc]; [ exact Hc | ].
        assert (2 ^ 53 <= 2 ^ (Zdigits2 k - 1))%Z by (apply Z.pow_le_mono_r; lia).
        lia. }
      rewrite shr_nonpos by (rewrite fexp_eq; lia).
      assert (Hks : shr_m (shr_record_of_loc k loc_Exact) = k) by reflexivity.
      rewrite Hks.
      destruct k as [|kp|kp]; try lia.
      destruct (Z.leb E (emax - prec)) eqn:Hov.
      * left. eexists _, _. split; reflexivity.
      * right. split; [ reflexivity | ].
        apply Z.leb_gt in Hov. change (emax - prec)%Z with 971%Z in Hov.
        apply Hu. lia.
Qed.

Lemma Rabs_sign (s : bool) (v : R) : Rabs (sign_of s * v) = Rabs v.
Proof.
  destruct s; unfold sign_of.
  - replace (-1 * v) with (- v) by ring. apply Rabs_Ropp.
  - rewrite Rmult_1_l. reflexivity.
Qed.

(** The same as an error bound. *)
Lemma binary_round_aux_rounded (s : bool) (m e : Z) (l : location) (u : R) :
  (0 <= m)%Z -> located u m l ->
  (e <= fexp prec emax (Zdigits2 m + e))%Z ->
  rounded (sign_of s * (u * pow2 e)) (binary_round_aux prec emax s m e l).
Proof.
  intros Hm Hl HE.
  destruct (binary_round_aux_spec s m e l u Hm Hl HE) as (k & Hk & Hval & Hres).
  set (E := fexp prec emax (Zdigits2 m + e)) in *.
  pose proof (located_ge _ _ _ Hl) as Hum.
  pose proof (pow2_pos e) as Hpe.
  assert (Hx0 : 0 <= u * pow2 e).
  { apply Rmult_le_pos; [ | lra ]. apply Rle_trans with (IZR m); [ apply IZR_le; lia | exact Hum ]. }
  assert (Hhalf : pow2 E / 2 <= (u * pow2 e) * pow2 (-53) + pow2 (-1075)).
  { assert (HE3 : (E = Zdigits2 m + e - 53 \/ E = -1074)%Z)
      by (unfold E; rewrite fexp_eq; lia).
    pose proof (pow2_pos (-53)). pose proof (pow2_pos (-1075)).
    destruct HE3 as [HE3 | HE3].
    - assert (Hpos : (0 < m)%Z).
      { destruct (Z.eq_dec m 0) as [Hz | Hz]; [ | lia ].
        exfalso. rewrite Hz in *. cbn in HE3. lia. }
      destruct (Zdigits2_bounds m Hpos) as [[Hdl Hdh] Hd].
      assert (pow2 (Zdigits2 m - 1 + e) <= u * pow2 e).
      { rewrite pow2_add. apply Rmult_le_compat_r; [ lra | ].
        apply Rle_trans with (IZR m); [ | exact Hum ].
        rewrite pow2_IZR by lia. apply IZR_le. exact Hdl. }
      rewrite <- pow2_pred.
      replace (E - 1)%Z with ((Zdigits2 m - 1 + e) + -53)%Z by lia.
      rewrite pow2_add. nra.
    - rewrite HE3, <- pow2_pred. change (-1074 - 1)%Z with (-1075)%Z.
      assert (0 <= u * pow2 e * pow2 (-53)) by nra. lra. }
  unfold rounded. rewrite Rabs_sign, (Rabs_pos_eq _ Hx0).
  destruct Hres as [[Hz Hr] | [(m' & e' & Hr & Hv) | [Hr Hov]]]; rewrite Hr.
  - left. split; [ reflexivity | ]. cbn [SF2R].
    rewrite Hz in Hval. rewrite Rmult_0_l in Hval.
    replace (0 - sign_of s * (u * pow2 e)) with (- (sign_of s * (u * pow2 e))) by ring.
    rewrite Rabs_Ropp, Rabs_sign.
    replace (0 - u * pow2 e) with (- (u * pow2 e)) in Hval by ring.
    rewrite Rabs_Ropp in Hval. lra.
  - left. split; [ reflexivity | ]. cbn [SF2R]. fold (sign_of s). rewrite Hv.
    replace (sign_of s * (IZR k * pow2 E) - sign_of s * (u * pow2 e))
      with (sign_of s * (IZR k * pow2 E - u * pow2 e)) by ring.
    rewrite Rabs_sign. lra.
  - right. split; [ reflexivity | exact Hov ].
Qed.

(** ** Products and sums *)

Lemma valid_finite (s : bool) (m : positive) (e : Z) :
  valid_binary (S754_finite s m e) = true ->
  (Zpos (digits2_pos m) <= 53 /\ -1074 <= e <= 971 /\
   (Zpos (digits2_pos m) = 53 \/ e = -1074))%Z.
Proof.
  unfold valid_binary. cbn [SpecFloat.valid_binary]. unfold bounded, canonical_mantissa.
  intros H. apply andb_true_iff in H as [Hc Hb].
  apply Z.eqb_eq in Hc. apply Z.leb_le in Hb.
  rewrite fexp_eq in Hc. change (emax - prec)%Z with 971%Z in Hb. lia.
Qed.

Lemma sign_of_xorb (a b : bool) : sign_of (xorb a b) = sign_of a * sign_of b.
Proof. destruct a, b; unfold sign_of; cbn; ring. Qed.

Lemma rounded_exact (x : R) (r : spec_float) :
  sf_finite r = true -> SF2R r = x -> rounded x r.
Proof.
  intros H1 H2. left. split; [ exact H1 | ].
  rewrite H2. replace (x - x) with 0 by ring. rewrite Rabs_R0.
  pose proof (Rabs_pos x). pose proof (pow2_pos (-53)). pose proof (pow2_pos (-1075)).
  nra.
Qed.

Lemma digits_mul (a b : positive) :
  (Zpos (digits2_pos a) + Zpos (digits2_pos b) - 1 <= Zpos (digits2_pos (a * b)))%Z.
Proof.
  pose proof (digits2_bounds a) as [Ha _]. pose proof (digits2_bounds b) as [Hb _].
  pose proof (digits2_bounds (a * b)) as [_ Hab].
  set (da := Zpos (digits2_pos a)) in *. set (db := Zpos (digits2_pos b)) in *.
  set (dab := Zpos (digits2_pos (a * b))) in *.
  destruct (Z.le_gt_cases (da + db - 1) dab) as [H | H]; [ exact H | exfalso ].
  assert (H1 : (2 ^ dab <= 2 ^ (da - 1 + (db - 1)))%Z) by (apply Z.pow_le_mono_r; lia).
  rewrite Z.pow_add_r in H1 by lia.
  rewrite Pos2Z.inj_mul in Hab.
  assert (2 ^ (da - 1) * 2 ^ (db - 1) <= Z.pos a * Z.pos b)%Z by (apply Z.mul_le_mono_nonneg; lia).
  lia.
Qed.

(** The product. *)
Lemma SFmul_rounded (X Y : spec_float) :
  valid_binary X = true -> valid_binary Y = true ->
  sf_finite X = true -> sf_finite Y = true ->
  rounded (SF2R X * SF2R Y) (SF64mul X Y).
Proof.
  intros HX HY FX FY. unfold SF64mul.
  destruct X as [sx|sx| |sx mx ex], Y as [sy|sy| |sy my ey]; try discriminate;
    cbn [SFmul SF2R]; try (apply rounded_exact; [ reflexivity | cbn [SF2R]; ring ]).
  apply valid_finite in HX as (HX1 & HX2 & HX3).
  apply valid_finite in HY as (HY1 & HY2 & HY3).
  pose proof (digits_mul mx my) as Hd.
  fold (sign_of sx) (sign_of sy).
  replace (sign_of sx * (IZR (Z.pos mx) * pow2 ex) * (sign_of sy * (IZR (Z.pos my) * pow2 ey)))
    with (sign_of (xorb sx sy) * (IZR (Z.pos (mx * my)) * pow2 (ex + ey))).
  - apply binary_round_aux_rounded; [ lia | reflexivity | ].
    cbn [Zdigits2]. rewrite fexp_eq. lia.
  - rewrite sign_of_xorb, Pos2Z.inj_mul, mult_IZR, pow2_add. ring.
Qed.

(** Alignment of a mantissa on a smaller exponent. *)
Lemma pos_iter_xO (m k : positive) : Zpos (Pos.iter xO m k) = (Zpos m * 2 ^ Zpos k)%Z.
Proof.
  induction k as [|k IH] using Pos.peano_ind.
  - cbn [Pos.iter]. rewrite Pos2Z.inj_xO. change (2 ^ 1)%Z with 2%Z. lia.
  - rewrite Pos.iter_succ, Pos2Z.inj_xO, IH, Pos2Z.inj_succ, Z.pow_succ_r by lia. lia.
Qed.

Lemma shl_align_spec (m : positive) (e e' : Z) :
  let '(m', e'') := shl_align m e e' in
  e'' = Z.min e e' /\ Zpos m' = (Zpos m * 2 ^ (e - e''))%Z.
Proof.
  unfold shl_align. destruct (e' - e)%Z as [|p|p] eqn:H.
  - split; [ lia | ]. rewrite Z.sub_diag. lia.
  - split; [ lia | ]. rewrite Z.sub_diag. lia.
  - split; [ lia | ]. rewrite pos_iter_xO. f_equal. f_equal. lia.
Qed.

Lemma Zdigits2_shift (m : positive) (k : Z) :
  (0 <= k)%Z -> Zdigits2 (Zpos m * 2 ^ k) = (Zpos (digits2_pos m) + k)%Z.
Proof.
  intros Hk. apply Zdigits2_unique; [ | lia ].
  pose proof (digits2_bounds m) as [Hl Hh].
  replace (Z.pos (digits2_pos m) + k - 1)%Z with ((Z.pos (digits2_pos m) - 1) + k)%Z by lia.
  rewrite !Z.pow_add_r by lia.
  assert (0 < 2 ^ k)%Z by (apply Z.pow_pos_nonneg; lia). nia.
Qed.

(** A mantissa with an exponent, normalised and rounded. *)
Lemma binary_round_rounded (s : bool) (m : positive) (e : Z) :
  rounded (sign_of s * (IZR (Zpos m) * pow2 e)) (binary_round prec emax s m e).
Proof.
  unfold binary_round.
  pose proof (shl_align_spec m e (fexp prec emax (Z.pos (digits2_pos m) + e))) as H.
  destruct (shl_align m e _) as [mz ez]. destruct H as [He Hm].
  replace (IZR (Z.pos m) * pow2 e) with (IZR (Z.pos mz) * pow2 ez).
  - apply binary_round_aux_rounded; [ lia | reflexivity | ].
    rewrite Hm, Zdigits2_shift by lia.
    replace (Z.pos (digits2_pos m) + (e - ez) + ez)%Z with (Z.pos (digits2_pos m) + e)%Z by lia.
    lia.
  - rewrite Hm, IZR_pow2 by lia. rewrite (pow2_split ez e). ring.
Qed.

Lemma binary_normalize_rounded (z e : Z) (sz : bool) :
  rounded (IZR z * pow2 e) (binary_normalize prec emax z e sz).
Proof.
  destruct z as [|p|p]; cbn [binary_normalize].
  - apply rounded_exact; [ reflexivity | cbn [SF2R]; ring ].
  - pose proof (binary_round_rounded false p e) as H. unfold sign_of in H.
    rewrite Rmult_1_l in H. exact H.
  - pose proof (binary_round_rounded true p e) as H. unfold sign_of in H.
    replace (IZR (Z.neg p) * pow2 e) with (-1 * (IZR (Z.pos p) * pow2 e)); [ exact H | ].
    change (Z.neg p) with (- Z.pos p)%Z. rewrite opp_IZR. ring.
Qed.

Lemma cond_Zopp_IZR (s : bool) (z : Z) : IZR (cond_Zopp s z) = sign_of s * IZR z.
Proof. destruct s; unfold sign_of; cbn [cond_Zopp]; rewrite ?opp_IZR; ring. Qed.

Lemma aligned_value (m : positive) (e ez : Z) :
  (ez <= e)%Z ->
  IZR (Zpos (fst (shl_align m e ez))) * pow2 ez = IZR (Zpos m) * pow2 e.
Proof.
  intros H. pose proof (shl_align_spec m e ez) as K.
  destruct (shl_align m e ez) as [m' e']. cbn [fst]. destruct K as [K1 K2].
  rewrite K2, K1, Z.min_r by lia. rewrite IZR_pow2 by lia.
  rewrite (pow2_split ez e). ring.
Qed.

(** The sum. *)
Lemma SFadd_rounded (X Y : spec_float) :
  sf_finite X = true -> sf_finite Y = true ->
  rounded (SF2R X + SF2R Y) (SF64add X Y).
Proof.
  intros FX FY. unfold SF64add.
  destruct X as [sx|sx| |sx mx ex], Y as [sy|sy| |sy my ey]; try discriminate;
    cbn [SFadd]; try (apply rounded_exact; [ reflexivity | cbn [SF2R]; ring ]).
  - destruct sx, sy; apply rounded_exact; try reflexivity; cbn [SF2R]; ring.
  - cbv zeta. cbn [SF2R]. fold (sign_of sx) (sign_of sy).
    set (ez := Z.min ex ey).
    replace (sign_of sx * (IZR (Z.pos mx) * pow2 ex) + sign_of sy * (IZR (Z.pos my) * pow2 ey))
      with (IZR (cond_Zopp sx (Z.pos (fst (shl_align mx ex ez)))
                 + cond_Zopp sy (Z.pos (fst (shl_align my ey ez)))) * pow2 ez).
    + apply binary_normalize_rounded.
    + rewrite plus_IZR, !cond_Zopp_IZR.
      rewrite <- (aligned_value mx ex ez), <- (aligned_value my ey ez) by (unfold ez; lia).
      ring.
Qed.

Lemma SF2R_opp (X : spec_float) : SF2R (SFopp X) = - SF2R X.
Proof. destruct X as [s|s| |s m e]; cbn [SFopp SF2R]; try ring. destruct s; cbn; ring. Qed.

Lemma SF2R_abs (X : spec_float) : SF2R (SFabs X) = Rabs (SF2R X).
Proof.
  destruct X as [s|s| |s m e]; cbn [SFabs SF2R]; rewrite ?Rabs_R0; try reflexivity.
  fold (sign_of s). rewrite Rabs_sign, Rmult_1_l. symmetry. apply Rabs_pos_eq.
  pose proof (pow2_pos e). assert (0 < IZR (Z.pos m)) by (apply IZR_lt; lia). nra.
Qed.

Lemma sf_finite_opp (X : spec_float) : sf_finite (SFopp X) = sf_finite X.
Proof. destruct X; reflexivity. Qed.

Lemma sf_finite_abs (X : spec_float) : sf_finite (SFabs X) = sf_finite X.
Proof. destruct X; reflexivity. Qed.

(** ** Quotients *)

Lemma new_location_located (nb k q : Z) :
  (0 < nb)%Z -> (0 <= k < nb)%Z ->
  located (IZR q + IZR k / IZR nb) q (new_location nb k).
Proof.
  intros Hnb Hk.
  assert (Hn : 0 < IZR nb) by (apply IZR_lt; lia).
  assert (Hk0 : 0 <= IZR k) by (apply IZR_le; lia).
  assert (Hk1 : IZR k < IZR nb) by (apply IZR_lt; lia).
  assert (Hfr : forall c : R, (IZR k / IZR nb < c <-> IZR k < c * IZR nb) /\
                              (c < IZR k / IZR nb <-> c * IZR nb < IZR k)).
  { intros c. split; split; intros H.
    - apply (Rmult_lt_compat_r (IZR nb)) in H; [ | lra ].
      replace (IZR k / IZR nb * IZR nb) with (IZR k) in H by (field; lra). exact H.
    - apply (Rmult_lt_reg_r (IZR nb)); [ lra | ].
      replace (IZR k / IZR nb * IZR nb) with (IZR k) by (field; lra). exact H.
    - apply (Rmult_lt_compat_r (IZR nb)) in H; [ | lra ].
      replace (IZR k / IZR nb * IZR nb) with (IZR k) in H by (field; lra). exact H.
    - apply (Rmult_lt_reg_r (IZR nb)); [ lra | ].
      replace (IZR k / IZR nb * IZR nb) with (IZR k) by (field; lra). exact H. }
  assert (Hhalf_lt : (2 * k < nb)%Z -> IZR k / IZR nb < 1 / 2).
  { intros H. apply Hfr. apply IZR_lt in H. rewrite mult_IZR in H. lra. }
  assert (Hhalf_gt : (nb < 2 * k)%Z -> 1 / 2 < IZR k / IZR nb).
  { intros H. apply Hfr. apply IZR_lt in H. rewrite mult_IZR in H. lra. }
  assert (Hone : IZR k / IZR nb < 1) by (apply Hfr; lra).
  assert (Hpos : (0 < k)%Z -> 0 < IZR k / IZR nb).
  { intros H. apply Hfr. apply IZR_lt in H. lra. }
  unfold new_location. destruct (Z.even nb) eqn:Hev.
  - unfold new_location_even. destruct (Z.eqb_spec k 0) as [-> | Hz].
    + cbn [located]. unfold Rdiv. rewrite Rmult_0_l. ring.
    + destruct (Z.compare_spec (2 * k) nb) as [H | H | H]; cbn [located].
      * apply (f_equal IZR) in H. rewrite mult_IZR in H.
        replace (IZR k / IZR nb) with (1 / 2); [ reflexivity | ].
        rewrite <- H. field. lra.
      * specialize (Hhalf_lt H). specialize (Hpos ltac:(lia)). lra.
      * specialize (Hhalf_gt H). lra.
  - rewrite <- Z.negb_odd in Hev. apply negb_false_iff in Hev.
    apply Z.odd_spec in Hev as [j Hj].
    unfold new_location_odd. destruct (Z.eqb_spec k 0) as [-> | Hz].
    + cbn [located]. unfold Rdiv. rewrite Rmult_0_l. ring.
    + destruct (Z.compare_spec (2 * k + 1) nb) as [H | H | H]; cbn [located].
      * specialize (Hhalf_lt ltac:(lia)). specialize (Hpos ltac:(lia)). lra.
      * specialize (Hhalf_lt ltac:(lia)). specialize (Hpos ltac:(lia)). lra.
      * specialize (Hhalf_gt ltac:(lia)). lra.
Qed.

Lemma Zdigits2_ge (q j : Z) : (0 <= j)%Z -> (2 ^ j <= q)%Z -> (j + 1 <= Zdigits2 q)%Z.
Proof.
  intros Hj H.
  assert (Hq : (0 < q)%Z).
  { assert (0 < 2 ^ j)%Z by (apply Z.pow_pos_nonneg; lia). lia. }
  destruct (Zdigits2_bounds q Hq) as [[_ Hh] Hd].
  destruct (Z.le_gt_cases (j + 1) (Zdigits2 q)) as [Hc | Hc]; [ exact Hc | exfalso ].
  assert (2 ^ Zdigits2 q <= 2 ^ j)%Z by (apply Z.pow_le_mono_r; lia). lia.
Qed.

Lemma SFdiv_core_spec (mx my : positive) (ex ey : Z) :
  (Zpos (digits2_pos mx) <= 53)%Z -> (Zpos (digits2_pos my) <= 53)%Z ->
  let '(q, e', l) := SFdiv_core_binary prec emax (Zpos mx) ex (Zpos my) ey in
  exists u : R,
    (0 <= q)%Z /\ located u q l /\
    (e' <= fexp prec emax (Zdigits2 q + e'))%Z /\
    IZR (Zpos mx) * pow2 ex / (IZR (Zpos my) * pow2 ey) = u * pow2 e'.
Proof.
  intros Hdx Hdy. unfold SFdiv_core_binary. cbn [Zdigits2].
  set (d1 := Zpos (digits2_pos mx)) in *. set (d2 := Zpos (digits2_pos my)) in *.
  set (e' := Z.min (fexp prec emax (d1 + ex - (d2 + ey))) (ex - ey)).
  set (s := (ex - ey - e')%Z).
  assert (Hs : (0 <= s)%Z) by (unfold s, e'; lia).
  set (m' := match s with Z.pos _ => Z.shiftl (Z.pos mx) s | 0%Z => Z.pos mx | Z.neg _ => 0%Z end).
  assert (Hm' : m' = (Zpos mx * 2 ^ s)%Z).
  { unfold m'. destruct s as [|p|p]; [ lia | apply Z.shiftl_mul_pow2; lia | lia ]. }
  pose proof (Z_div_mod m' (Zpos my) ltac:(lia)) as Hdm.
  destruct (Z.div_eucl m' (Z.pos my)) as [q r]. destruct Hdm as [Hdm Hr].
  pose proof (digits2_bounds mx) as [Hxl Hxh]. pose proof (digits2_bounds my) as [Hyl Hyh].
  fold d1 in Hxl, Hxh. fold d2 in Hyl, Hyh.
  assert (H2s : (0 < 2 ^ s)%Z) by (apply Z.pow_pos_nonneg; lia).
  assert (Hq0 : (0 <= q)%Z) by nia.
  exists (IZR q + IZR r / IZR (Zpos my)).
  split; [ exact Hq0 | ]. split; [ apply new_location_located; lia | ]. split.
  - rewrite fexp_eq.
    destruct (Z.le_gt_cases e' (-1074)) as [Hlow | Hhigh]; [ lia | ].
    assert (He' : (e' <= d1 + ex - (d2 + ey) - 53)%Z).
    { unfold e' in *. rewrite fexp_eq in *. lia. }
    assert (Hq : (2 ^ 52 <= q)%Z).
    { assert (Hj : (0 <= d1 - 1 + s - d2 - 52)%Z) by (unfold s; lia).
      assert (Hlow : (2 ^ (52 + d2) <= m')%Z).
      { rewrite Hm'.
        apply Z.le_trans with (2 ^ (d1 - 1) * 2 ^ s)%Z; [ | nia ].
        rewrite <- Z.pow_add_r by lia. apply Z.pow_le_mono_r; lia. }
      rewrite Z.pow_add_r in Hlow by lia.
      assert (0 < 2 ^ 52)%Z by (apply Z.pow_pos_nonneg; lia).
      destruct (Z.le_gt_cases (2 ^ 52) q) as [Hc | Hc]; [ exact Hc | exfalso ].
      assert (q + 1 <= 2 ^ 52)%Z by lia.
      assert (Z.pos my * (q + 1) <= 2 ^ d2 * 2 ^ 52)%Z by (apply Z.mul_le_mono_nonneg; lia).
      lia. }
    pose proof (Zdigits2_ge q 52 ltac:(lia) Hq). lia.
  - assert (Hy : 0 < IZR (Z.pos my)) by (apply IZR_lt; lia).
    pose proof (pow2_pos ex). pose proof (pow2_pos ey). pose proof (pow2_pos e').
    replace (IZR q + IZR r / IZR (Z.pos my)) with (IZR m' / IZR (Z.pos my)).
    2:{ rewrite Hdm, plus_IZR, mult_IZR. field. lra. }
    rewrite Hm', IZR_pow2 by lia.
    replace ex with (ey + (e' + s))%Z at 1 by (unfold s; lia).
    rewrite !pow2_add. field. split; lra.
Qed.

Lemma SF2R_nonzero (X : spec_float) :
  SF2R X <> 0 -> exists s m e, X = S754_finite s m e.
Proof.
  destruct X as [s|s| |s m e]; cbn [SF2R]; intros H; try (exfalso; apply H; reflexivity).
  eauto.
Qed.

(** The quotient by a number that is not zero. *)
Lemma SFdiv_rounded (X Y : spec_float) :
  valid_binary X = true -> valid_binary Y = true ->
  sf_finite X = true -> SF2R Y <> 0 ->
  rounded (SF2R X / SF2R Y) (SF64div X Y).
Proof.
  intros HX HY FX HY0. unfold SF64div.
  destruct (SF2R_nonzero Y HY0) as (sy & my & ey & ->).
  destruct X as [sx|sx| |sx mx ex]; try discriminate; cbn [SFdiv].
  - apply rounded_exact; [ reflexivity | ]. cbn [SF2R]. unfold Rdiv. ring.
  - apply valid_finite in HX as (HX1 & _). apply valid_finite in HY as (HY1 & _).
    pose proof (SFdiv_core_spec mx my ex ey HX1 HY1) as H.
    destruct (SFdiv_core_binary prec emax (Z.pos mx) ex (Z.pos my) ey) as [[q e'] l].
    destruct H as (u & Hq & Hl & He & Hv).
    cbn [SF2R]. fold (sign_of sx) (sign_of sy).
    replace (sign_of sx * (IZR (Z.pos mx) * pow2 ex) / (sign_of sy * (IZR (Z.pos my) * pow2 ey)))
      with (sign_of (xorb sx sy) * (u * pow2 e')).
    + apply binary_round_aux_rounded; assumption.
    + rewrite <- Hv, sign_of_xorb.
      assert (0 < IZR (Z.pos my)) by (apply IZR_lt; lia).
      pose proof (pow2_pos ey).
      destruct sx, sy; unfold sign_of; field; lra.
Qed.

(** ** Square roots *)

Lemma sqrt_located (q r : Z) :
  (0 <= q)%Z -> (0 <= r <= 2 * q)%Z ->
  located (R_sqrt.sqrt (IZR (q * q + r))) q
    (if Z.eqb r 0 then loc_Exact else loc_Inexact (if Z.leb r q then Lt else Gt)).
Proof.
  intros Hq Hr.
  assert (HM : 0 <= IZR (q * q + r)) by (apply IZR_le; nia).
  pose proof (sqrt_sqrt _ HM) as Hu. pose proof (sqrt_pos (IZR (q * q + r))) as Hu0.
  set (u := R_sqrt.sqrt (IZR (q * q + r))) in *.
  rewrite plus_IZR, mult_IZR in Hu.
  assert (Hq' : 0 <= IZR q) by (apply IZR_le; lia).
  assert (Hr0 : 0 <= IZR r) by (apply IZR_le; lia).
  assert (Hr2 : IZR r <= 2 * IZR q).
  { replace (2 * IZR q) with (IZR (2 * q)) by (rewrite mult_IZR; reflexivity).
    apply IZR_le; lia. }
  destruct (Z.eqb_spec r 0) as [Hz | Hz]; cbn [located].
  - rewrite Hz in Hu. nra.
  - assert (Hr1 : 1 <= IZR r) by (apply IZR_le; lia).
    destruct (Z.leb_spec r q) as [Hle | Hgt]; cbn [located].
    + assert (IZR r <= IZR q) by (apply IZR_le; lia). split; nra.
    + assert (IZR q + 1 <= IZR r).
      { replace (IZR q + 1) with (IZR (q + 1)) by (rewrite plus_IZR; reflexivity).
        apply IZR_le; lia. }
      split; nra.
Qed.

Lemma SFsqrt_core_spec (m : positive) (e : Z) :
  let '(q, e', l) := SFsqrt_core_binary prec emax (Zpos m) e in
  exists u : R,
    (0 <= q)%Z /\ located u q l /\
    (e' <= fexp prec emax (Zdigits2 q + e'))%Z /\
    R_sqrt.sqrt (IZR (Zpos m) * pow2 e) = u * pow2 e'.
Proof.
  unfold SFsqrt_core_binary. cbn [Zdigits2].
  set (d := Zpos (digits2_pos m)).
  set (g := Z.div2 (d + e + 1)).
  set (e' := Z.min (fexp prec emax g) (Z.div2 e)).
  set (s := (e - 2 * e')%Z).
  assert (Hg : (2 * g <= d + e + 1)%Z) by (unfold g; rewrite Z.div2_div; apply Z.mul_div_le; lia).
  assert (He2 : (2 * Z.div2 e <= e)%Z) by (rewrite Z.div2_div; apply Z.mul_div_le; lia).
  assert (Hs : (0 <= s)%Z) by (unfold s, e'; lia).
  set (m' := match s with Z.pos _ => Z.shiftl (Z.pos m) s | 0%Z => Z.pos m | Z.neg _ => 0%Z end).
  assert (Hm' : m' = (Zpos m * 2 ^ s)%Z).
  { unfold m'. destruct s as [|p|p]; [ lia | apply Z.shiftl_mul_pow2; lia | lia ]. }
  assert (H2s : (0 < 2 ^ s)%Z) by (apply Z.pow_pos_nonneg; lia).
  pose proof (Z.sqrtrem_spec m' ltac:(nia)) as Hsq.
  destruct (Z.sqrtrem m') as [q r]. destruct Hsq as [Hsq Hr].
  assert (Hq0 : (0 <= q)%Z) by nia.
  exists (R_sqrt.sqrt (IZR m')).
  split; [ exact Hq0 | ]. split; [ rewrite Hsq; apply sqrt_located; lia | ]. split.
  - rewrite fexp_eq.
    destruct (Z.le_gt_cases e' (-1074)) as [Hlow | Hhigh]; [ lia | ].
    assert (He' : (e' <= g - 53)%Z).
    { unfold e' in *. rewrite fexp_eq in *. lia. }
    pose proof (digits2_bounds m) as [Hml _]. fold d in Hml.
    assert (Hbig : (2 ^ 104 <= m')%Z).
    { rewrite Hm'.
      apply Z.le_trans with (2 ^ (d - 1) * 2 ^ s)%Z; [ | nia ].
      rewrite <- Z.pow_add_r by (unfold d; lia). apply Z.pow_le_mono_r; unfold s; lia. }
    assert (Hq : (2 ^ 52 <= q)%Z).
    { destruct (Z.le_gt_cases (2 ^ 52) q) as [Hc | Hc]; [ exact Hc | exfalso ].
      change (2 ^ 104)%Z with (2 ^ 52 * 2 ^ 52)%Z in Hbig.
      assert (0 < 2 ^ 52)%Z by (apply Z.pow_pos_nonneg; lia).
      assert ((q + 1) * (q + 1) <= 2 ^ 52 * 2 ^ 52)%Z by (apply Z.mul_le_mono_nonneg; lia).
      lia. }
    pose proof (Zdigits2_ge q 52 ltac:(lia) Hq). lia.
  - pose proof (pow2_pos e').
    rewrite <- (sqrt_square (pow2 e')) at 1 by lra.
    rewrite <- sqrt_mult by (try apply IZR_le; nra || lia).
    f_equal. rewrite Hm', IZR_pow2 by lia.
    replace e with (s + (e' + e'))%Z at 1 by (unfold s; lia).
    rewrite !pow2_add. ring.
Qed.

(** The square root of a number that is not negative. *)
Lemma SFsqrt_rounded (X : spec_float) :
  sf_finite X = true -> 0 <= SF2R X ->
  rounded (R_sqrt.sqrt (SF2R X)) (SF64sqrt X).
Proof.
  intros FX H0. unfold SF64sqrt.
  destruct X as [sx|sx| |sx mx ex]; try discriminate; cbn [SFsqrt].
  - apply rounded_exact; [ reflexivity | ]. cbn [SF2R]. symmetry. apply sqrt_0.
  - destruct sx.
    + exfalso. cbn [SF2R] in H0. pose proof (pow2_pos ex).
      assert (0 < IZR (Z.pos mx)) by (apply IZR_lt; lia). nra.
    + pose proof (SFsqrt_core_spec mx ex) as H.
      destruct (SFsqrt_core_binary prec emax (Z.pos mx) ex) as [[q e'] l].
      destruct H as (u & Hq & Hl & He & Hv).
      cbn [SF2R]. rewrite Rmult_1_l, Hv.
      pose proof (binary_round_aux_rounded false q e' l u Hq Hl He) as K.
      unfold sign_of in K. rewrite Rmult_1_l in K. exact K.
Qed.

(** ** Comparisons *)

Lemma cmp_rel_opp (c : comparison) (a b : R) :
  cmp_rel c a b -> cmp_rel (CompOpp c) (- a) (- b).
Proof. destruct c; cbn; intros H; lra. Qed.

(** Canonical mantissas: a smaller exponent is a smaller number. *)
Lemma canonical_lt (m1 m2 : positive) (e1 e2 : Z) :
  valid_binary (S754_finite false m1 e1) = true ->
  valid_binary (S754_finite false m2 e2) = true ->
  (e1 < e2)%Z ->
  IZR (Zpos m1) * pow2 e1 < IZR (Zpos m2) * pow2 e2.
Proof.
  intros H1 H2 He.
  apply valid_finite in H1 as (A1 & A2 & A3). apply valid_finite in H2 as (B1 & B2 & B3).
  pose proof (digits2_bounds m1) as [_ Hh]. pose proof (digits2_bounds m2) as [Hl _].
  assert (Hd2 : Zpos (digits2_pos m2) = 53%Z) by lia. rewrite Hd2 in Hl.
  assert (Hm1 : IZR (Zpos m1) < pow2 53).
  { rewrite pow2_IZR by lia. apply IZR_lt.
    apply Z.lt_le_trans with (2 ^ Zpos (digits2_pos m1))%Z; [ exact Hh | ].
    apply Z.pow_le_mono_r; lia. }
  assert (Hm2 : pow2 52 <= IZR (Zpos m2)).
  { rewrite pow2_IZR by lia. apply IZR_le. exact Hl. }
  pose proof (pow2_pos e1). pose proof (pow2_pos e2).
  apply Rlt_le_trans with (pow2 53 * pow2 e1); [ nra | ].
  apply Rle_trans with (pow2 52 * pow2 e2); [ | nra ].
  rewrite <- !pow2_add. apply pow2_le. lia.
Qed.

Lemma pos_compare_rel (m1 m2 : positive) :
  cmp_rel (Pos.compare_cont Eq m1 m2) (IZR (Zpos m1)) (IZR (Zpos m2)).
Proof.
  change (Pos.compare_cont Eq m1 m2) with (Pos.compare m1 m2).
  destruct (Pos.compare_spec m1 m2) as [H | H | H]; cbn.
  - rewrite H. reflexivity.
  - apply IZR_lt. lia.
  - apply IZR_lt. lia.
Qed.

Lemma finite_compare_rel (m1 m2 : positive) (e1 e2 : Z) :
  valid_binary (S754_finite false m1 e1) = true ->
  valid_binary (S754_finite false m2 e2) = true ->
  cmp_rel (match Z.compare e1 e2 with
           | Lt => Lt
           | Gt => Gt
           | Eq => Pos.compare_cont Eq m1 m2
           end)
          (IZR (Zpos m1) * pow2 e1) (IZR (Zpos m2) * pow2 e2).
Proof.
  intros H1 H2. destruct (Z.compare_spec e1 e2) as [H | H | H].
  - rewrite H. pose proof (pos_compare_rel m1 m2) as K. pose proof (pow2_pos e2).
    destruct (Pos.compare_cont Eq m1 m2); cbn in *; [ rewrite K; reflexivity | nra | nra ].
  - cbn. apply canonical_lt; assumption.
  - cbn. apply canonical_lt; assumption.
Qed.

Lemma SFcompare_rel (X Y : spec_float) :
  valid_binary X = true -> valid_binary Y = true ->
  sf_finite X = true -> sf_finite Y = true ->
  exists c, SFcompare X Y = Some c /\ cmp_rel c (SF2R X) (SF2R Y).
Proof.
  intros HX HY FX FY.
  destruct X as [sx|sx| |sx mx ex], Y as [sy|sy| |sy my ey]; try discriminate;
    cbn [SFcompare SF2R].
  - exists Eq. split; reflexivity.
  - pose proof (pow2_pos ey). assert (0 < IZR (Z.pos my)) by (apply IZR_lt; lia).
    destruct sy; eexists; (split; [ reflexivity | cbn; nra ]).
  - pose proof (pow2_pos ex). assert (0 < IZR (Z.pos mx)) by (apply IZR_lt; lia).
    destruct sx; eexists; (split; [ reflexivity | cbn; nra ]).
  - pose proof (pow2_pos ex). assert (0 < IZR (Z.pos mx)) by (apply IZR_lt; lia).
    pose proof (pow2_pos ey). assert (0 < IZR (Z.pos my)) by (apply IZR_lt; lia).
    destruct sx, sy.
    + eexists. split; [ reflexivity | ].
      pose proof (finite_compare_rel mx my ex ey HX HY) as K.
      apply cmp_rel_opp in K.
      replace (-1 * (IZR (Z.pos mx) * pow2 ex)) with (- (IZR (Z.pos mx) * pow2 ex)) by ring.
      replace (-1 * (IZR (Z.pos my) * pow2 ey)) with (- (IZR (Z.pos my) * pow2 ey)) by ring.
      destruct (Z.compare ex ey); exact K.
    + eexists. split; [ reflexivity | cbn; nra ].
    + eexists. split; [ reflexivity | cbn; nra ].
    + eexists. split; [ reflexivity | ].
      rewrite !Rmult_1_l. apply finite_compare_rel; assumption.
Qed.

Lemma SFltb_true (X Y : spec_float) :
  valid_binary X = true -> valid_binary Y = true ->
  sf_finite X = true -> sf_finite Y = true ->
  SFltb X Y = true <-> SF2R X < SF2R Y.
Proof.
  intros HX HY FX FY. destruct (SFcompare_rel X Y HX HY FX FY) as (c & Hc & Hr).
  unfold SFltb. rewrite Hc. destruct c; cbn in Hr; split; intros H; try reflexivity;
    try discriminate; lra.
Qed.

(** ** Binades, halving and the operations on JavaScript numbers *)

Lemma located_lt (u : R) (m : Z) (l : location) : located u m l -> u < IZR m + 1.
Proof. destruct l as [|[ | | ]]; cbn [located]; lra. Qed.

Lemma pow2_lt_inv (a b : Z) : pow2 a < pow2 b -> (a < b)%Z.
Proof.
  intros H. destruct (Z.lt_ge_cases a b) as [Hc | Hc]; [ exact Hc | exfalso ].
  pose proof (pow2_le b a Hc). lra.
Qed.

(** The binade of the number rounded. *)
Lemma round_binade (m e : Z) (l : location) (u : R) :
  (0 <= m)%Z -> located u m l ->
  let E := fexp prec emax (Zdigits2 m + e) in
  (e <= E)%Z ->
  u * pow2 e < pow2 (E + 53) /\ (E = (-1074)%Z \/ pow2 (E + 52) <= u * pow2 e).
Proof.
  intros Hm Hl E HeE.
  pose proof (located_ge _ _ _ Hl) as Hlo. pose proof (located_lt _ _ _ Hl) as Hhi.
  pose proof (pow2_pos e) as He.
  assert (HE : (Zdigits2 m + e - 53 <= E)%Z /\ (E = Zdigits2 m + e - 53 \/ E = -1074)%Z)
    by (unfold E; rewrite fexp_eq; lia).
  destruct HE as [HE1 HE2].
  destruct (Z.eq_dec m 0) as [Hz | Hz].
  - rewrite Hz in *. cbn [Zdigits2] in *. split.
    + assert (Hu1 : u < 1) by (change (IZR 0) with 0 in Hhi; lra).
      apply Rlt_le_trans with (1 * pow2 e);
        [ apply Rmult_lt_compat_r; lra | rewrite Rmult_1_l; apply pow2_le; lia ].
    + left. (* the exponent is below its unit *)
      destruct HE2 as [HE2 | HE2]; [ | exact HE2 ].
      exfalso. lia.
  - destruct (Zdigits2_bounds m ltac:(lia)) as [[Hdl Hdh] Hd].
    split.
    + apply Rlt_le_trans with (pow2 (Zdigits2 m) * pow2 e).
      * apply Rmult_lt_compat_r; [ lra | ].
        apply Rlt_le_trans with (IZR m + 1); [ exact Hhi | ].
        rewrite pow2_IZR by lia.
        replace (IZR m + 1) with (IZR (m + 1)) by (rewrite plus_IZR; reflexivity).
        apply IZR_le. lia.
      * rewrite <- pow2_add. apply pow2_le. lia.
    + destruct HE2 as [HE2 | HE2]; [ right | left; exact HE2 ].
      replace (E + 52)%Z with (Zdigits2 m - 1 + e)%Z by lia.
      rewrite pow2_add. apply Rmult_le_compat_r; [ lra | ].
      apply Rle_trans with (IZR m); [ | exact Hlo ].
      rewrite pow2_IZR by lia. apply IZR_le. exact Hdl.
Qed.

Lemma valid_bound (s : bool) (m : positive) (e : Z) :
  valid_binary (S754_finite s m e) = true ->
  IZR (Zpos m) * pow2 e < pow2 1024.
Proof.
  intros H. apply valid_finite in H as (H1 & H2 & H3).
  pose proof (digits2_bounds m) as [_ Hh]. pose proof (pow2_pos e).
  apply Rlt_le_trans with (pow2 53 * pow2 e).
  - apply Rmult_lt_compat_r; [ lra | ]. rewrite pow2_IZR by lia. apply IZR_lt.
    apply Z.lt_le_trans with (2 ^ Zpos (digits2_pos m))%Z; [ exact Hh | ].
    apply Z.pow_le_mono_r; lia.
  - rewrite <- pow2_add. apply pow2_le. lia.
Qed.

Lemma Rabs_le_both (x b : R) : Rabs x <= b -> - b <= x <= b.
Proof. unfold Rabs. destruct (Rcase_abs x); lra. Qed.

Lemma IZR_close (k m : Z) : Rabs (IZR k - IZR m) <= 1 / 2 -> k = m.
Proof.
  intros H. rewrite <- minus_IZR in H.
  assert (H1 : (-1 < k - m)%Z).
  { apply lt_IZR. apply Rabs_le_both in H. lra. }
  assert (H2 : (k - m < 1)%Z).
  { apply lt_IZR. apply Rabs_le_both in H. lra. }
  lia.
Qed.

Lemma pow2_neg (p : positive) : pow2 (Zneg p) = / IZR (2 ^ Zpos p).
Proof.
  change (Z.neg p) with (- Z.pos p)%Z. rewrite pow2_opp, pow2_IZR by lia. reflexivity.
Qed.

(** Halving is exact, but for a number with the least exponent. *)
Lemma SFdiv_two (X : spec_float) :
  valid_binary X = true -> sf_finite X = true ->
  sf_finite (SF64div X SF_two) = true /\
  (SF2R (SF64div X SF_two) = SF2R X / 2 \/
   (Rabs (SF2R X) < pow2 (-1021) /\
    Rabs (SF2R (SF64div X SF_two) - SF2R X / 2) <= pow2 (-1075))).
Proof.
  intros HX FX. unfold SF64div, SF_two.
  destruct X as [sx|sx| |sx mx ex]; try discriminate; cbn [SFdiv].
  - split; [ reflexivity | left ]. cbn [SF2R]. unfold Rdiv. ring.
  - pose proof (valid_bound _ _ _ HX) as Hb.
    apply valid_finite in HX as (HX1 & HX2 & HX3).
    pose proof (SFdiv_core_spec mx 4503599627370496 ex (-51) HX1 ltac:(cbn; lia)) as H.
    destruct (SFdiv_core_binary prec emax (Z.pos mx) ex 4503599627370496 (-51)) as [[q e'] l].
    destruct H as (u & Hq & Hl & He & Hv).
    assert (Hx : u * pow2 e' = IZR (Z.pos mx) * pow2 (ex - 1)).
    { rewrite <- Hv. rewrite pow2_pred, (pow2_neg 51).
      change (2 ^ 51)%Z with 2251799813685248%Z.
      pose proof (pow2_pos ex). field. }
    destruct (binary_round_aux_spec (xorb sx false) q e' l u Hq Hl He) as (k & Hk & Hval & Hres).
    destruct (round_binade q e' l u Hq Hl He) as [Hhi Hlo].
    set (E := fexp prec emax (Zdigits2 q + e')) in *.
    assert (HEmin : (-1074 <= E)%Z) by (unfold E; rewrite fexp_eq; lia).
    rewrite Hx in Hval, Hhi, Hlo, Hres.
    pose proof (digits2_bounds mx) as [Hml Hmh].
    pose proof (pow2_pos (ex - 1)) as Hp1.
    assert (Hm0 : 0 < IZR (Z.pos mx)) by (apply IZR_lt; lia).
    assert (Hupper : IZR (Z.pos mx) * pow2 (ex - 1) < pow2 (53 + (ex - 1))).
    { rewrite pow2_add. apply Rmult_lt_compat_r; [ lra | ].
      rewrite pow2_IZR by lia. apply IZR_lt.
      apply Z.lt_le_trans with (2 ^ Zpos (digits2_pos mx))%Z; [ exact Hmh | ].
      apply Z.pow_le_mono_r; lia. }
    assert (Hnoinf : ~ pow2 1023 <= IZR (Z.pos mx) * pow2 (ex - 1)).
    { intros Hc. assert (pow2 (53 + (ex - 1)) <= pow2 1023) by (apply pow2_le; lia). lra. }
    assert (Hok : sf_finite (binary_round_aux prec emax (xorb sx false) q e' l) = true /\
                  SF2R (binary_round_aux prec emax (xorb sx false) q e' l)
                  = sign_of sx * (IZR k * pow2 E)).
    { rewrite xorb_false_r in *.
      destruct Hres as [[Hz Hr] | [(m' & e'' & Hr & Hv') | [Hr Hov]]].
      - rewrite Hr, Hz. split; [ reflexivity | cbn [SF2R]; ring ].
      - rewrite Hr. split; [ reflexivity | ]. cbn [SF2R]. fold (sign_of sx). rewrite Hv'. reflexivity.
      - contradiction. }
    destruct Hok as [Hok Hr]. split; [ exact Hok | ].
    rewrite Hr. cbn [SF2R]. fold (sign_of sx).
    destruct (Z.eq_dec ex (-1074)) as [Hsub | Hnorm].
    + right. split.
      * rewrite Rabs_sign, Rabs_pos_eq by (pose proof (pow2_pos ex); nra).
        pose proof (pow2_pos ex).
        apply Rlt_le_trans with (pow2 53 * pow2 ex).
        -- apply Rmult_lt_compat_r; [ lra | ]. rewrite pow2_IZR by lia. apply IZR_lt.
           apply Z.lt_le_trans with (2 ^ Zpos (digits2_pos mx))%Z; [ exact Hmh | ].
           apply Z.pow_le_mono_r; lia.
        -- rewrite <- pow2_add. apply pow2_le. lia.
      * assert (HE : E = (-1074)%Z).
        { destruct Hlo as [Hlo | Hlo]; [ exact Hlo | exfalso ].
          assert (pow2 (E + 52) < pow2 (53 + (ex - 1))) by lra.
          apply pow2_lt_inv in H. lia. }
        rewrite HE in Hval. rewrite <- pow2_pred in Hval. change (-1074 - 1)%Z with (-1075)%Z in Hval.
        replace (sign_of sx * (IZR k * pow2 E) - sign_of sx * (IZR (Z.pos mx) * pow2 ex) / 2)
          with (sign_of sx * (IZR k * pow2 E - IZR (Z.pos mx) * pow2 (ex - 1)))
          by (rewrite pow2_pred; field).
        rewrite Rabs_sign, HE. exact Hval.
    + left.
      assert (Hd : Zpos (digits2_pos mx) = 53%Z) by lia. rewrite Hd in Hml.
      assert (Hlower : pow2 (52 + (ex - 1)) <= IZR (Z.pos mx) * pow2 (ex - 1)).
      { rewrite pow2_add. apply Rmult_le_compat_r; [ lra | ].
        rewrite pow2_IZR by lia. apply IZR_le. exact Hml. }
      assert (HE : E = (ex - 1)%Z).
      { assert (H1 : pow2 (52 + (ex - 1)) < pow2 (E + 53)) by lra.
        apply pow2_lt_inv in H1.
        destruct Hlo as [Hlo | Hlo]; [ lia | ].
        assert (H2 : pow2 (E + 52) < pow2 (53 + (ex - 1))) by lra.
        apply pow2_lt_inv in H2. lia. }
      rewrite HE in *.
      assert (Hkm : k = Z.pos mx).
      { apply IZR_close.
        replace (IZR k * pow2 (ex - 1) - IZR (Z.pos mx) * pow2 (ex - 1))
          with (pow2 (ex - 1) * (IZR k - IZR (Z.pos mx))) in Hval by ring.
        rewrite Rabs_mult, (Rabs_pos_eq (pow2 (ex - 1))) in Hval by lra.
        pose proof (Rabs_pos (IZR k - IZR (Z.pos mx))). nra. }
      rewrite Hkm, pow2_pred. field.
Qed.

(** *** The operations on numbers *)

(** Each operation of the script rounds the exact result on the real
    numbers of its operands. *)
Lemma mul_rounds (a b : float) :
  is_finite a = true -> is_finite b = true -> rounds (B2R a * B2R b) (a * b).
Proof.
  rewrite !is_finite_spec. intros Ha Hb. unfold rounds. rewrite mul_spec.
  apply SFmul_rounded; try assumption; apply Prim2SF_valid.
Qed.

Lemma add_rounds (a b : float) :
  is_finite a = true -> is_finite b = true -> rounds (B2R a + B2R b) (a + b).
Proof.
  rewrite !is_finite_spec. intros Ha Hb. unfold rounds. rewrite add_spec.
  apply SFadd_rounded; assumption.
Qed.

Lemma B2R_opp (a : float) : B2R (- a) = - B2R a.
Proof. unfold B2R. rewrite opp_spec. apply SF2R_opp. Qed.

Lemma B2R_abs (a : float) : B2R (abs a) = Rabs (B2R a).
Proof. unfold B2R. rewrite abs_spec. apply SF2R_abs. Qed.

Lemma is_finite_opp (a : float) : is_finite (- a) = is_finite a.
Proof. rewrite !is_finite_spec, opp_spec. apply sf_finite_opp. Qed.

Lemma is_finite_abs (a : float) : is_finite (abs a) = is_finite a.
Proof. rewrite !is_finite_spec, abs_spec. apply sf_finite_abs. Qed.

Lemma SFsub_add (X Y : spec_float) : SF64sub X Y = SF64add X (SFopp Y).
Proof.
  unfold SF64sub, SF64add.
  destruct X as [sx|sx| |sx mx ex], Y as [sy|sy| |sy my ey]; cbn [SFsub SFadd SFopp];
    try reflexivity; try (destruct sx, sy; reflexivity).
Qed.

Lemma sub_rounds (a b : float) :
  is_finite a = true -> is_finite b = true -> rounds (B2R a - B2R b) (a - b).
Proof.
  rewrite !is_finite_spec. intros Ha Hb. unfold rounds. rewrite sub_spec, SFsub_add.
  replace (B2R a - B2R b) with (SF2R (Prim2SF a) + SF2R (SFopp (Prim2SF b)))
    by (rewrite SF2R_opp; unfold B2R; ring).
  apply SFadd_rounded; [ assumption | rewrite sf_finite_opp; assumption ].
Qed.

Lemma div_rounds (a b : float) :
  is_finite a = true -> B2R b <> 0 -> rounds (B2R a / B2R b) (a / b).
Proof.
  rewrite !is_finite_spec. intros Ha Hb. unfold rounds. rewrite div_spec.
  apply SFdiv_rounded; try assumption; apply Prim2SF_valid.
Qed.

Lemma sqrt_rounds (a : float) :
  is_finite a = true -> 0 <= B2R a -> rounds (R_sqrt.sqrt (B2R a)) (PrimFloat.sqrt a).
Proof.
  rewrite !is_finite_spec. intros Ha Hb. unfold rounds. rewrite sqrt_spec.
  apply SFsqrt_rounded; assumption.
Qed.

(** [<] on two numbers is [<] on their real numbers. *)
Lemma ltb_B2R (a b : float) :
  is_finite a = true -> is_finite b = true ->
  (a <? b)%float = true <-> B2R a < B2R b.
Proof.
  rewrite !is_finite_spec, ltb_spec. intros Ha Hb.
  apply SFltb_true; try assumption; apply Prim2SF_valid.
Qed.

Lemma div_two (t : float) :
  is_finite t = true ->
  is_finite (t / 2) = true /\
  (B2R (t / 2) = B2R t / 2 \/
   (Rabs (B2R t) < pow2 (-1021) /\ Rabs (B2R (t / 2) - B2R t / 2) <= pow2 (-1075))).
Proof.
  rewrite !is_finite_spec. intros Ht. unfold B2R. rewrite div_spec.
  change (Prim2SF 2) with SF_two.
  apply SFdiv_two; [ apply Prim2SF_valid | exact Ht ].
Qed.

Lemma B2R_bound (a : float) : Rabs (B2R a) < pow2 1024.
Proof.
  unfold B2R. pose proof (Prim2SF_valid a) as H.
  destruct (Prim2SF a) as [s|s| |s m e]; cbn [SF2R]; rewrite ?Rabs_R0; try apply pow2_pos.
  fold (sign_of s). rewrite Rabs_sign.
  pose proof (pow2_pos e). assert (0 < IZR (Z.pos m)) by (apply IZR_lt; lia).
  rewrite Rabs_pos_eq by nra. apply (valid_bound s m e H).
Qed.

(** What a result that is a number says of the operands. *)
Lemma mul_finite_inv (a b : float) :
  is_finite (a * b) = true -> is_finite a = true /\ is_finite b = true.
Proof.
  rewrite !is_finite_spec, mul_spec. unfold SF64mul.
  destruct (Prim2SF a) as [sx|sx| |sx mx ex], (Prim2SF b) as [sy|sy| |sy my ey];
    cbn [SFmul sf_finite]; intros H; try discriminate; split; reflexivity.
Qed.

Lemma add_finite_inv (a b : float) :
  is_finite (a + b) = true -> is_finite a = true /\ is_finite b = true.
Proof.
  rewrite !is_finite_spec, add_spec. unfold SF64add.
  destruct (Prim2SF a) as [sx|sx| |sx mx ex], (Prim2SF b) as [sy|sy| |sy my ey];
    cbn [SFadd sf_finite]; intros H; try discriminate; try (split; reflexivity);
    destruct sx, sy; discriminate.
Qed.

Lemma sqrt_finite_inv (a : float) :
  is_finite (PrimFloat.sqrt a) = true -> is_finite a = true /\ 0 <= B2R a.
Proof.
  rewrite !is_finite_spec, sqrt_spec. unfold SF64sqrt, B2R.
  destruct (Prim2SF a) as [sx|sx| |sx mx ex]; cbn [SFsqrt sf_finite SF2R]; intros H;
    try discriminate; try (split; [ reflexivity | lra ]).
  - destruct sx; discriminate.
  - destruct sx; [ discriminate | ]. split; [ reflexivity | ].
    pose proof (pow2_pos ex). assert (0 < IZR (Z.pos mx)) by (apply IZR_lt; lia). nra.
Qed.

(** ** Error bounds of the operations *)

Lemma u64_eq : pow2 (-53) = u64.
Proof. rewrite pow2_neg. reflexivity. Qed.

Lemma eta64_pos : 0 < eta64.
Proof. apply pow2_pos. Qed.

Lemma pow2_tiny (e : Z) : (e <= -40)%Z -> pow2 e <= / 1000000000000.
Proof.
  intros H. apply Rle_trans with (pow2 (-40)); [ apply pow2_le; exact H | ].
  rewrite pow2_neg. change (2 ^ 40)%Z with 1099511627776%Z. lra.
Qed.

Lemma pow2_huge (e : Z) : (40 <= e)%Z -> 1000000000000 <= pow2 e.
Proof.
  intros H. apply Rle_trans with (pow2 40); [ | apply pow2_le; exact H ].
  rewrite pow2_IZR by lia. change (2 ^ 40)%Z with 1099511627776%Z. lra.
Qed.

Lemma rounds_error (x : R) (f : float) :
  rounds x f -> is_finite f = true ->
  Rabs (B2R f - x) <= Rabs x * u64 + eta64.
Proof.
  unfold rounds, rounded. rewrite is_finite_spec, <- u64_eq.
  intros [[_ H] | [H _]] Hf; [ exact H | congruence ].
Qed.

Lemma rounds_finite (x : R) (f : float) :
  rounds x f -> Rabs x < pow2 1023 ->
  is_finite f = true /\ Rabs (B2R f - x) <= Rabs x * u64 + eta64.
Proof.
  unfold rounds, rounded. rewrite is_finite_spec, <- u64_eq.
  intros [[H1 H2] | [_ H]] Hx; [ split; assumption | lra ].
Qed.

Lemma Rabs_triangle3 (a b c : R) : Rabs (a - c) <= Rabs (a - b) + Rabs (b - c).
Proof.
  replace (a - c) with ((a - b) + (b - c)) by ring. apply Rabs_triang.
Qed.

Lemma approx_weaken (f : float) (r e e' : R) : approx f r e -> e <= e' -> approx f r e'.
Proof. intros [H1 H2] H. split; [ exact H1 | lra ]. Qed.

Lemma approx_exact (f : float) (r : R) : is_finite f = true -> B2R f = r -> approx f r 0.
Proof.
  intros H1 H2. split; [ exact H1 | ]. rewrite H2.
  replace (r - r) with 0 by ring. rewrite Rabs_R0. lra.
Qed.

Lemma approx_opp (f : float) (r e : R) : approx f r e -> approx (- f) (- r) e.
Proof.
  intros [H1 H2]. split; [ rewrite is_finite_opp; exact H1 | ].
  rewrite B2R_opp. replace (- B2R f - - r) with (- (B2R f - r)) by ring.
  rewrite Rabs_Ropp. exact H2.
Qed.

Lemma approx_nonneg (f : float) (r e : R) : approx f r e -> 0 <= e.
Proof. intros [_ H]. pose proof (Rabs_pos (B2R f - r)). lra. Qed.

(** The product, the sum and the difference of two approximations: the
    errors of the operands, and the rounding of a result of size at most
    [P].  None overflows below 2^1023. *)
Lemma approx_mul (a b : float) (ra rb ea eb P Q : R) :
  approx a ra ea -> approx b rb eb ->
  Rabs (ra * rb) <= P ->
  Rabs ra * eb + Rabs rb * ea + ea * eb <= Q ->
  P + Q < pow2 1023 ->
  approx (a * b) (ra * rb) (Q + (P + Q) * u64 + eta64).
Proof.
  intros [Fa Ha] [Fb Hb] HP HQ Hbig.
  set (da := B2R a - ra) in *. set (db := B2R b - rb) in *.
  assert (Hx : B2R a * B2R b - ra * rb = ra * db + rb * da + da * db)
    by (unfold da, db; ring).
  assert (Hd : Rabs (B2R a * B2R b - ra * rb) <= Q).
  { rewrite Hx.
    apply Rle_trans with (Rabs (ra * db) + Rabs (rb * da) + Rabs (da * db)).
    - eapply Rle_trans; [ apply Rabs_triang | ].
      apply Rplus_le_compat_r. apply Rabs_triang.
    - rewrite !Rabs_mult.
      pose proof (Rabs_pos ra). pose proof (Rabs_pos rb).
      pose proof (Rabs_pos da). pose proof (Rabs_pos db).
      assert (Rabs ra * Rabs db <= Rabs ra * eb) by (apply Rmult_le_compat_l; lra).
      assert (Rabs rb * Rabs da <= Rabs rb * ea) by (apply Rmult_le_compat_l; lra).
      assert (Rabs da * Rabs db <= ea * eb) by (apply Rmult_le_compat; lra).
      lra. }
  assert (Hxx : Rabs (B2R a * B2R b) <= P + Q).
  { replace (B2R a * B2R b) with ((B2R a * B2R b - ra * rb) + ra * rb) by ring.
    eapply Rle_trans; [ apply Rabs_triang | lra ]. }
  destruct (rounds_finite _ _ (mul_rounds a b Fa Fb)) as [F E]; [ lra | ].
  split; [ exact F | ].
  eapply Rle_trans; [ apply (Rabs_triangle3 _ (B2R a * B2R b)) | ].
  assert (0 < u64) by (unfold u64; lra).
  assert (Rabs (B2R a * B2R b) * u64 <= (P + Q) * u64) by (apply Rmult_le_compat_r; lra).
  lra.
Qed.

Lemma approx_add (a b : float) (ra rb ea eb P : R) :
  approx a ra ea -> approx b rb eb ->
  Rabs (ra + rb) <= P ->
  P + ea + eb < pow2 1023 ->
  approx (a + b) (ra + rb) (ea + eb + (P + ea + eb) * u64 + eta64).
Proof.
  intros [Fa Ha] [Fb Hb] HP Hbig.
  assert (Hd : Rabs (B2R a + B2R b - (ra + rb)) <= ea + eb).
  { replace (B2R a + B2R b - (ra + rb)) with ((B2R a - ra) + (B2R b - rb)) by ring.
    eapply Rle_trans; [ apply Rabs_triang | lra ]. }
  assert (Hxx : Rabs (B2R a + B2R b) <= P + ea + eb).
  { replace (B2R a + B2R b) with ((B2R a + B2R b - (ra + rb)) + (ra + rb)) by ring.
    eapply Rle_trans; [ apply Rabs_triang | lra ]. }
  destruct (rounds_finite _ _ (add_rounds a b Fa Fb)) as [F E]; [ lra | ].
  split; [ exact F | ].
  eapply Rle_trans; [ apply (Rabs_triangle3 _ (B2R a + B2R b)) | ].
  assert (0 < u64) by (unfold u64; lra).
  assert (Rabs (B2R a + B2R b) * u64 <= (P + ea + eb) * u64) by (apply Rmult_le_compat_r; lra).
  lra.
Qed.

Lemma approx_sub (a b : float) (ra rb ea eb P : R) :
  approx a ra ea -> approx b rb eb ->
  Rabs (ra - rb) <= P ->
  P + ea + eb < pow2 1023 ->
  approx (a - b) (ra - rb) (ea + eb + (P + ea + eb) * u64 + eta64).
Proof.
  intros [Fa Ha] [Fb Hb] HP Hbig.
  assert (Hd : Rabs (B2R a - B2R b - (ra - rb)) <= ea + eb).
  { replace (B2R a - B2R b - (ra - rb)) with ((B2R a - ra) + - (B2R b - rb)) by ring.
    eapply Rle_trans; [ apply Rabs_triang | rewrite Rabs_Ropp; lra ]. }
  assert (Hxx : Rabs (B2R a - B2R b) <= P + ea + eb).
  { replace (B2R a - B2R b) with ((B2R a - B2R b - (ra - rb)) + (ra - rb)) by ring.
    eapply Rle_trans; [ apply Rabs_triang | lra ]. }
  destruct (rounds_finite _ _ (sub_rounds a b Fa Fb)) as [F E]; [ lra | ].
  split; [ exact F | ].
  eapply Rle_trans; [ apply (Rabs_triangle3 _ (B2R a - B2R b)) | ].
  assert (0 < u64) by (unfold u64; lra).
  assert (Rabs (B2R a - B2R b) * u64 <= (P + ea + eb) * u64) by (apply Rmult_le_compat_r; lra).
  lra.
Qed.

(** *** Zeros *)

Lemma signed_zero_B2R (f : float) : signed_zero f -> is_finite f = true /\ B2R f = 0.
Proof. intros [s H]. rewrite is_finite_spec. unfold B2R. rewrite H. split; reflexivity. Qed.

Lemma signed_zero_literal : signed_zero 0%float.
Proof. exists false. reflexivity. Qed.

Lemma mul_signed_zero_r (a b : float) : is_finite a = true -> signed_zero b -> signed_zero (a * b).
Proof.
  rewrite is_finite_spec. intros Ha [s Hb]. unfold signed_zero. rewrite mul_spec, Hb.
  unfold SF64mul. destruct (Prim2SF a); try discriminate; cbn; eauto.
Qed.

Lemma mul_signed_zero_l (a b : float) : signed_zero a -> is_finite b = true -> signed_zero (a * b).
Proof.
  rewrite is_finite_spec. intros [s Ha] Hb. unfold signed_zero. rewrite mul_spec, Ha.
  unfold SF64mul. destruct (Prim2SF b); try discriminate; cbn; eauto.
Qed.

Lemma add_signed_zero (a b : float) : signed_zero a -> signed_zero b -> signed_zero (a + b).
Proof.
  intros [s Ha] [t Hb]. unfold signed_zero. rewrite add_spec, Ha, Hb.
  destruct s, t; cbn; eauto.
Qed.

Lemma sub_signed_zero (a b : float) : signed_zero a -> signed_zero b -> signed_zero (a - b).
Proof.
  intros [s Ha] [t Hb]. unfold signed_zero. rewrite sub_spec, Ha, Hb.
  destruct s, t; cbn; eauto.
Qed.

Lemma add_signed_zero_r (a b : float) (r e : R) : approx a r e -> signed_zero b -> approx (a + b) r e.
Proof.
  intros [Fa Ha] [t Hb]. unfold approx, B2R in *. rewrite is_finite_spec in *.
  rewrite add_spec, Hb. unfold SF64add.
  destruct (Prim2SF a) as [s|s| |s m ex]; try discriminate; cbn [SFadd].
  - destruct s, t; split; try reflexivity; exact Ha.
  - split; [ reflexivity | exact Ha ].
Qed.

Lemma add_signed_zero_l (a b : float) (r e : R) : signed_zero a -> approx b r e -> approx (a + b) r e.
Proof.
  intros [t Ha] [Fb Hb]. unfold approx, B2R in *. rewrite is_finite_spec in *.
  rewrite add_spec, Ha. unfold SF64add.
  destruct (Prim2SF b) as [s|s| |s m ex]; try discriminate; cbn [SFadd].
  - destruct s, t; split; try reflexivity; exact Hb.
  - split; [ reflexivity | exact Hb ].
Qed.

Lemma sub_signed_zero_r (a b : float) (r e : R) : approx a r e -> signed_zero b -> approx (a - b) r e.
Proof.
  intros [Fa Ha] [t Hb]. unfold approx, B2R in *. rewrite is_finite_spec in *.
  rewrite sub_spec, Hb. unfold SF64sub.
  destruct (Prim2SF a) as [s|s| |s m ex]; try discriminate; cbn [SFsub].
  - destruct s, t; split; try reflexivity; exact Ha.
  - split; [ reflexivity | exact Ha ].
Qed.

(** ** The coefficients over the real numbers *)

(** Sine and cosine of a small angle, between their Taylor polynomials. *)
Lemma small_angle (t : R) :
  0 <= t <= 1 ->
  t - t * t * t / 6 <= sin t <= t /\ 1 - t * t / 2 <= cos t <= 1.
Proof.
  intros [H0 H1]. split.
  - split.
    + destruct (pre_sin_bound t 0 H0) as [Hlo _]; [ lra | ].
      unfold sin_approx, sin_term in Hlo. simpl in Hlo. lra.
    + destruct (Rle_lt_or_eq_dec 0 t H0) as [Hpos | <-].
      * left. apply sin_lt_x. exact Hpos.
      * rewrite sin_0. lra.
  - split.
    + destruct (pre_cos_bound t 0) as [Hlo _]; [ lra | lra | ].
      unfold cos_approx, cos_term in Hlo. simpl in Hlo. lra.
    + apply COS_bound.
Qed.

(** *** The two coefficients as polynomials

    With [t] half the angle, [S] and [C] its sine and cosine, [s] the sign
    and [S1], [S2] any values for [sinc t] and [sinc (2 t)]: the parts [p],
    [q] of [c_identity] and [u], [w] of [c_axis], as the algorithm computes
    them once the sine and the cosine of the whole angle are written in the
    half angle. *)

Section Coefficients.

Variables t S C s : R.
Hypothesis Hs : s * s = 1.
Hypothesis HSC : S * S + C * C = 1.

Let p := 1 / 2 * (1 + (C * C - S * S)) - 0 * (s * (2 * S * C)).
Let q := 1 / 2 * (s * (2 * S * C)) + 0 * (1 + (C * C - S * S)).
Let u (S1 S2 : R) := s * (1 / 2) * (S * S1) - 0 * (- s * S2).
Let w (S1 S2 : R) := s * (1 / 2) * (- s * S2) + 0 * (S * S1).

(** [p^2 + q^2 + (u^2 + w^2) theta^2 - 1], which is 0 for a unitary matrix. *)
Lemma norm_eq S1 S2 :
  norm_part p q (u S1 S2) (w S1 S2) (2 * t) - 1
  = t * t * (S * S) * (S1 * S1) + (t * S2) * (t * S2) - S * S.
Proof.
  unfold norm_part, p, q, u, w.
  assert (HC : C * C = 1 - S * S) by lra.
  replace (1 / 2 * (1 + (C * C - S * S)) - 0 * (s * (2 * S * C))) with (C * C) by lra.
  replace (1 / 2 * (s * (2 * S * C)) + 0 * (1 + (C * C - S * S))) with (s * (S * C)) by lra.
  replace (s * (1 / 2) * (S * S1) - 0 * (- s * S2)) with (s * (S * S1 / 2)) by lra.
  replace (s * (1 / 2) * (- s * S2) + 0 * (S * S1)) with (- (s * s) * S2 / 2) by lra.
  rewrite Hs.
  replace (s * (S * C) * (s * (S * C))) with ((s * s) * (S * S * (C * C))) by ring.
  replace (s * (S * S1 / 2) * (s * (S * S1 / 2))) with ((s * s) * (S * S * (S1 * S1) / 4)) by field.
  rewrite Hs, HC. field.
Qed.

(** [p u + q w], which is 0 for a unitary matrix. *)
Lemma cross_eq S1 S2 :
  cross_part p q (u S1 S2) (w S1 S2) = s * (S * C * (C * S1 - S2)) / 2.
Proof.
  unfold cross_part, p, q, u, w.
  assert (HC : C * C = 1 - S * S) by lra.
  replace (1 / 2 * (1 + (C * C - S * S)) - 0 * (s * (2 * S * C))) with (C * C) by lra.
  replace (s * (1 / 2) * (- s * S2) + 0 * (S * S1)) with (- (s * s) * S2 / 2) by lra.
  rewrite Hs. field.
Qed.

End Coefficients.

(** *** The half angle below 0.0002

    [sinc t] is the series [1 - t^2/6]; [sinc (2 t)] is the series too
    ([series_norm], [series_cross]) or the quotient ([mixed_norm],
    [mixed_cross]).  Both deviations are of the order of [t^4]. *)

Section Series.

Variables t S C : R.
Hypothesis Ht : 0 <= t <= 3 / 10000.
Hypothesis HS : t - t * t * t / 6 <= S <= t.
Hypothesis HC : 1 - t * t / 2 <= C <= 1.
Hypothesis HSC : S * S + C * C = 1.

Let S1 := 1 - t * t / 6.

Lemma square_small : 0 <= t * t <= 9 / 100000000.
Proof using All. nra. Qed.

Lemma fourth_small : 0 <= (t * t) * (t * t) <= 81 / 10000000000000000.
Proof using All. pose proof square_small. nra. Qed.

Lemma sine_nonneg : 0 <= S.
Proof using All. pose proof square_small. nra. Qed.

Lemma series_range : 0 <= S1 <= 1.
Proof using All. unfold S1. pose proof square_small. lra. Qed.

Lemma series_minus_sine : - (t * t * t / 6) <= t * S1 - S <= 0.
Proof using All. unfold S1. lra. Qed.

(** series for both *)
Lemma series_norm :
  let S2 := 1 - (2 * t) * (2 * t) / 6 in
  - bound <= t * t * (S * S) * (S1 * S1) + (t * S2) * (t * S2) - S * S <= bound.
Proof using All.
  intros S2.
  pose proof square_small as H2. pose proof fourth_small as H4.
  pose proof sine_nonneg as HS0. pose proof series_range as HS1.
  assert (Ha : 0 <= t * t * (S * S) * (S1 * S1) <= (t * t) * (t * t)).
  { assert (0 <= S * S <= t * t) by nra.
    assert (0 <= S1 * S1 <= 1) by nra.
    assert (0 <= (S * S) * (S1 * S1) <= t * t) by nra.
    nra. }
  assert (Hd : - (t * t * t) <= t * S2 - S <= 0).
  { unfold S2. nra. }
  assert (He : 0 <= t * S2 + S <= 2 * t).
  { unfold S2. nra. }
  assert (Hf : - (2 * ((t * t) * (t * t))) <= (t * S2 - S) * (t * S2 + S) <= 0).
  { nra. }
  replace ((t * S2) * (t * S2) - S * S) with ((t * S2 - S) * (t * S2 + S)) by ring.
  unfold bound. lra.
Qed.

Lemma cosine_range : 0 <= C <= 1.
Proof using All. pose proof square_small. lra. Qed.

Lemma series_cross :
  let S2 := 1 - (2 * t) * (2 * t) / 6 in
  - bound <= (2 * t) * (S * C * (C * S1 - S2) / 2) <= bound.
Proof using All.
  intros S2.
  pose proof square_small as H2. pose proof fourth_small as H4.
  pose proof sine_nonneg as HS0. pose proof cosine_range as HC0.
  assert (Hd : 0 <= C * S1 - S2 <= t * t / 2).
  { unfold S1, S2. split; nra. }
  assert (Ha : 0 <= S * C <= t) by nra.
  assert (Hb : 0 <= (S * C) * (C * S1 - S2) <= t * (t * t / 2)) by nra.
  assert (Hc : 0 <= t * ((S * C) * (C * S1 - S2)) <= t * (t * (t * t / 2))) by nra.
  unfold bound. nra.
Qed.

Hypothesis Hpos : 0 < t.

Lemma mixed_norm :
  let S2 := 2 * S * C / (2 * t) in
  - bound <= t * t * (S * S) * (S1 * S1) + (t * S2) * (t * S2) - S * S <= bound.
Proof using All.
  intros S2.
  pose proof square_small as H2. pose proof fourth_small as H4.
  pose proof sine_nonneg as HS0. pose proof series_range as HS1. pose proof series_minus_sine as Hd.
  replace (t * S2) with (S * C) by (unfold S2; field; lra).
  replace (t * t * (S * S) * (S1 * S1) + S * C * (S * C) - S * S)
    with ((S * S) * ((t * S1 - S) * (t * S1 + S))).
  2:{ replace (S * C * (S * C)) with (S * S * (C * C)) by ring.
      replace (C * C) with (1 - S * S) by lra. ring. }
  assert (He : 0 <= t * S1 + S <= 2 * t) by nra.
  assert (Hf : - (t * t) <= (t * S1 - S) * (t * S1 + S) <= 0) by nra.
  assert (Hg : 0 <= S * S <= t * t) by nra.
  assert (Hh : - ((t * t) * (t * t)) <= (S * S) * ((t * S1 - S) * (t * S1 + S)) <= 0) by nra.
  unfold bound. lra.
Qed.

Lemma mixed_cross :
  let S2 := 2 * S * C / (2 * t) in
  - bound <= (2 * t) * (S * C * (C * S1 - S2) / 2) <= bound.
Proof using All.
  intros S2.
  pose proof square_small as H2. pose proof fourth_small as H4.
  pose proof sine_nonneg as HS0. pose proof cosine_range as HC0. pose proof series_minus_sine as Hd.
  replace ((2 * t) * (S * C * (C * S1 - S2) / 2))
    with ((S * (C * C)) * (t * S1 - S)) by (unfold S2; field; lra).
  assert (Ha : 0 <= C * C <= 1) by nra.
  assert (Hb : 0 <= S * (C * C) <= t) by nra.
  assert (Hc : - (t * (t * t * t / 6)) <= (S * (C * C)) * (t * S1 - S) <= 0) by nra.
  unfold bound. nra.
Qed.

End Series.

(** *** Both calls of [sinc] on the quotient

    The algorithm is exact: the deviations are 0. *)

Section Quotient.

Variables t S C : R.
Hypothesis Hpos : 0 < t.
Hypothesis HSC : S * S + C * C = 1.

Lemma quotient_norm :
  let S1 := S / t in
  let S2 := 2 * S * C / (2 * t) in
  t * t * (S * S) * (S1 * S1) + (t * S2) * (t * S2) - S * S = 0.
Proof using All.
  intros S1 S2.
  replace (t * S2) with (S * C) by (unfold S2; field; lra).
  replace (t * t * (S * S) * (S1 * S1)) with ((S * S) * (S * S)) by (unfold S1; field; lra).
  replace (S * C * (S * C)) with (S * S * (C * C)) by ring.
  replace (C * C) with (1 - S * S) by lra. ring.
Qed.

Lemma quotient_cross :
  let S1 := S / t in
  let S2 := 2 * S * C / (2 * t) in
  (2 * t) * (S * C * (C * S1 - S2) / 2) = 0.
Proof using All.
  intros S1 S2. unfold S1, S2. field. lra.
Qed.

End Quotient.

Lemma cos_signed_double (s t : R) :
  s = 1 \/ s = -1 -> cos (s * (2 * t)) = cos t * cos t - sin t * sin t.
Proof.
  intros [-> | ->].
  - rewrite Rmult_1_l. apply cos_2a.
  - replace (-1 * (2 * t)) with (- (2 * t)) by ring.
    rewrite cos_neg. apply cos_2a.
Qed.

Lemma sin_signed_double (s t : R) :
  s = 1 \/ s = -1 -> sin (s * (2 * t)) = s * (2 * sin t * cos t).
Proof.
  intros [-> | ->].
  - rewrite !Rmult_1_l. apply sin_2a.
  - replace (-1 * (2 * t)) with (- (2 * t)) by ring.
    rewrite sin_neg, sin_2a. ring.
Qed.

Lemma signed_bound (s X : R) :
  s = 1 \/ s = -1 -> - bound <= X <= bound -> - bound <= s * X <= bound.
Proof. intros [-> | ->] H; lra. Qed.

(** *** The coefficients [ideal_p], [ideal_q], [ideal_mu] and [ideal_nu]

    How far they are from those of a unitary matrix, and how large. *)

Lemma sin_abs_le (x : R) : 0 <= x -> Rabs (sin x) <= x.
Proof.
  intros H. apply Rabs_le. pose proof (SIN_bound x) as [Hl Hh].
  destruct (Rle_lt_dec x 1) as [H1 | H1].
  - destruct (small_angle x) as [[Ha Hb] _]; [ lra | ].
    split; [ | lra ].
    assert (0 <= x - x * x * x / 6) by nra. lra.
  - split; [ lra | ].
    destruct (Rle_lt_or_eq_dec 0 x H) as [Hp | <-]; [ | lra ].
    left. apply sin_lt_x. exact Hp.
Qed.

Lemma sinc_quotient_le (x : R) : 0 < x -> Rabs (sin x / x) <= 1.
Proof.
  intros H. unfold Rdiv. rewrite Rabs_mult, Rabs_inv, (Rabs_pos_eq x) by lra.
  pose proof (sin_abs_le x ltac:(lra)) as K.
  apply Rmult_le_reg_r with x; [ lra | ].
  replace (Rabs (sin x) * / x * x) with (Rabs (sin x)) by (field; lra). lra.
Qed.

Lemma ideal_deviation (s t S1 S2 : R) :
  s = 1 \/ s = -1 -> 0 <= t ->
  (t <= 3 / 10000 /\ S1 = 1 - t * t / 6) \/ (3 / 20000 < t /\ S1 = sin t / t) ->
  (2 * t <= 3 / 10000 /\ S2 = 1 - (2 * t) * (2 * t) / 6) \/
  (0 < t /\ S2 = sin (2 * t) / (2 * t)) ->
  let p := ideal_p s t in
  let q := ideal_q s t in
  let mu := ideal_mu s t S1 in
  let nu := ideal_nu S2 in
  - bound <= norm_part p q mu nu (2 * t) - 1 <= bound /\
  - bound <= (2 * t) * cross_part p q mu nu <= bound.
Proof.
  intros Hs Ht H1 H2 p q mu nu.
  assert (Hss : s * s = 1) by (destruct Hs as [-> | ->]; ring).
  assert (HSC : sin t * sin t + cos t * cos t = 1).
  { pose proof (sin2_cos2 t) as H. unfold Rsqr in H. exact H. }
  assert (Hn : norm_part p q mu nu (2 * t) - 1
               = t * t * (sin t * sin t) * (S1 * S1) + (t * S2) * (t * S2) - sin t * sin t).
  { rewrite <- (norm_eq t (sin t) (cos t) s Hss HSC S1 S2).
    unfold p, q, mu, nu, ideal_p, ideal_q, ideal_mu, ideal_nu.
    rewrite (cos_signed_double s t Hs), (sin_signed_double s t Hs).
    unfold norm_part. f_equal. nra. }
  assert (Hk : (2 * t) * cross_part p q mu nu
               = s * ((2 * t) * (sin t * cos t * (cos t * S1 - S2) / 2))).
  { replace (s * ((2 * t) * (sin t * cos t * (cos t * S1 - S2) / 2)))
      with ((2 * t) * (s * (sin t * cos t * (cos t * S1 - S2)) / 2)) by field.
    rewrite <- (cross_eq (sin t) (cos t) s Hss HSC S1 S2).
    unfold p, q, mu, nu, ideal_p, ideal_q, ideal_mu, ideal_nu.
    rewrite (cos_signed_double s t Hs), (sin_signed_double s t Hs).
    unfold cross_part. f_equal. nra. }
  rewrite Hn, Hk. clear Hn Hk.
  destruct H1 as [[Hsmall ->] | [Hbig ->]].
  - destruct (small_angle t) as [HS HC]; [ lra | ].
    assert (Ht' : 0 <= t <= 3 / 10000) by lra.
    destruct H2 as [[_ ->] | [Hpos ->]].
    + split.
      * apply (series_norm t (sin t) (cos t) Ht' HS HC HSC).
      * apply signed_bound; [ exact Hs | ].
        apply (series_cross t (sin t) (cos t) Ht' HS HC HSC).
    + rewrite sin_2a. split.
      * apply (mixed_norm t (sin t) (cos t) Ht' HS HC HSC Hpos).
      * apply signed_bound; [ exact Hs | ].
        apply (mixed_cross t (sin t) (cos t) Ht' HS HC HSC Hpos).
  - destruct H2 as [[Hc _] | [Hpos ->]]; [ lra | ].
    rewrite sin_2a.
    pose proof (quotient_norm t (sin t) (cos t) Hpos HSC) as Hn.
    pose proof (quotient_cross t (sin t) (cos t) Hpos HSC) as Hk.
    cbv zeta in Hn, Hk. rewrite Hn, Hk. unfold bound. split; lra.
Qed.

Lemma ideal_sizes (s t S1 S2 : R) :
  s = 1 \/ s = -1 -> 0 <= t ->
  (t <= 3 / 10000 /\ S1 = 1 - t * t / 6) \/ (3 / 20000 < t /\ S1 = sin t / t) ->
  (2 * t <= 3 / 10000 /\ S2 = 1 - (2 * t) * (2 * t) / 6) \/
  (0 < t /\ S2 = sin (2 * t) / (2 * t)) ->
  Rabs (ideal_p s t) <= 1 /\ Rabs (ideal_q s t) <= 1 / 2 /\
  Rabs S1 <= 1 /\ Rabs S2 <= 1 /\
  Rabs (ideal_mu s t S1) <= 1 / 2 /\ Rabs (ideal_nu S2) <= 1 / 2 /\
  (2 * t) * Rabs (ideal_mu s t S1) <= 1 /\ (2 * t) * Rabs (ideal_nu S2) <= 1 / 2.
Proof.
  intros Hs Ht H1 H2.
  pose proof (COS_bound (s * (2 * t))) as [Hc1 Hc2].
  pose proof (SIN_bound (s * (2 * t))) as [Hs1 Hs2].
  pose proof (SIN_bound t) as [Ht1 Ht2].
  assert (HS1 : Rabs S1 <= 1 /\ t * Rabs S1 <= 1 /\ Rabs (sin t) * (t * Rabs S1) <= 1).
  { destruct H1 as [[Hsmall ->] | [Hbig ->]].
    - assert (0 <= 1 - t * t / 6 <= 1) by nra.
      rewrite Rabs_pos_eq by lra.
      assert (Rabs (sin t) <= 1) by (apply Rabs_le; lra).
      pose proof (Rabs_pos (sin t)).
      assert (Hq : 0 <= t * (1 - t * t / 6) <= 1) by nra.
      split; [ lra | ]. split; [ lra | ].
      replace 1 with (1 * 1) at 2 by ring.
      apply Rmult_le_compat; lra.
    - pose proof (sinc_quotient_le t ltac:(lra)) as K.
      split; [ exact K | ].
      assert (Ha : t * Rabs (sin t / t) = Rabs (sin t)).
      { unfold Rdiv. rewrite Rabs_mult, Rabs_inv, (Rabs_pos_eq t) by lra. field. lra. }
      rewrite Ha.
      assert (Rabs (sin t) <= 1) by (apply Rabs_le; lra).
      pose proof (Rabs_pos (sin t)). split; nra. }
  assert (HS2 : Rabs S2 <= 1 /\ (2 * t) * Rabs S2 <= 1).
  { destruct H2 as [[Hsmall ->] | [Hpos ->]].
    - assert (0 <= 1 - 2 * t * (2 * t) / 6 <= 1) by nra.
      rewrite Rabs_pos_eq by lra. split; nra.
    - pose proof (sinc_quotient_le (2 * t) ltac:(lra)) as K.
      split; [ exact K | ].
      assert (Ha : (2 * t) * Rabs (sin (2 * t) / (2 * t)) = Rabs (sin (2 * t))).
      { unfold Rdiv. rewrite Rabs_mult, Rabs_inv, (Rabs_pos_eq (2 * t)) by lra. field. lra. }
      rewrite Ha. pose proof (SIN_bound (2 * t)). apply Rabs_le. lra. }
  destruct HS1 as (A1 & A2 & A3). destruct HS2 as (B1 & B2).
  assert (Hsa : Rabs s = 1) by (destruct Hs as [-> | ->]; unfold Rabs; destruct (Rcase_abs _); lra).
  assert (Hmu : Rabs (ideal_mu s t S1) = Rabs (sin t) * Rabs S1 / 2).
  { unfold ideal_mu, Rdiv. rewrite !Rabs_mult, Hsa, Rabs_inv, (Rabs_pos_eq 2) by lra. field. }
  assert (Hnu : Rabs (ideal_nu S2) = Rabs S2 / 2).
  { unfold ideal_nu. rewrite Rabs_Ropp. unfold Rdiv.
    rewrite Rabs_mult, Rabs_inv, (Rabs_pos_eq 2) by lra. reflexivity. }
  assert (Rabs (sin t) <= 1) by (apply Rabs_le; lra).
  pose proof (Rabs_pos (sin t)). pose proof (Rabs_pos S1). pose proof (Rabs_pos S2).
  repeat split.
  - unfold ideal_p. apply Rabs_le. lra.
  - unfold ideal_q. apply Rabs_le. lra.
  - exact A1.
  - exact B1.
  - rewrite Hmu. nra.
  - rewrite Hnu. lra.
  - rewrite Hmu. nra.
  - rewrite Hnu. lra.
Qed.

(** ** A finite result has finite operands *)

Lemma SFsqrt_nonneg (X : spec_float) : 0 <= SF2R (SF64sqrt X).
Proof.
  unfold SF64sqrt. destruct X as [sx|sx| |sx mx ex]; cbn [SFsqrt SF2R]; try lra.
  - destruct sx; cbn [SF2R]; lra.
  - destruct sx; cbn [SF2R]; [ lra | ].
    pose proof (SFsqrt_core_spec mx ex) as H.
    destruct (SFsqrt_core_binary prec emax (Z.pos mx) ex) as [[q e'] l].
    destruct H as (u & Hq & Hl & He & Hv).
    destruct (binary_round_aux_spec false q e' l u Hq Hl He) as (k & Hk & _ & Hres).
    destruct Hres as [[_ Hr] | [(m' & e'' & Hr & _) | [Hr _]]]; rewrite Hr; cbn [SF2R]; try lra.
    pose proof (pow2_pos e''). assert (0 < IZR (Z.pos m')) by (apply IZR_lt; lia). nra.
Qed.

Lemma sqrt_nonneg (a : float) : 0 <= B2R (PrimFloat.sqrt a).
Proof. unfold B2R. rewrite sqrt_spec. apply SFsqrt_nonneg. Qed.

Lemma u64_small : 0 < u64 <= / 9000000000000000.
Proof. unfold u64. lra. Qed.

Lemma eta64_tiny : eta64 <= pow2 (-1000).
Proof. apply pow2_le. lia. Qed.

(** A product that is a number, against the exact one. *)
Lemma mul_error (a b : float) :
  is_finite (a * b) = true ->
  is_finite a = true /\ is_finite b = true /\
  Rabs (B2R (a * b) - B2R a * B2R b) <= Rabs (B2R a * B2R b) * u64 + eta64.
Proof.
  intros H. destruct (mul_finite_inv a b H) as [Ha Hb].
  repeat split; try assumption. apply rounds_error; [ apply mul_rounds | ]; assumption.
Qed.

Lemma add_error (a b : float) :
  is_finite (a + b) = true ->
  is_finite a = true /\ is_finite b = true /\
  Rabs (B2R (a + b) - (B2R a + B2R b)) <= Rabs (B2R a + B2R b) * u64 + eta64.
Proof.
  intros H. destruct (add_finite_inv a b H) as [Ha Hb].
  repeat split; try assumption. apply rounds_error; [ apply add_rounds | ]; assumption.
Qed.

Lemma sqrt_error (a : float) :
  is_finite (PrimFloat.sqrt a) = true ->
  is_finite a = true /\ 0 <= B2R a /\
  Rabs (B2R (PrimFloat.sqrt a) - R_sqrt.sqrt (B2R a)) <= R_sqrt.sqrt (B2R a) * u64 + eta64.
Proof.
  intros H. destruct (sqrt_finite_inv a H) as [Ha H0].
  repeat split; try assumption.
  pose proof (rounds_error _ _ (sqrt_rounds a Ha H0) H) as K.
  rewrite (Rabs_pos_eq (R_sqrt.sqrt (B2R a))) in K by apply sqrt_pos. exact K.
Qed.

(** The square of a number and of its rounded root. *)
Lemma root_square (A T : R) :
  0 <= A -> A <= pow2 1024 -> 0 <= T ->
  Rabs (T - R_sqrt.sqrt A) <= R_sqrt.sqrt A * u64 + eta64 ->
  Rabs (T * T - A) <= 3 * u64 * A + pow2 (-561).
Proof.
  intros HA Hbig HT H.
  pose proof (sqrt_pos A) as Hr0. pose proof (sqrt_sqrt A HA) as Hrr.
  set (r := R_sqrt.sqrt A) in *.
  assert (Hr : r <= pow2 512).
  { destruct (Rle_lt_dec r (pow2 512)) as [Hc | Hc]; [ exact Hc | exfalso ].
    assert (pow2 512 * pow2 512 = pow2 1024) by (rewrite <- pow2_add; reflexivity).
    pose proof (pow2_pos 512). nra. }
  pose proof u64_small as [Hu0 Hu1].
  pose proof eta64_pos as He0.
  assert (He : eta64 * pow2 514 = pow2 (-561)).
  { unfold eta64. rewrite <- pow2_add. reflexivity. }
  assert (Hp : pow2 514 = 4 * pow2 512).
  { replace 514%Z with (512 + 1 + 1)%Z by lia. rewrite !pow2_succ. ring. }
  apply Rabs_le_both in H.
  assert (Hd : Rabs (T - r) <= r * u64 + eta64) by (apply Rabs_le; lra).
  assert (Hs : 0 <= T + r <= 2 * r + r * u64 + eta64) by lra.
  replace (T * T - A) with ((T - r) * (T + r)) by (rewrite <- Hrr; ring).
  rewrite Rabs_mult, (Rabs_pos_eq (T + r)) by lra.
  pose proof (Rabs_pos (T - r)).
  apply Rle_trans with ((r * u64 + eta64) * (2 * r + r * u64 + eta64)).
  - apply Rmult_le_compat; lra.
  - assert (H1 : r * u64 * (2 * r + r * u64) <= 3 * u64 * A).
    { rewrite <- Hrr. nra. }
    assert (H2 : eta64 * (2 * r + 2 * r * u64 + eta64) <= eta64 * pow2 514).
    { apply Rmult_le_compat_l; [ lra | ].
      pose proof eta64_tiny. pose proof (pow2_tiny (-1000) ltac:(lia)).
      pose proof (pow2_pos 512). pose proof (pow2_huge 512 ltac:(lia)). nra. }
    nra.
Qed.

(** ** The angle and the components *)

Lemma eta64_561 : 100 * eta64 <= pow2 (-561).
Proof.
  unfold eta64.
  apply Rle_trans with (pow2 7 * pow2 (-1075)).
  - pose proof (pow2_pos (-1075)). rewrite (pow2_IZR 7) by lia.
    change (2 ^ 7)%Z with 128%Z. nra.
  - rewrite <- pow2_add. apply pow2_le. lia.
Qed.

Lemma pow2_560 : pow2 (-560) = 2 * pow2 (-561).
Proof. replace (-560)%Z with (-561 + 1)%Z by lia. apply pow2_succ. Qed.

(** The angle that is a number: the components are numbers, and the square
    of the angle is the sum of their squares, but for the rounding. *)
Lemma theta_relation (x y z : float) :
  let theta := PrimFloat.sqrt (x * x + y * y + z * z)%float in
  is_finite theta = true ->
  is_finite x = true /\ is_finite y = true /\ is_finite z = true /\
  0 <= B2R theta /\
  Rabs (B2R theta * B2R theta
        - (B2R x * B2R x + B2R y * B2R y + B2R z * B2R z))
  <= 8 * u64 * (B2R x * B2R x + B2R y * B2R y + B2R z * B2R z) + pow2 (-560).
Proof.
  intros theta Hf. unfold theta in *.
  destruct (sqrt_error _ Hf) as (F2 & A2pos & Hroot).
  destruct (add_error _ _ F2) as (F1 & Fz2 & Ha2).
  destruct (add_error _ _ F1) as (Fx2 & Fy2 & Ha1).
  destruct (mul_error _ _ Fx2) as (Fx & _ & Hx).
  destruct (mul_error _ _ Fy2) as (Fy & _ & Hy).
  destruct (mul_error _ _ Fz2) as (Fz & _ & Hz).
  pose proof (sqrt_nonneg (x * x + y * y + z * z)%float) as HT.
  set (T := B2R (PrimFloat.sqrt (x * x + y * y + z * z)%float)) in *.
  set (A2 := B2R (x * x + y * y + z * z)%float) in *.
  set (A1 := B2R (x * x + y * y)%float) in *.
  set (SX := B2R (x * x)%float) in *. set (SY := B2R (y * y)%float) in *.
  set (SZ := B2R (z * z)%float) in *.
  assert (Hbig : A2 <= pow2 1024).
  { pose proof (B2R_bound (x * x + y * y + z * z)%float) as K. fold A2 in K.
    apply Rabs_def2 in K. lra. }
  pose proof (root_square A2 T A2pos Hbig HT Hroot) as Hsq.
  repeat split; try assumption.
  set (XX := B2R x * B2R x) in *. set (YY := B2R y * B2R y) in *.
  set (ZZ := B2R z * B2R z) in *.
  assert (HXX : 0 <= XX) by (unfold XX; nra).
  assert (HYY : 0 <= YY) by (unfold YY; nra).
  assert (HZZ : 0 <= ZZ) by (unfold ZZ; nra).
  rewrite (Rabs_pos_eq XX) in Hx by exact HXX.
  rewrite (Rabs_pos_eq YY) in Hy by exact HYY.
  rewrite (Rabs_pos_eq ZZ) in Hz by exact HZZ.
  clearbody XX YY ZZ SX SY SZ A1 A2 T.
  pose proof eta64_pos as He0. pose proof eta64_561 as He1. pose proof pow2_560 as Hp.
  pose proof (pow2_pos (-561)) as Hp0.
  clear Hbig Hroot.
  set (eta := eta64) in *. set (p561 := pow2 (-561)) in *. set (p560 := pow2 (-560)) in *.
  clearbody eta p561 p560.
  apply Rabs_le_both in Hx. apply Rabs_le_both in Hy. apply Rabs_le_both in Hz.
  assert (Ha1' : Rabs (SX + SY) <= (XX + YY) * (1 + u64) + 2 * eta).
  { apply Rabs_le. unfold u64 in *. lra. }
  apply Rabs_le_both in Ha1. pose proof (Rabs_pos (SX + SY)) as Hr1.
  assert (Ha2' : Rabs (A1 + SZ) <= (XX + YY + ZZ) * (1 + 3 * u64) + 5 * eta).
  { apply Rabs_le. unfold u64 in *. lra. }
  apply Rabs_le_both in Ha2. apply Rabs_le_both in Hsq. pose proof (Rabs_pos (A1 + SZ)) as Hr2.
  apply Rabs_le. unfold u64 in *. lra.
Qed.

(** The components against the angle. *)
Lemma component_bound (X T N2 : R) :
  0 <= T -> X * X <= N2 ->
  Rabs (T * T - N2) <= 8 * u64 * N2 + pow2 (-560) ->
  Rabs X <= (1 + / 1000000000000) * T + pow2 (-279).
Proof.
  intros HT HX H. apply Rabs_le_both in H.
  assert (Hp : pow2 (-279) * pow2 (-279) = pow2 (-558)) by (rewrite <- pow2_add; reflexivity).
  assert (Hq : pow2 (-558) = 4 * pow2 (-560)).
  { replace (-558)%Z with (-560 + 1 + 1)%Z by lia. rewrite !pow2_succ. ring. }
  pose proof (pow2_pos (-279)) as H0. pose proof (pow2_pos (-560)) as H1.
  assert (HN : N2 <= (1 + / 100000000000000) * (T * T) + 2 * pow2 (-560)).
  { assert (0 <= T * T) by nra. unfold u64 in H. lra. }
  set (B := (1 + / 1000000000000) * T + pow2 (-279)).
  assert (HB : 0 <= B) by (unfold B; lra).
  assert (HBB : N2 <= B * B).
  { unfold B. nra. }
  apply Rabs_le.
  split.
  - destruct (Rle_lt_dec (- B) X) as [Hc | Hc]; [ exact Hc | exfalso ]. nra.
  - destruct (Rle_lt_dec X B) as [Hc | Hc]; [ exact Hc | exfalso ]. nra.
Qed.

(** ** Literals and exact operations *)

(** *** Literals *)

Lemma B2R_0 : B2R 0 = 0.
Proof. reflexivity. Qed.

Lemma B2R_finite (f : float) (s : bool) (m : positive) (e : Z) :
  Prim2SF f = S754_finite s m e -> B2R f = sign_of s * (IZR (Zpos m) * pow2 e).
Proof. intros H. unfold B2R. rewrite H. reflexivity. Qed.

Lemma B2R_1 : B2R 1 = 1.
Proof.
  rewrite (B2R_finite 1 false 4503599627370496 (-52) eq_refl), pow2_neg.
  change (2 ^ 52)%Z with 4503599627370496%Z. unfold sign_of. field.
Qed.

Lemma B2R_half : B2R 0.5 = 1 / 2.
Proof.
  rewrite (B2R_finite 0.5 false 4503599627370496 (-53) eq_refl), pow2_neg.
  change (2 ^ 53)%Z with 9007199254740992%Z. unfold sign_of. field.
Qed.

Lemma B2R_6 : B2R 6 = 6.
Proof.
  rewrite (B2R_finite 6 false 6755399441055744 (-50) eq_refl), pow2_neg.
  change (2 ^ 50)%Z with 1125899906842624%Z. unfold sign_of. field.
Qed.

Lemma B2R_cutoff : B2R 0.0002 = cutoff.
Proof.
  rewrite (B2R_finite 0.0002 false 7378697629483821 (-65) eq_refl), pow2_neg.
  change (2 ^ 65)%Z with 36893488147419103232%Z. unfold sign_of, cutoff. field.
Qed.

Lemma cutoff_range : 2 / 10000 < cutoff < 20001 / 100000000.
Proof. unfold cutoff. lra. Qed.

Lemma eta64_small : eta64 <= / 1000000000000000000000000000000000000.
Proof.
  unfold eta64. apply Rle_trans with (pow2 (-40) * (pow2 (-40) * pow2 (-40))).
  - rewrite <- !pow2_add. apply pow2_le. lia.
  - pose proof (pow2_tiny (-40) ltac:(lia)). pose proof (pow2_pos (-40)). nra.
Qed.

(** *** Exact operations *)

Lemma approx_one_l (a : float) (r e : R) : approx a r e -> approx (1 * a) r e.
Proof. rewrite mul_one_l. auto. Qed.

Lemma approx_m1_l (a : float) (r e : R) : approx a r e -> approx (-1 * a) (- r) e.
Proof.
  intros H. change (-1)%float with (- (1))%float.
  rewrite mul_opp_l, mul_one_l. apply approx_opp. exact H.
Qed.

Lemma signed_zero_finite (a : float) : signed_zero a -> is_finite a = true.
Proof. intros H. apply (signed_zero_B2R a H). Qed.

Lemma approx_finite (a : float) (r e : R) : approx a r e -> is_finite a = true.
Proof. intros [H _]. exact H. Qed.

Lemma sub_signed_zero_l (a b : float) (r e : R) : signed_zero a -> approx b r e -> approx (a - b) (- r) e.
Proof.
  intros [t Ha] [Fb Hb]. unfold approx, B2R in *. rewrite is_finite_spec in *.
  rewrite sub_spec, Ha. unfold SF64sub.
  destruct (Prim2SF b) as [s|s| |s m ex]; try discriminate; cbn [SFsub].
  - destruct s, t; split; try reflexivity; cbn [SF2R] in *;
      replace (0 - - r) with (- (0 - r)) by ring; rewrite Rabs_Ropp; exact Hb.
  - split; [ reflexivity | ]. cbn [SF2R] in *.
    replace ((if negb s then -1 else 1) * (IZR (Z.pos m) * pow2 ex) - - r)
      with (- ((if s then -1 else 1) * (IZR (Z.pos m) * pow2 ex) - r))
      by (destruct s; cbn; ring).
    rewrite Rabs_Ropp. exact Hb.
Qed.

Lemma approx_div_exact (a b : float) (ra rb ea P Q : R) :
  approx a ra ea -> is_finite b = true -> B2R b = rb -> 0 < rb ->
  Rabs (ra / rb) <= P -> ea / rb <= Q -> P + Q < pow2 1023 ->
  approx (a / b) (ra / rb) (Q + (P + Q) * u64 + eta64).
Proof.
  intros [Fa Ha] Fb Hb Hpos HP HQ Hbig.
  assert (Hd : Rabs (B2R a / rb - ra / rb) <= Q).
  { replace (B2R a / rb - ra / rb) with ((B2R a - ra) * / rb) by (field; lra).
    rewrite Rabs_mult, Rabs_inv, (Rabs_pos_eq rb) by lra.
    apply Rle_trans with (ea / rb); [ | exact HQ ].
    unfold Rdiv. apply Rmult_le_compat_r; [ | exact Ha ].
    left. apply Rinv_0_lt_compat. exact Hpos. }
  assert (Hxx : Rabs (B2R a / rb) <= P + Q).
  { replace (B2R a / rb) with ((B2R a / rb - ra / rb) + ra / rb) by ring.
    eapply Rle_trans; [ apply Rabs_triang | lra ]. }
  assert (Hr : rounds (B2R a / rb) (a / b)).
  { rewrite <- Hb. apply div_rounds; [ exact Fa | rewrite Hb; lra ]. }
  destruct (rounds_finite _ _ Hr) as [F E]; [ lra | ].
  split; [ exact F | ].
  eapply Rle_trans; [ apply (Rabs_triangle3 _ (B2R a / rb)) | ].
  assert (0 < u64) by (unfold u64; lra).
  assert (Rabs (B2R a / rb) * u64 <= (P + Q) * u64) by (apply Rmult_le_compat_r; lra).
  lra.
Qed.

(** *** The sine does not stretch *)

Lemma sin_abs_le' (x : R) : Rabs (sin x) <= Rabs x.
Proof.
  destruct (Rle_lt_dec 0 x) as [H | H].
  - rewrite (Rabs_pos_eq x) by exact H. apply sin_abs_le. exact H.
  - rewrite <- (Rabs_Ropp (sin x)), <- sin_neg, <- (Rabs_Ropp x).
    rewrite (Rabs_pos_eq (- x)) by lra. apply sin_abs_le. lra.
Qed.

Lemma sin_lipschitz (a b : R) : Rabs (sin a - sin b) <= Rabs (a - b).
Proof.
  rewrite form4. rewrite !Rabs_mult, (Rabs_pos_eq 2) by lra.
  pose proof (COS_bound ((a + b) / 2)) as [Hc1 Hc2].
  assert (Hc : Rabs (cos ((a + b) / 2)) <= 1) by (apply Rabs_le; lra).
  pose proof (sin_abs_le' ((a - b) / 2)) as Hs.
  assert (Hh : Rabs ((a - b) / 2) = Rabs (a - b) / 2).
  { unfold Rdiv. rewrite Rabs_mult, Rabs_inv, (Rabs_pos_eq 2) by lra. reflexivity. }
  rewrite Hh in Hs.
  pose proof (Rabs_pos (cos ((a + b) / 2))). pose proof (Rabs_pos (sin ((a - b) / 2))).
  pose proof (Rabs_pos (a - b)). nra.
Qed.

(** ** The function sinc *)

Lemma approx_lit (f : float) (r : R) : is_finite f = true -> B2R f = r -> approx f r 0.
Proof. apply approx_exact. Qed.

Lemma sinc_test (tau : float) :
  is_finite tau = true ->
  (PrimFloat.abs tau <? 0.0002)%float = true <-> Rabs (B2R tau) < cutoff.
Proof.
  intros H. rewrite ltb_B2R, B2R_abs, B2R_cutoff; [ reflexivity | | reflexivity ].
  rewrite is_finite_abs. exact H.
Qed.

(** [sinc] on a number [tau] that stands for the real [tr]. *)
Lemma sinc_approx (Math_sin : float -> float) (tau : float) (tr : R) :
  is_finite tau = true -> 0 <= tr ->
  Rabs (B2R tau - tr) <= eta64 ->
  (cutoff <= Rabs (B2R tau) -> B2R tau = tr) ->
  approx (Math_sin tau) (sin (B2R tau)) host_eps ->
  (tr <= 3 / 10000 /\ Rabs (B2R tau) < cutoff /\
   approx (Quop.sinc Math_sin tau) (1 - tr * tr / 6) (4 * u64)) \/
  (cutoff <= tr /\ B2R tau = tr /\
   approx (Quop.sinc Math_sin tau) (sin tr / tr) (2 * host_eps / tr)).
Proof.
  intros Ft Htr Hclose Hexact Hsin.
  pose proof eta64_pos as He0. pose proof eta64_small as He1.
  pose proof cutoff_range as [Hc1 Hc2].
  unfold Quop.sinc.
  destruct (PrimFloat.abs tau <? 0.0002)%float eqn:Htest.
  - left. apply sinc_test in Htest; [ | exact Ft ].
    assert (Htr' : tr <= 3 / 10000).
    { apply Rabs_le_both in Hclose. apply Rabs_def2 in Htest. lra. }
    split; [ exact Htr' | ]. split; [ exact Htest | ].
    assert (Hap : approx tau tr eta64) by (split; assumption).
    assert (Hsq : approx (tau * tau) (tr * tr) (/ 100000000000000000000)).
    { eapply approx_weaken.
      - apply (approx_mul tau tau tr tr eta64 eta64 (/ 1000000) eta64 Hap Hap).
        + rewrite Rabs_pos_eq by nra. nra.
        + rewrite (Rabs_pos_eq tr) by lra. nra.
        + pose proof (pow2_huge 1023 ltac:(lia)). lra.
      - unfold u64. lra. }
    assert (Hq : approx (tau * tau / 6) (tr * tr / 6) (/ 100000000000000000000)).
    { eapply approx_weaken.
      - apply (approx_div_exact (tau * tau) 6 (tr * tr) 6 _ (/ 1000000)
                 (/ 600000000000000000000) Hsq eq_refl B2R_6).
        + lra.
        + rewrite Rabs_pos_eq by nra. nra.
        + lra.
        + pose proof (pow2_huge 1023 ltac:(lia)). lra.
      - unfold u64. lra. }
    eapply approx_weaken.
    + apply (approx_sub 1 (tau * tau / 6) 1 (tr * tr / 6) 0 _ 1 (approx_lit 1 1 eq_refl B2R_1) Hq).
      * rewrite Rabs_pos_eq by nra. nra.
      * pose proof (pow2_huge 1023 ltac:(lia)). lra.
    + unfold u64. lra.
  - right.
    assert (Hbig : cutoff <= Rabs (B2R tau)).
    { destruct (Rle_lt_dec cutoff (Rabs (B2R tau))) as [H | H]; [ exact H | exfalso ].
      apply sinc_test in H; [ | exact Ft ]. congruence. }
    specialize (Hexact Hbig). rewrite Hexact in *.
    rewrite (Rabs_pos_eq tr) in Hbig by exact Htr.
    split; [ exact Hbig | ]. split; [ reflexivity | ].
    assert (Hpos : 0 < tr) by lra.
    assert (Hi : 0 < / tr) by (apply Rinv_0_lt_compat; exact Hpos).
    assert (Hlarge : eta64 * tr <= / 1000000000000000).
    { pose proof (B2R_bound tau) as K. rewrite Hexact, (Rabs_pos_eq tr) in K by lra.
      assert (Hm : eta64 * pow2 1024 = pow2 (-51)) by (unfold eta64; rewrite <- pow2_add; reflexivity).
      assert (pow2 (-51) <= / 1000000000000000).
      { rewrite pow2_neg. change (2 ^ 51)%Z with 2251799813685248%Z. lra. }
      nra. }
    eapply approx_weaken.
    + apply (approx_div_exact (Math_sin tau) tau (sin tr) tr host_eps (/ tr) (host_eps / tr)
               Hsin Ft Hexact Hpos).
      * unfold Rdiv. rewrite Rabs_mult, Rabs_inv, (Rabs_pos_eq tr) by lra.
        pose proof (SIN_bound tr). assert (Rabs (sin tr) <= 1) by (apply Rabs_le; lra).
        pose proof (Rabs_pos (sin tr)). nra.
      * lra.
      * pose proof (pow2_huge 1023 ltac:(lia)).
        assert (/ tr <= 10000).
        { apply Rmult_le_reg_r with tr; [ lra | ].
          replace (/ tr * tr) with 1 by (field; lra). nra. }
        unfold host_eps, Rdiv. nra.
    + (* the error, over [tr] *)
      apply Rmult_le_reg_r with tr; [ lra | ].
      replace (2 * host_eps / tr * tr) with (2 * host_eps) by (field; lra).
      replace ((host_eps / tr + (/ tr + host_eps / tr) * u64 + eta64) * tr)
        with (host_eps + (1 + host_eps) * u64 + eta64 * tr) by (field; lra).
      unfold host_eps, u64 in *. lra.
Qed.

(** ** The sign and the coefficient of the identity *)

Lemma Rabs_half_sign (sR : R) : sR = 1 \/ sR = -1 -> Rabs (sR / 2) = 1 / 2.
Proof. intros [-> | ->]; unfold Rabs; destruct (Rcase_abs _); lra. Qed.

Lemma approx_eq (f : float) (r r' e : R) : approx f r e -> r = r' -> approx f r' e.
Proof. intros H <-. exact H. Qed.

(** The sign [s] as a factor. *)
Lemma sign_facts (x y z theta : float) :
  is_finite theta = true ->
  let s := Quop.fromRotation_s x y z in
  let sR := B2R s in
    (sR = 1 \/ sR = -1) /\
    is_finite (s * theta) = true /\ B2R (s * theta) = sR * B2R theta /\
    approx (s * 0.5) (sR / 2) 0 /\
    (forall (w : float) (r e : R), approx w r e -> approx (- s * w) (- sR * r) e).
Proof.
  intros Hf s sR. unfold sR, s, Quop.fromRotation_s.
  destruct (0 <=? -11 * x + -13 * y + -17 * z)%float.
  - rewrite B2R_1. split; [ left; reflexivity | ].
    rewrite mul_one_l. split; [ exact Hf | ]. split; [ ring | ]. split.
    + apply approx_exact; [ reflexivity | ].
      change (1 * 0.5)%float with 0.5%float. rewrite B2R_half. reflexivity.
    + intros w r e H. apply (approx_eq _ (- r)); [ | ring ].
      change (- (1))%float with (-1)%float. apply approx_m1_l. exact H.
  - change (-1)%float with (- (1))%float. rewrite B2R_opp, B2R_1.
    split; [ right; lra | ].
    rewrite mul_opp_l, mul_one_l.
    split; [ rewrite is_finite_opp; exact Hf | ]. split; [ rewrite B2R_opp; ring | ]. split.
    + apply approx_exact; [ reflexivity | ].
      change (- (1) * 0.5)%float with (PrimFloat.opp 0.5). rewrite B2R_opp, B2R_half. lra.
    + intros w r e H. apply (approx_eq _ r); [ | ring ].
      change (- - (1))%float with 1%float. apply approx_one_l. exact H.
Qed.

(** A number times plus or minus a half. *)
Lemma times_half (a h : float) (r e sR P : R) :
  approx a r e -> approx h (sR / 2) 0 -> sR = 1 \/ sR = -1 ->
  Rabs r <= P -> P + e < pow2 1023 ->
  approx (a * h) (r * (sR / 2)) (e / 2 + (P / 2 + e / 2) * u64 + eta64).
Proof.
  intros Ha Hh Hs HP Hbig.
  pose proof (Rabs_half_sign sR Hs) as Hab.
  pose proof (approx_nonneg _ _ _ Ha) as He. pose proof (Rabs_pos r) as Hr.
  apply (approx_mul a h r (sR / 2) e 0 (P / 2) (e / 2) Ha Hh).
  - rewrite Rabs_mult, Hab. lra.
  - rewrite Hab. lra.
  - lra.
Qed.

Section IdentityCoefficient.

Variables Math_sin Math_cos : float -> float.
Variables x y z : float.

Let theta := Quop.fromRotation_theta x y z.
Let s := Quop.fromRotation_s x y z.

Hypothesis Hfinite : is_finite theta = true.
Hypothesis Hcos : approx (Math_cos (s * theta)) (cos (B2R (s * theta))) host_eps.
Hypothesis Hsin : approx (Math_sin (s * theta)) (sin (B2R (s * theta))) host_eps.

Let T := B2R theta.
Let t := T / 2.

(** The coefficient of the identity. *)
Let sR := B2R s.

Lemma c_identity_approx :
    approx ((1 + Math_cos (s * theta)) * 0.5 - Math_sin (s * theta) * 0)%float
       (ideal_p sR t) (2 * host_eps) /\
    approx ((1 + Math_cos (s * theta)) * 0 + Math_sin (s * theta) * 0.5)%float
       (ideal_q sR t) (2 * host_eps).
Proof using Hfinite Hcos Hsin.
  destruct (sign_facts x y z theta Hfinite) as (HsR & Fs & Bs & _).
  fold s in HsR, Fs, Bs. fold sR in HsR, Bs. rewrite Bs in Hcos, Hsin. fold T in Hcos, Hsin.
  pose proof eta64_pos as He0. pose proof eta64_small as He1.
  pose proof (pow2_huge 1023 ltac:(lia)) as Hhuge.
  pose proof (COS_bound (sR * T)) as [Hc1 Hc2]. pose proof (SIN_bound (sR * T)) as [Hs1 Hs2].
  assert (Hang : sR * (2 * t) = sR * T) by (unfold t; field).
  assert (Hone : approx (1 + Math_cos (s * theta))%float (1 + cos (sR * T)) (2 * host_eps)).
  { eapply approx_weaken.
    - apply (approx_add 1 (Math_cos (s * theta)) 1 (cos (sR * T)) 0 host_eps 2
               (approx_lit 1 1 eq_refl B2R_1) Hcos).
      + apply Rabs_le. lra.
      + unfold host_eps. lra.
    - unfold host_eps, u64. lra. }
  assert (Hhalf : approx 0.5%float (1 / 2) 0) by (apply approx_lit; [ reflexivity | apply B2R_half ]).
  split.
  - apply sub_signed_zero_r.
    + unfold ideal_p. rewrite Hang.
      replace ((1 + cos (sR * T)) / 2) with ((1 + cos (sR * T)) * (1 / 2)) by field.
      eapply approx_weaken.
      * apply (times_half _ _ _ _ 1 2 Hone Hhalf (or_introl eq_refl)).
        -- apply Rabs_le. lra.
        -- unfold host_eps. lra.
      * unfold host_eps, u64. lra.
    + apply mul_signed_zero_r; [ apply (approx_finite _ _ _ Hsin) | apply signed_zero_literal ].
  - apply add_signed_zero_l.
    + apply mul_signed_zero_r; [ apply (approx_finite _ _ _ Hone) | apply signed_zero_literal ].
    + unfold ideal_q. rewrite Hang.
      replace (sin (sR * T) / 2) with (sin (sR * T) * (1 / 2)) by field.
      eapply approx_weaken.
      * apply (times_half _ _ _ _ 1 1 Hsin Hhalf (or_introl eq_refl)).
        -- apply Rabs_le. lra.
        -- unfold host_eps. lra.
      * unfold host_eps, u64. lra.
Qed.

End IdentityCoefficient.

(** ** Half the angle and the two parts of the coefficient of sigma *)

Lemma pow2_1021 : pow2 (-1021) <= / 1000000000000.
Proof. apply pow2_tiny. lia. Qed.

(** Half the angle. *)
Lemma half_angle (theta : float) :
  is_finite theta = true -> 0 <= B2R theta ->
  is_finite (theta / 2) = true /\
  Rabs (B2R (theta / 2) - B2R theta / 2) <= eta64 /\
  (cutoff <= Rabs (B2R (theta / 2)) -> B2R (theta / 2) = B2R theta / 2).
Proof.
  intros Hf H0. destruct (div_two theta Hf) as [F [E | [Hs E]]].
  - split; [ exact F | ]. split.
    + rewrite E. replace (B2R theta / 2 - B2R theta / 2) with 0 by ring.
      rewrite Rabs_R0. left. apply eta64_pos.
    + intros _. exact E.
  - split; [ exact F | ]. split; [ exact E | ].
    intros Hc. exfalso.
    pose proof cutoff_range as [Hc1 _]. pose proof pow2_1021 as Hp.
    pose proof eta64_small as He.
    rewrite Rabs_pos_eq in Hs by exact H0.
    assert (Rabs (B2R (theta / 2)) <= B2R theta / 2 + eta64).
    { apply Rabs_le_both in E. apply Rabs_le. unfold eta64 in *. lra. }
    lra.
Qed.

Lemma Q_bound (a b ea eb A B : R) :
  Rabs a <= A -> Rabs b <= B -> 0 <= ea -> 0 <= eb ->
  Rabs a * eb + Rabs b * ea + ea * eb <= A * eb + B * ea + ea * eb.
Proof.
  intros Ha Hb H1 H2.
  assert (Rabs a * eb <= A * eb) by (apply Rmult_le_compat_r; assumption).
  assert (Rabs b * ea <= B * ea) by (apply Rmult_le_compat_r; assumption).
  lra.
Qed.

(** The two parts of the coefficient of sigma, from the sine of half the
    angle and the two values of [sinc]. *)
Lemma axis_parts (s hs sh s1 s2 : float) (sR St S1 S2 eh e1 e2 PA QA PB : R) :
  sR = 1 \/ sR = -1 ->
  approx hs (sR / 2) 0 ->
  (forall (w : float) (r e : R), approx w r e -> approx (- s * w) (- sR * r) e) ->
  approx sh St eh -> approx s1 S1 e1 -> approx s2 S2 e2 ->
  Rabs (St * S1) <= PA ->
  Rabs St * e1 + Rabs S1 * eh + eh * e1 <= QA ->
  Rabs S2 <= PB ->
  PA + QA <= 100000 -> PB + e2 <= 100000 ->
  let eA := QA + (PA + QA) * u64 + eta64 in
  approx (sh * s1 * hs - - s * s2 * 0)%float (sR / 2 * (St * S1))
     (eA / 2 + (PA / 2 + eA / 2) * u64 + eta64) /\
  approx (sh * s1 * 0 + - s * s2 * hs)%float (- (S2 / 2))
     (e2 / 2 + (PB / 2 + e2 / 2) * u64 + eta64).
Proof.
  intros HsR Hhs Hneg Hsh Hs1 Hs2 HPA HQA HPB HbA HbB eA.
  pose proof (pow2_huge 1023 ltac:(lia)) as Hhuge.
  pose proof eta64_pos as He0. pose proof eta64_small as He1.
  pose proof (Rabs_pos (St * S1)) as Hp1. pose proof (Rabs_pos S2) as Hp2.
  pose proof (approx_nonneg _ _ _ Hsh) as Hn0. pose proof (approx_nonneg _ _ _ Hs1) as Hn1.
  pose proof (approx_nonneg _ _ _ Hs2) as Hn2.
  assert (HQ0 : 0 <= QA).
  { pose proof (Rabs_pos St). pose proof (Rabs_pos S1).
    assert (0 <= Rabs St * e1) by (apply Rmult_le_pos; lra).
    assert (0 <= Rabs S1 * eh) by (apply Rmult_le_pos; lra).
    assert (0 <= eh * e1) by (apply Rmult_le_pos; lra). lra. }
  assert (HA : approx (sh * s1)%float (St * S1) eA).
  { apply (approx_mul sh s1 St S1 eh e1 PA QA Hsh Hs1 HPA HQA). lra. }
  assert (HB : approx (- s * s2)%float (- sR * S2) e2) by (apply Hneg; exact Hs2).
  assert (HeA : 0 <= eA <= 200001).
  { unfold eA, u64. split; nra. }
  split.
  - apply sub_signed_zero_r.
    + apply (approx_eq _ ((St * S1) * (sR / 2))); [ | field ].
      apply (times_half _ _ _ _ _ PA HA Hhs HsR HPA). lra.
    + apply mul_signed_zero_r; [ apply (approx_finite _ _ _ HB) | apply signed_zero_literal ].
  - apply add_signed_zero_l.
    + apply mul_signed_zero_r; [ apply (approx_finite _ _ _ HA) | apply signed_zero_literal ].
    + apply (approx_eq _ ((- sR * S2) * (sR / 2))).
      * apply (times_half _ _ _ _ _ PB HB Hhs HsR).
        -- replace (- sR * S2) with (- (sR * S2)) by ring.
           rewrite Rabs_Ropp, Rabs_mult.
           assert (Rabs sR = 1) by (destruct HsR as [-> | ->]; unfold Rabs; destruct (Rcase_abs _); lra).
           nra.
        -- lra.
      * destruct HsR as [-> | ->]; field.
Qed.

(** ** The coefficient of sigma *)

Lemma sinc_abs (v : R) : 0 < v -> Rabs (sin v / v) <= / v.
Proof.
  intros H. unfold Rdiv. rewrite Rabs_mult, Rabs_inv, (Rabs_pos_eq v) by lra.
  pose proof (SIN_bound v). assert (Rabs (sin v) <= 1) by (apply Rabs_le; lra).
  assert (0 < / v) by (apply Rinv_0_lt_compat; exact H).
  pose proof (Rabs_pos (sin v)). nra.
Qed.

Section Axis.

Variables Math_sin : float -> float.
Variables x y z : float.

Let theta := Quop.fromRotation_theta x y z.
Let s := Quop.fromRotation_s x y z.

Hypothesis Hfinite : is_finite theta = true.
Hypothesis Hhalf : approx (Math_sin (theta / 2)) (sin (B2R (theta / 2))) host_eps.
Hypothesis Hfull : approx (Math_sin theta) (sin (B2R theta)) host_eps.

Let T := B2R theta.
Let t := T / 2.
Let sR := B2R s.

Hypothesis HT0 : 0 <= T.

(** The coefficient of sigma: [D] is the angle, or 1/5000 for an angle
    below the cutoff of [sinc]. *)
Lemma c_axis_approx :
  exists S1 S2 D : R,
    ((t <= 3 / 10000 /\ S1 = 1 - t * t / 6) \/ (3 / 20000 < t /\ S1 = sin t / t)) /\
    ((2 * t <= 3 / 10000 /\ S2 = 1 - (2 * t) * (2 * t) / 6) \/
     (0 < t /\ S2 = sin (2 * t) / (2 * t))) /\
    ((D = T /\ cutoff <= T) \/ (D = / 5000 /\ T < cutoff)) /\
    approx (Math_sin (theta / 2) * Quop.sinc Math_sin (theta / 2) * (s * 0.5)
        - - s * Quop.sinc Math_sin theta * 0)%float
       (ideal_mu sR t S1) (5 * host_eps / D) /\
    approx (Math_sin (theta / 2) * Quop.sinc Math_sin (theta / 2) * 0
        + - s * Quop.sinc Math_sin theta * (s * 0.5))%float
       (ideal_nu S2) (5 * host_eps / D).
Proof using Hfinite Hhalf Hfull HT0.
  destruct (sign_facts x y z theta Hfinite) as (HsR & _ & _ & Hhs & Hneg).
  fold s in HsR, Hhs, Hneg. fold sR in HsR, Hhs, Hneg.
  destruct (half_angle theta Hfinite HT0) as (Fh & Hclose & Hexact).
  fold T in Hclose, Hexact. fold t in Hclose, Hexact.
  pose proof eta64_pos as He0. pose proof eta64_small as He1.
  pose proof cutoff_range as [Hc1 Hc2].
  assert (Ht0 : 0 <= t) by (unfold t; lra).
  assert (HT2 : T = 2 * t) by (unfold t; field).
  (* the sine of half the angle *)
  assert (Hsh : approx (Math_sin (theta / 2)) (sin t) (host_eps + eta64)).
  { destruct Hhalf as [F E]. split; [ exact F | ].
    eapply Rle_trans; [ apply (Rabs_triangle3 _ (sin (B2R (theta / 2)))) | ].
    pose proof (sin_lipschitz (B2R (theta / 2)) t). lra. }
  pose proof (SIN_bound t) as [Hst1 Hst2].
  assert (HSt : Rabs (sin t) <= 1) by (apply Rabs_le; lra).
  (* the two calls of sinc *)
  destruct (sinc_approx Math_sin (theta / 2) t Fh Ht0 Hclose Hexact Hhalf)
    as [(Hs1 & Hb1 & A1) | (Hq1 & Eq1 & A1)];
  destruct (sinc_approx Math_sin theta T Hfinite HT0) as [(Hs2 & Hb2 & A2) | (Hq2 & _ & A2)];
    try (fold T; replace (T - T) with 0 by ring; rewrite Rabs_R0; lra);
    try (intros _; reflexivity); try exact Hfull.
  - (* both on the series *)
    fold T in Hb2. rewrite (Rabs_pos_eq T) in Hb2 by exact HT0.
    exists (1 - t * t / 6), (1 - (2 * t) * (2 * t) / 6), (/ 5000).
    split; [ left; split; [ exact Hs1 | reflexivity ] | ].
    split; [ left; split; [ lra | reflexivity ] | ].
    split; [ right; split; [ reflexivity | exact Hb2 ] | ].
    rewrite HT2 in A2.
    assert (HS1 : 0 <= 1 - t * t / 6 <= 1) by nra.
    assert (HS2 : 0 <= 1 - 2 * t * (2 * t) / 6 <= 1) by nra.
    destruct (axis_parts s (s * 0.5)%float _ _ _ sR (sin t) _ _ _ _ _
                1 (2 * host_eps) 1 HsR Hhs Hneg Hsh A1 A2) as [Hmu Hnu].
    + rewrite Rabs_mult, (Rabs_pos_eq (1 - t * t / 6)) by lra.
      pose proof (Rabs_pos (sin t)). nra.
    + eapply Rle_trans; [ apply (Q_bound _ _ _ _ 1 1) | ]; try assumption.
      * apply Rabs_le. lra.
      * unfold host_eps; lra.
      * unfold u64; lra.
      * unfold host_eps, u64 in *. nra.
    + apply Rabs_le. lra.
    + unfold host_eps. lra.
    + unfold u64. lra.
    + split.
      * eapply approx_weaken; [ exact Hmu | ]. unfold host_eps, u64 in *. lra.
      * eapply approx_weaken; [ exact Hnu | ]. unfold host_eps, u64 in *. lra.
  - (* the half angle on the series, the angle on the quotient *)
    fold T in Hq2.
    assert (HTpos : 0 < T) by lra.
    set (K := / T).
    assert (HK0 : 0 < K) by (apply Rinv_0_lt_compat; exact HTpos).
    assert (HKT : K * T = 1) by (unfold K; field; lra).
    assert (HK1 : 1000 <= K) by nra.
    assert (HK2 : K <= 5000) by nra.
    exists (1 - t * t / 6), (sin (2 * t) / (2 * t)), T.
    split; [ left; split; [ exact Hs1 | reflexivity ] | ].
    split; [ right; split; [ lra | reflexivity ] | ].
    split; [ left; split; [ reflexivity | exact Hq2 ] | ].
    rewrite HT2 in A2 at 1 2.
    assert (A2' : approx (Quop.sinc Math_sin theta) (sin (2 * t) / (2 * t)) (2 * host_eps * K)).
    { eapply approx_weaken; [ exact A2 | ]. unfold K, Rdiv. lra. }
    assert (HS1 : 0 <= 1 - t * t / 6 <= 1) by nra.
    pose proof (sinc_quotient_le (2 * t) ltac:(lra)) as HS2.
    destruct (axis_parts s (s * 0.5)%float _ _ _ sR (sin t) _ _ _ _ _
                1 (2 * host_eps) 1 HsR Hhs Hneg Hsh A1 A2') as [Hmu Hnu].
    + rewrite Rabs_mult, (Rabs_pos_eq (1 - t * t / 6)) by lra.
      pose proof (Rabs_pos (sin t)). nra.
    + eapply Rle_trans; [ apply (Q_bound _ _ _ _ 1 1) | ]; try assumption.
      * apply Rabs_le. lra.
      * unfold host_eps; lra.
      * unfold u64; lra.
      * unfold host_eps, u64 in *. nra.
    + exact HS2.
    + unfold host_eps. lra.
    + unfold host_eps. nra.
    + replace (5 * host_eps / T) with (5 * host_eps * K) by (unfold K; field; lra).
      split.
      * eapply approx_weaken; [ exact Hmu | ]. unfold host_eps, u64 in *. lra.
      * eapply approx_weaken; [ exact Hnu | ]. unfold host_eps, u64 in *. lra.
  - (* the half angle on the quotient, the angle on the series: excluded *)
    exfalso. fold T in Hb2. rewrite (Rabs_pos_eq T) in Hb2 by exact HT0. lra.
  - (* both on the quotient *)
    fold T in Hq2.
    assert (HTpos : 0 < T) by lra.
    assert (Htpos : 0 < t) by lra.
    set (K := / T).
    assert (HK0 : 0 < K) by (apply Rinv_0_lt_compat; exact HTpos).
    assert (HKT : K * T = 1) by (unfold K; field; lra).
    assert (HK2 : K <= 5000) by nra.
    assert (Hit : / t = 2 * K) by (unfold K, t; field; lra).
    assert (HKeta : eta64 <= K / 1000000000000000).
    { pose proof (B2R_bound theta) as B. fold T in B. rewrite (Rabs_pos_eq T) in B by lra.
      assert (Hm : eta64 * pow2 1024 = pow2 (-51)) by (unfold eta64; rewrite <- pow2_add; reflexivity).
      assert (Hp : pow2 (-51) <= / 1000000000000000).
      { rewrite pow2_neg. change (2 ^ 51)%Z with 2251799813685248%Z. lra. }
      assert (eta64 * T <= / 1000000000000000) by nra.
      apply Rmult_le_reg_r with T; [ lra | ].
      replace (K / 1000000000000000 * T) with ((K * T) / 1000000000000000) by field.
      rewrite HKT. lra. }
    exists (sin t / t), (sin (2 * t) / (2 * t)), T.
    split; [ right; split; [ lra | reflexivity ] | ].
    split; [ right; split; [ lra | reflexivity ] | ].
    split; [ left; split; [ reflexivity | exact Hq2 ] | ].
    rewrite HT2 in A2 at 1 2.
    assert (A1' : approx (Quop.sinc Math_sin (theta / 2)) (sin t / t) (4 * host_eps * K)).
    { eapply approx_weaken; [ exact A1 | ]. unfold Rdiv. rewrite Hit. lra. }
    assert (A2' : approx (Quop.sinc Math_sin theta) (sin (2 * t) / (2 * t)) (2 * host_eps * K)).
    { eapply approx_weaken; [ exact A2 | ]. unfold K, Rdiv. lra. }
    pose proof (sinc_abs t Htpos) as HS1. rewrite Hit in HS1.
    pose proof (sinc_abs (2 * t) ltac:(lra)) as HS2.
    replace (/ (2 * t)) with K in HS2 by (unfold K; rewrite HT2; reflexivity).
    destruct (axis_parts s (s * 0.5)%float _ _ _ sR (sin t) _ _ _ _ _
                (2 * K) (7 * host_eps * K) K HsR Hhs Hneg Hsh A1' A2') as [Hmu Hnu].
    + rewrite Rabs_mult. pose proof (Rabs_pos (sin t)). pose proof (Rabs_pos (sin t / t)). nra.
    + eapply Rle_trans; [ apply (Q_bound _ _ _ _ 1 (2 * K)) | ]; try assumption.
      * unfold host_eps; lra.
      * unfold host_eps; nra.
      * unfold host_eps, u64 in *. nra.
    + exact HS2.
    + unfold host_eps. nra.
    + unfold host_eps. nra.
    + replace (5 * host_eps / T) with (5 * host_eps * K) by (unfold K; field; lra).
      split.
      * eapply approx_weaken; [ exact Hmu | ]. unfold host_eps, u64 in *. lra.
      * eapply approx_weaken; [ exact Hnu | ]. unfold host_eps, u64 in *. lra.
Qed.

End Axis.

(** ** The entries of the matrix and of the product *)

Lemma pow2_1023_large : 1000000000000 <= pow2 1023.
Proof. apply pow2_huge. lia. Qed.

Lemma Rabs_sub_le (a b A B : R) : Rabs a <= A -> Rabs b <= B -> Rabs (a - b) <= A + B.
Proof.
  intros Ha Hb. apply Rabs_le_both in Ha. apply Rabs_le_both in Hb. apply Rabs_le. lra.
Qed.

Lemma Rabs_add_le (a b A B : R) : Rabs a <= A -> Rabs b <= B -> Rabs (a + b) <= A + B.
Proof.
  intros Ha Hb. apply Rabs_le_both in Ha. apply Rabs_le_both in Hb. apply Rabs_le. lra.
Qed.

Lemma Rabs_mul_le (a b A B : R) : Rabs a <= A -> Rabs b <= B -> Rabs (a * b) <= A * B.
Proof.
  intros Ha Hb. rewrite Rabs_mult.
  apply Rmult_le_compat; try apply Rabs_pos; assumption.
Qed.

(** A component of sigma, which is exact, times a part of its coefficient. *)
Lemma scaled_part (sr vr : float) (Sr mu ev B : R) :
  approx sr Sr 0 -> approx vr mu ev -> Rabs Sr <= B ->
  B * Rabs mu <= 101 / 100 -> B * ev <= 501 / 100 * host_eps ->
  approx (sr * vr) (Sr * mu) (502 / 100 * host_eps) /\ Rabs (Sr * mu) <= 101 / 100.
Proof.
  intros Hs Hv HB Hmu Hev.
  pose proof (approx_nonneg _ _ _ Hv) as Hev0.
  pose proof (Rabs_pos Sr) as HS0. pose proof (Rabs_pos mu) as Hm0.
  assert (HP : Rabs (Sr * mu) <= 101 / 100).
  { rewrite Rabs_mult.
    apply Rle_trans with (B * Rabs mu); [ apply Rmult_le_compat_r; assumption | exact Hmu ]. }
  split; [ | exact HP ].
  pose proof u64_small as Hu. pose proof eta64_small as He. pose proof eta64_pos as He0.
  pose proof pow2_1023_large as Hbig.
  eapply approx_weaken.
  - apply (approx_mul sr vr Sr mu 0 ev (101 / 100) (501 / 100 * host_eps) Hs Hv HP).
    + assert (Rabs Sr * ev <= B * ev) by (apply Rmult_le_compat_r; assumption). lra.
    + unfold host_eps. lra.
  - unfold host_eps in *. lra.
Qed.

(** One entry of the result: a part of the scaled identity minus a part of
    the scaled sigma. *)
Lemma entry_approx (ir ii sr si vr vi : float) (Ir Ii Sr Si mu nu ev B : R) :
  approx ir Ir (2 * host_eps) -> approx ii Ii (2 * host_eps) ->
  approx sr Sr 0 -> approx si Si 0 -> approx vr mu ev -> approx vi nu ev ->
  Rabs Ir <= 1 -> Rabs Ii <= 1 -> Rabs Sr <= B -> Rabs Si <= B ->
  B * Rabs mu <= 101 / 100 -> B * Rabs nu <= 101 / 100 ->
  B * ev <= 501 / 100 * host_eps ->
  (approx (ir - (sr * vr - si * vi)) (Ir - (Sr * mu - Si * nu)) (13 * host_eps) /\
   Rabs (Ir - (Sr * mu - Si * nu)) <= 4) /\
  (approx (ii - (sr * vi + si * vr)) (Ii - (Sr * nu + Si * mu)) (13 * host_eps) /\
   Rabs (Ii - (Sr * nu + Si * mu)) <= 4).
Proof.
  intros Hir Hii Hsr Hsi Hvr Hvi HIr HIi HSr HSi Hmu Hnu Hev.
  destruct (scaled_part sr vr Sr mu ev B Hsr Hvr HSr Hmu Hev) as [A1 B1].
  destruct (scaled_part si vi Si nu ev B Hsi Hvi HSi Hnu Hev) as [A2 B2].
  destruct (scaled_part sr vi Sr nu ev B Hsr Hvi HSr Hnu Hev) as [A3 B3].
  destruct (scaled_part si vr Si mu ev B Hsi Hvr HSi Hmu Hev) as [A4 B4].
  pose proof u64_small as Hu. pose proof eta64_small as He. pose proof eta64_pos as He0.
  pose proof pow2_1023_large as Hbig.
  pose proof (Rabs_sub_le _ _ _ _ B1 B2) as C1.
  pose proof (Rabs_add_le _ _ _ _ B3 B4) as C2.
  pose proof (Rabs_sub_le _ _ _ _ HIr C1) as D1.
  pose proof (Rabs_sub_le _ _ _ _ HIi C2) as D2.
  assert (E1 := approx_sub _ _ _ _ _ _ _ A1 A2 C1).
  assert (E2 := approx_add _ _ _ _ _ _ _ A3 A4 C2).
  unfold host_eps in *.
  specialize (E1 ltac:(lra)). specialize (E2 ltac:(lra)).
  apply approx_weaken with (e' := 1005 / 100 * / 1000000000000) in E1; [ | lra ].
  apply approx_weaken with (e' := 1005 / 100 * / 1000000000000) in E2; [ | lra ].
  split; split; try lra.
  - eapply approx_weaken; [ apply (approx_sub _ _ _ _ _ _ _ Hir E1 D1) | ]; lra.
  - eapply approx_weaken; [ apply (approx_sub _ _ _ _ _ _ _ Hii E2 D2) | ]; lra.
Qed.

Lemma part_opp (f : float) (r : R) : part f r -> part (- f)%float (- r).
Proof. intros [H1 H2]. split; [ apply approx_opp; exact H1 | rewrite Rabs_Ropp; exact H2 ]. Qed.

Lemma part_product (f g : float) (r w : R) :
  part f r -> part g w ->
  approx (f * g) (r * w) (105 * host_eps) /\ Rabs (r * w) <= 16.
Proof.
  intros [Hf Hr] [Hg Hw].
  pose proof u64_small as Hu. pose proof eta64_small as He. pose proof eta64_pos as He0.
  pose proof pow2_1023_large as Hbig.
  pose proof (Rabs_mul_le _ _ _ _ Hr Hw) as HP.
  split; [ | lra ].
  eapply approx_weaken.
  - apply (approx_mul f g r w _ _ 16 (1045 / 10 * host_eps) Hf Hg); [ lra | | unfold host_eps; lra ].
    eapply Rle_trans; [ apply (Q_bound _ _ _ _ 4 4) | ]; try assumption;
      unfold host_eps; lra.
  - unfold host_eps in *. lra.
Qed.

(** The two shapes of a part of the product with the adjoint. *)
Lemma dot_sub (a1 b1 a2 b2 a3 b3 a4 b4 : float) (A1 B1 A2 B2 A3 B3 A4 B4 : R) :
  part a1 A1 -> part b1 B1 -> part a2 A2 -> part b2 B2 ->
  part a3 A3 -> part b3 B3 -> part a4 A4 -> part b4 B4 ->
  approx (a1 * b1 - a2 * b2 + (a3 * b3 - a4 * b4))
     (A1 * B1 - A2 * B2 + (A3 * B3 - A4 * B4)) (421 * host_eps).
Proof.
  intros H1 K1 H2 K2 H3 K3 H4 K4.
  destruct (part_product _ _ _ _ H1 K1) as [P1 Q1].
  destruct (part_product _ _ _ _ H2 K2) as [P2 Q2].
  destruct (part_product _ _ _ _ H3 K3) as [P3 Q3].
  destruct (part_product _ _ _ _ H4 K4) as [P4 Q4].
  pose proof u64_small as Hu. pose proof eta64_small as He. pose proof eta64_pos as He0.
  pose proof pow2_1023_large as Hbig.
  pose proof (Rabs_sub_le _ _ _ _ Q1 Q2) as C1.
  pose proof (Rabs_sub_le _ _ _ _ Q3 Q4) as C2.
  pose proof (Rabs_add_le _ _ _ _ C1 C2) as C3.
  assert (E1 := approx_sub _ _ _ _ _ _ _ P1 P2 C1).
  assert (E2 := approx_sub _ _ _ _ _ _ _ P3 P4 C2).
  unfold host_eps in *.
  specialize (E1 ltac:(lra)). specialize (E2 ltac:(lra)).
  apply approx_weaken with (e' := 2101 / 10 * / 1000000000000) in E1; [ | lra ].
  apply approx_weaken with (e' := 2101 / 10 * / 1000000000000) in E2; [ | lra ].
  eapply approx_weaken; [ apply (approx_add _ _ _ _ _ _ _ E1 E2 C3) | ]; lra.
Qed.

Lemma dot_add (a1 b1 a2 b2 a3 b3 a4 b4 : float) (A1 B1 A2 B2 A3 B3 A4 B4 : R) :
  part a1 A1 -> part b1 B1 -> part a2 A2 -> part b2 B2 ->
  part a3 A3 -> part b3 B3 -> part a4 A4 -> part b4 B4 ->
  approx (a1 * b1 + a2 * b2 + (a3 * b3 + a4 * b4))
     (A1 * B1 + A2 * B2 + (A3 * B3 + A4 * B4)) (421 * host_eps).
Proof.
  intros H1 K1 H2 K2 H3 K3 H4 K4.
  destruct (part_product _ _ _ _ H1 K1) as [P1 Q1].
  destruct (part_product _ _ _ _ H2 K2) as [P2 Q2].
  destruct (part_product _ _ _ _ H3 K3) as [P3 Q3].
  destruct (part_product _ _ _ _ H4 K4) as [P4 Q4].
  pose proof u64_small as Hu. pose proof eta64_small as He. pose proof eta64_pos as He0.
  pose proof pow2_1023_large as Hbig.
  pose proof (Rabs_add_le _ _ _ _ Q1 Q2) as C1.
  pose proof (Rabs_add_le _ _ _ _ Q3 Q4) as C2.
  pose proof (Rabs_add_le _ _ _ _ C1 C2) as C3.
  assert (E1 := approx_add _ _ _ _ _ _ _ P1 P2 C1).
  assert (E2 := approx_add _ _ _ _ _ _ _ P3 P4 C2).
  unfold host_eps in *.
  specialize (E1 ltac:(lra)). specialize (E2 ltac:(lra)).
  apply approx_weaken with (e' := 2101 / 10 * / 1000000000000) in E1; [ | lra ].
  apply approx_weaken with (e' := 2101 / 10 * / 1000000000000) in E2; [ | lra ].
  eapply approx_weaken; [ apply (approx_add _ _ _ _ _ _ _ E1 E2 C3) | ]; lra.
Qed.

(** ** The comparison with the identity *)

Lemma B2R_tol64 : B2R tol64 = 4835703278458517 / 4835703278458516698824704.
Proof.
  rewrite (B2R_finite tol64 false 4835703278458517 (-82) eq_refl), pow2_neg.
  change (2 ^ 82)%Z with 4835703278458516698824704%Z. unfold sign_of. field.
Qed.

(** One comparison of the check. *)
Lemma near_approx (f g : float) (V G : R) :
  approx f V (421 * host_eps) -> approx g G 0 -> Rabs (V - G) <= / 1000000000000 ->
  (abs (f - g) <? tol64)%float = true.
Proof.
  intros Hf Hg Hd.
  pose proof u64_small as Hu. pose proof eta64_small as He. pose proof eta64_pos as He0.
  pose proof pow2_1023_large as Hbig.
  assert (E := approx_sub _ _ _ _ _ _ _ Hf Hg Hd).
  unfold host_eps in *. specialize (E ltac:(lra)).
  destruct E as [F E].
  apply ltb_B2R.
  - rewrite is_finite_abs. exact F.
  - reflexivity.
  - rewrite B2R_abs, B2R_tol64.
    apply Rabs_le_both in E. apply Rabs_le_both in Hd.
    apply Rabs_def1; lra.
Qed.

Section Deviation.

Variables p q mu nu X Y Z T : R.

Let N2 := X * X + Y * Y + Z * Z.
Let k := cross_part p q mu nu.
Let m2 := mu * mu + nu * nu.

Hypothesis HT : 0 <= T.
Hypothesis Hn : Rabs (norm_part p q mu nu T - 1) <= bound.
Hypothesis Hc : Rabs (T * k) <= bound.
Hypothesis Hp : Rabs p <= 1.
Hypothesis Hq : Rabs q <= 1 / 2.
Hypothesis Hmu : Rabs mu <= 1 / 2.
Hypothesis Hnu : Rabs nu <= 1 / 2.
Hypothesis HTmu : T * Rabs mu <= 1.
Hypothesis HTnu : T * Rabs nu <= 1 / 2.
Hypothesis Hrel : Rabs (T * T - N2) <= 8 * u64 * N2 + pow2 (-560).

Lemma tiny_279 : pow2 (-279) <= / 1000000000000000000000000.
Proof.
  apply Rle_trans with (pow2 (-40) * pow2 (-40)).
  - rewrite <- pow2_add. apply pow2_le. lia.
  - pose proof (pow2_tiny (-40) ltac:(lia)). pose proof (pow2_pos (-40)). nra.
Qed.

Lemma tiny_560 : pow2 (-560) <= / 1000000000000000000000000.
Proof.
  apply Rle_trans with (pow2 (-279)); [ apply pow2_le; lia | apply tiny_279 ].
Qed.

Lemma cross_size : Rabs k <= 3 / 4.
Proof using Hp Hq Hmu Hnu.
  unfold k, cross_part.
  apply Rabs_le_both in Hp. apply Rabs_le_both in Hq.
  apply Rabs_le_both in Hmu. apply Rabs_le_both in Hnu.
  apply Rabs_le. split; nra.
Qed.

(** A component times the cross term. *)
Lemma component_cross (W : R) :
  W * W <= N2 -> Rabs (W * k) <= 1001 / 1000 * bound.
Proof using HT Hc Hp Hq Hmu Hnu Hrel.
  intros HW.
  pose proof (component_bound W T N2 HT HW Hrel) as HB.
  pose proof cross_size as Hk. pose proof tiny_279 as H279.
  pose proof (pow2_pos (-279)) as H279'.
  rewrite Rabs_mult in Hc |- *. rewrite (Rabs_pos_eq T) in Hc by exact HT.
  pose proof (Rabs_pos k) as Hk0. pose proof (Rabs_pos W) as HW0.
  apply Rle_trans with (((1 + / 1000000000000) * T + pow2 (-279)) * Rabs k).
  - apply Rmult_le_compat_r; assumption.
  - assert (pow2 (-279) * Rabs k <= pow2 (-279) * (3 / 4))
      by (apply Rmult_le_compat_l; lra).
    unfold bound in *. nra.
Qed.

Lemma norm_defect : Rabs (m2 * (N2 - T * T)) <= / 100000000000000.
Proof using HT Hmu Hnu HTmu HTnu Hrel.
  pose proof u64_small as Hu. pose proof tiny_560 as Hh. pose proof (pow2_pos (-560)) as Hh0.
  assert (HN0 : 0 <= N2) by (unfold N2; nra).
  assert (Hm0 : 0 <= m2) by (unfold m2; nra).
  assert (Hm1 : m2 <= 1 / 2).
  { unfold m2. apply Rabs_le_both in Hmu. apply Rabs_le_both in Hnu. nra. }
  assert (Hx : m2 * (T * T) <= 5 / 4).
  { assert (A1 : (T * Rabs mu) * (T * Rabs mu) <= 1).
    { pose proof (Rabs_pos mu). assert (0 <= T * Rabs mu) by nra. nra. }
    assert (A2 : (T * Rabs nu) * (T * Rabs nu) <= 1 / 4).
    { pose proof (Rabs_pos nu). assert (0 <= T * Rabs nu) by nra. nra. }
    assert (B1 : Rabs mu * Rabs mu = mu * mu) by (rewrite <- Rabs_mult; apply Rabs_pos_eq; nra).
    assert (B2 : Rabs nu * Rabs nu = nu * nu) by (rewrite <- Rabs_mult; apply Rabs_pos_eq; nra).
    unfold m2. nra. }
  rewrite Rabs_mult, (Rabs_pos_eq m2) by exact Hm0.
  replace (N2 - T * T) with (- (T * T - N2)) by ring. rewrite Rabs_Ropp.
  set (dd := Rabs (T * T - N2)) in *.
  assert (Hd0 : 0 <= dd) by apply Rabs_pos.
  assert (HN1 : N2 <= T * T + dd).
  { unfold dd. unfold Rabs. destruct (Rcase_abs _); lra. }
  set (h := pow2 (-560)) in *. clearbody h dd.
  assert (Hd1 : dd <= 2 * (8 * u64 * (T * T) + h)).
  { assert (0 <= T * T) by nra. nra. }
  assert (Hmd : m2 * dd <= m2 * (2 * (8 * u64 * (T * T) + h)))
    by (apply Rmult_le_compat_l; assumption).
  replace (m2 * (2 * (8 * u64 * (T * T) + h)))
    with (16 * u64 * (m2 * (T * T)) + 2 * (m2 * h)) in Hmd by ring.
  assert (m2 * h <= 1 / 2 * h) by (apply Rmult_le_compat_r; lra).
  assert (u64 * (m2 * (T * T)) <= u64 * (5 / 4)) by (apply Rmult_le_compat_l; lra).
  lra.
Qed.

(** The diagonal of the product with the adjoint. *)
Lemma diagonal_dev (V : R) :
  V = norm_part p q mu nu T + m2 * (N2 - T * T) + 2 * (Z * k) \/
  V = norm_part p q mu nu T + m2 * (N2 - T * T) - 2 * (Z * k) ->
  Rabs (V - 1) <= / 1000000000000.
Proof using HT Hn Hc Hp Hq Hmu Hnu HTmu HTnu Hrel.
  intros HV.
  assert (HZ : Z * Z <= N2) by (unfold N2; nra).
  pose proof (component_cross Z HZ) as H1. pose proof norm_defect as H2.
  apply Rabs_le_both in H1. apply Rabs_le_both in H2. apply Rabs_le_both in Hn.
  unfold bound in *. apply Rabs_le. destruct HV as [-> | ->]; lra.
Qed.

(** The rest of it. *)
Lemma off_diagonal_dev (V W : R) :
  W * W <= N2 -> V = 2 * (W * k) \/ V = - (2 * (W * k)) ->
  Rabs (V - 0) <= / 1000000000000.
Proof using HT Hc Hp Hq Hmu Hnu Hrel.
  intros HW HV. pose proof (component_cross W HW) as H1.
  apply Rabs_le_both in H1. unfold bound in *. apply Rabs_le.
  destruct HV as [-> | ->]; lra.
Qed.

End Deviation.

(** ** The matrix of [Quop.fromRotation] *)

Lemma signed_zero_approx (f : float) : signed_zero f -> approx f 0 0.
Proof. intros H. destruct (signed_zero_B2R f H) as [F E]. apply approx_exact; assumption. Qed.

Lemma finite_approx (f : float) : is_finite f = true -> approx f (B2R f) 0.
Proof. intros H. apply approx_exact; [ exact H | reflexivity ]. Qed.

Ltac signed_zero_solve :=
  repeat first
    [ apply signed_zero_literal
    | apply add_signed_zero
    | apply sub_signed_zero
    | apply mul_signed_zero_l; [ apply signed_zero_literal | first [ assumption | reflexivity ] ]
    | apply mul_signed_zero_r; [ first [ assumption | reflexivity ] | apply signed_zero_literal ] ].

Ltac exact_solve :=
  first
    [ apply finite_approx; assumption
    | apply approx_one_l; exact_solve
    | apply approx_m1_l; exact_solve
    | apply add_signed_zero_r; [ exact_solve | solve [ signed_zero_solve ] ]
    | apply add_signed_zero_l; [ solve [ signed_zero_solve ] | exact_solve ]
    | apply sub_signed_zero_r; [ exact_solve | solve [ signed_zero_solve ] ]
    | apply signed_zero_approx; solve [ signed_zero_solve ] ].

(** The entries of the result, from the two coefficients. *)
Lemma blend_parts (x y z ci_r ci_i cv_r cv_i : float) (p q mu nu ev B : R) :
  is_finite x = true -> is_finite y = true -> is_finite z = true ->
  approx ci_r p (2 * host_eps) -> approx ci_i q (2 * host_eps) ->
  approx cv_r mu ev -> approx cv_i nu ev ->
  Rabs p <= 1 -> Rabs q <= 1 ->
  Rabs (B2R x) <= B -> Rabs (B2R y) <= B -> Rabs (B2R z) <= B ->
  B * Rabs mu <= 101 / 100 -> B * Rabs nu <= 101 / 100 ->
  B * ev <= 501 / 100 * host_eps ->
  exists U : quop,
    (vx <- Quop.scaledBy Quop.PAULI_X (VNumber x) ;;
     vy <- Quop.scaledBy Quop.PAULI_Y (VNumber y) ;;
     vxy <- Quop.plus vx vy ;;
     vz <- Quop.scaledBy Quop.PAULI_Z (VNumber z) ;;
     sigma_v <- Quop.plus vxy vz ;;
     i <- Quop.scaledBy Quop.IDENTITY (VComplex (mkComplex ci_r ci_i)) ;;
     w <- Quop.scaledBy sigma_v (VComplex (mkComplex cv_r cv_i)) ;;
     Quop.minus i w) = Ok U /\
    entry_is (a U) (p - (B2R z * mu - 0 * nu)) (q - (B2R z * nu + 0 * mu)) /\
    entry_is (b U) (0 - (B2R x * mu - - B2R y * nu)) (0 - (B2R x * nu + - B2R y * mu)) /\
    entry_is (c U) (0 - (B2R x * mu - B2R y * nu)) (0 - (B2R x * nu + B2R y * mu)) /\
    entry_is (d U) (p - (- B2R z * mu - 0 * nu)) (q - (- B2R z * nu + 0 * mu)).
Proof.
  intros Fx Fy Fz Hp Hq Hmu Hnu Bp Bq BX BY BZ Bmu Bnu Bev.
  pose proof (approx_finite _ _ _ Hp) as Fp. pose proof (approx_finite _ _ _ Hq) as Fq.
  assert (HB0 : 0 <= B) by (pose proof (Rabs_pos (B2R x)); lra).
  assert (B0 : Rabs 0 <= B) by (rewrite Rabs_R0; exact HB0).
  assert (B1 : Rabs 0 <= 1) by (rewrite Rabs_R0; lra).
  assert (BY' : Rabs (- B2R y) <= B) by (rewrite Rabs_Ropp; exact BY).
  assert (BZ' : Rabs (- B2R z) <= B) by (rewrite Rabs_Ropp; exact BZ).
  assert (He0 : 0 <= 2 * host_eps) by (unfold host_eps; lra).
  eexists. split.
  - cbn -[PrimFloat.mul PrimFloat.add PrimFloat.sub].
    unfold Complex.minus, Complex.plus, Complex.mul. cbn [real imag]. reflexivity.
  - unfold entry_is, part. cbn [a b c d real imag].
    assert (Ir1 : approx (1 * ci_r - 0 * ci_i) p (2 * host_eps)).
    { apply sub_signed_zero_r; [ apply approx_one_l; exact Hp | signed_zero_solve ]. }
    assert (Ii1 : approx (1 * ci_i + 0 * ci_r) q (2 * host_eps)).
    { apply add_signed_zero_r; [ apply approx_one_l; exact Hq | signed_zero_solve ]. }
    assert (Ir0 : approx (0 * ci_r - 0 * ci_i) 0 (2 * host_eps)).
    { eapply approx_weaken; [ apply signed_zero_approx; signed_zero_solve | exact He0 ]. }
    assert (Ii0 : approx (0 * ci_i + 0 * ci_r) 0 (2 * host_eps)).
    { eapply approx_weaken; [ apply signed_zero_approx; signed_zero_solve | exact He0 ]. }
    assert (Sa_r : approx (0 * x - 0 * 0 + (0 * y - 0 * 0) + (1 * z - 0 * 0)) (B2R z) 0)
      by exact_solve.
    assert (Sa_i : approx (0 * 0 + 0 * x + (0 * 0 + 0 * y) + (1 * 0 + 0 * z)) 0 0)
      by exact_solve.
    assert (Sb_r : approx (1 * x - 0 * 0 + (0 * y - -1 * 0) + (0 * z - 0 * 0)) (B2R x) 0)
      by exact_solve.
    assert (Sb_i : approx (1 * 0 + 0 * x + (0 * 0 + -1 * y) + (0 * 0 + 0 * z)) (- B2R y) 0)
      by exact_solve.
    assert (Sc_r : approx (1 * x - 0 * 0 + (0 * y - 1 * 0) + (0 * z - 0 * 0)) (B2R x) 0)
      by exact_solve.
    assert (Sc_i : approx (1 * 0 + 0 * x + (0 * 0 + 1 * y) + (0 * 0 + 0 * z)) (B2R y) 0)
      by exact_solve.
    assert (Sd_r : approx (0 * x - 0 * 0 + (0 * y - 0 * 0) + (-1 * z - 0 * 0)) (- B2R z) 0)
      by exact_solve.
    assert (Sd_i : approx (0 * 0 + 0 * x + (0 * 0 + 0 * y) + (-1 * 0 + 0 * z)) 0 0)
      by exact_solve.
    pose proof (entry_approx _ _ _ _ _ _ _ _ _ _ _ _ _ _
                  Ir1 Ii1 Sa_r Sa_i Hmu Hnu Bp Bq BZ B0 Bmu Bnu Bev) as Ea.
    pose proof (entry_approx _ _ _ _ _ _ _ _ _ _ _ _ _ _
                  Ir0 Ii0 Sb_r Sb_i Hmu Hnu B1 B1 BX BY' Bmu Bnu Bev) as Eb.
    pose proof (entry_approx _ _ _ _ _ _ _ _ _ _ _ _ _ _
                  Ir0 Ii0 Sc_r Sc_i Hmu Hnu B1 B1 BX BY Bmu Bnu Bev) as Ec.
    pose proof (entry_approx _ _ _ _ _ _ _ _ _ _ _ _ _ _
                  Ir1 Ii1 Sd_r Sd_i Hmu Hnu Bp Bq BZ' B0 Bmu Bnu Bev) as Ed.
    split; [ exact Ea | ]. split; [ exact Eb | ]. split; [ exact Ec | exact Ed ].
Qed.

(** ** The product with the adjoint *)

Ltac part_solve := first [ eassumption | apply part_opp; eassumption ].

(** The check of the product with the adjoint, from the entries. *)
Lemma product_check (Math_sin Math_cos : float -> float) (U : quop)
    (p q mu nu X Y Z T : R) :
  entry_is (a U) (p - (Z * mu - 0 * nu)) (q - (Z * nu + 0 * mu)) ->
  entry_is (b U) (0 - (X * mu - - Y * nu)) (0 - (X * nu + - Y * mu)) ->
  entry_is (c U) (0 - (X * mu - Y * nu)) (0 - (X * nu + Y * mu)) ->
  entry_is (d U) (p - (- Z * mu - 0 * nu)) (q - (- Z * nu + 0 * mu)) ->
  0 <= T ->
  Rabs (norm_part p q mu nu T - 1) <= bound ->
  Rabs (T * cross_part p q mu nu) <= bound ->
  Rabs p <= 1 -> Rabs q <= 1 / 2 -> Rabs mu <= 1 / 2 -> Rabs nu <= 1 / 2 ->
  T * Rabs mu <= 1 -> T * Rabs nu <= 1 / 2 ->
  Rabs (T * T - (X * X + Y * Y + Z * Z))
    <= 8 * u64 * (X * X + Y * Y + Z * Z) + pow2 (-560) ->
  (U' <- Quop.adjoint U ;;
   P <- Quop.times U U' ;;
   Ok (Reference.near (binary64 Math_sin Math_cos)
                      (Reference.tolerance (binary64 Math_sin Math_cos))
                      P Quop.IDENTITY)) = Ok true.
Proof.
  destruct U as [[ar ai] [br bi] [cr ci] [dr di]]. cbn [a b c d].
  intros [Har Hai] [Hbr Hbi] [Hcr Hci] [Hdr Hdi] HT Hn Hc Hp Hq Hmu Hnu HTmu HTnu Hrel.
  cbn [real imag] in *.
  pose proof (diagonal_dev p q mu nu X Y Z T HT Hn Hc Hp Hq Hmu Hnu HTmu HTnu Hrel) as Dd.
  pose proof (off_diagonal_dev p q mu nu X Y Z T HT Hc Hp Hq Hmu Hnu Hrel) as Do.
  assert (HX : X * X <= X * X + Y * Y + Z * Z) by nra.
  assert (HY : Y * Y <= X * X + Y * Y + Z * Z) by nra.
  assert (H1 := approx_lit 1 1 eq_refl B2R_1).
  assert (H0 := approx_lit 0 0 eq_refl B2R_0).
  cbn -[PrimFloat.mul PrimFloat.add PrimFloat.sub PrimFloat.opp PrimFloat.abs
        PrimFloat.ltb PrimFloat.div float_of_Z].
  unfold Complex.plus, Complex.mul, Complex.conjugate. cbn [real imag].
  f_equal.
  unfold Reference.near, Reference.cnear.
  cbn [a b c d real imag nabs nsub nltb binary64].
  fold tol64.
  repeat (apply andb_true_intro; split).
  all: eapply near_approx;
    [ first [ apply dot_sub; part_solve | apply dot_add; part_solve ]
    | first [ exact H1 | exact H0 ]
    | first
        [ apply Dd; unfold norm_part, cross_part;
          first [ left; ring | right; ring ]
        | apply (Do _ X HX); unfold cross_part; first [ left; ring | right; ring ]
        | apply (Do _ Y HY); unfold cross_part; first [ left; ring | right; ring ]
        | apply (Do _ 0); [ nra | left; ring ] ] ].
Qed.

(** ** Unitarity *)

Lemma scaled_size (B T mu : R) :
  0 <= T -> B = (1 + / 1000000000000) * T + pow2 (-279) ->
  Rabs mu <= 1 / 2 -> T * Rabs mu <= 1 -> B * Rabs mu <= 101 / 100.
Proof.
  intros HT -> H1 H2. pose proof tiny_279 as H. pose proof (pow2_pos (-279)) as H'.
  pose proof (Rabs_pos mu) as H0.
  assert (pow2 (-279) * Rabs mu <= pow2 (-279) * (1 / 2))
    by (apply Rmult_le_compat_l; lra).
  nra.
Qed.

Lemma scaled_error (B T D : R) :
  0 <= T -> B = (1 + / 1000000000000) * T + pow2 (-279) ->
  (D = T /\ cutoff <= T) \/ (D = / 5000 /\ T < cutoff) ->
  B * (5 * host_eps / D) <= 501 / 100 * host_eps.
Proof.
  intros HT -> HD. pose proof tiny_279 as H. pose proof (pow2_pos (-279)) as H'.
  pose proof cutoff_range as [Hc1 Hc2].
  destruct HD as [[-> Hc] | [-> Hc]].
  - assert (HK : 0 < / T) by (apply Rinv_0_lt_compat; lra).
    assert (HKT : T * / T = 1) by (field; lra).
    assert (HK2 : / T <= 5000).
    { apply Rmult_le_reg_r with T; [ lra | ]. rewrite Rinv_l by lra. lra. }
    replace (((1 + / 1000000000000) * T + pow2 (-279)) * (5 * host_eps / T))
      with (5 * host_eps * ((1 + / 1000000000000) * (T * / T) + pow2 (-279) * / T))
      by (field; lra).
    rewrite HKT. set (K := / T) in *. clearbody K.
    assert (pow2 (-279) * K <= pow2 (-279) * 5000) by (apply Rmult_le_compat_l; lra).
    unfold host_eps. nra.
  - replace (5 * host_eps / / 5000) with (25000 * host_eps) by (unfold host_eps; field).
    unfold host_eps. nra.
Qed.


(** ** The sample host on a sample vector *)

(** Sine and cosine between two Taylor polynomials. *)
Lemma taylor_bounds (t : R) :
  0 <= t <= 1 ->
  t - t * t * t / 6 <= sin t <= t - t * t * t / 6 + t * t * t * t * t / 120 /\
  1 - t * t / 2 <= cos t <= 1 - t * t / 2 + t * t * t * t / 24.
Proof.
  intros [H0 H1]. split.
  - destruct (pre_sin_bound t 0 H0) as [Hlo Hhi]; [ lra | ].
    unfold sin_approx, sin_term in Hlo, Hhi. simpl in Hlo, Hhi. lra.
  - destruct (pre_cos_bound t 0) as [Hlo Hhi]; [ lra | lra | ].
    unfold cos_approx, cos_term in Hlo, Hhi. simpl in Hlo, Hhi. lra.
Qed.

(** The sample host is accurate on the sample vector. *)
Lemma poly_host_accurate :
  host_accurate poly_sin poly_cos [(-0.0002)%float; 0.0001%float; 0%float].
Proof.
  unfold host_accurate.
  set (v := [(-0.0002)%float; 0.0001%float; 0%float]).
  assert (Hs : (rotation_sign v * rotation_angle v)%float = rotation_angle v)
    by (vm_compute; reflexivity).
  cbv zeta. rewrite Hs.
  assert (Ht : B2R (rotation_angle v) = 6479247975436653 / 4611686018427387904).
  { rewrite (B2R_finite (rotation_angle v) false 6479247975436653 (-62)
               ltac:(vm_compute; reflexivity)), pow2_neg.
    change (2 ^ 62)%Z with 4611686018427387904%Z. unfold sign_of. field. }
  assert (Hh : B2R (rotation_angle v / 2)%float = 6479247975436653 / 9223372036854775808).
  { rewrite (B2R_finite ((rotation_angle v / 2)%float) false 6479247975436653 (-63)
               ltac:(vm_compute; reflexivity)), pow2_neg.
    change (2 ^ 63)%Z with 9223372036854775808%Z. unfold sign_of. field. }
  assert (Hc : B2R (poly_cos (rotation_angle v)) = 9007190364991651 / 9007199254740992).
  { rewrite (B2R_finite (poly_cos (rotation_angle v)) false 9007190364991651 (-53)
               ltac:(vm_compute; reflexivity)), pow2_neg.
    change (2 ^ 53)%Z with 9007199254740992%Z. unfold sign_of. field. }
  assert (Hp : B2R (poly_sin (rotation_angle v)) = 6479245843849509 / 4611686018427387904).
  { rewrite (B2R_finite (poly_sin (rotation_angle v)) false 6479245843849509 (-62)
               ltac:(vm_compute; reflexivity)), pow2_neg.
    change (2 ^ 62)%Z with 4611686018427387904%Z. unfold sign_of. field. }
  assert (Hq : B2R (poly_sin (rotation_angle v / 2)%float) = 6479247442539867 / 9223372036854775808).
  { rewrite (B2R_finite (poly_sin (rotation_angle v / 2)%float) false 6479247442539867 (-63)
               ltac:(vm_compute; reflexivity)), pow2_neg.
    change (2 ^ 63)%Z with 9223372036854775808%Z. unfold sign_of. field. }
  unfold approx. rewrite Ht, Hh, Hc, Hp, Hq.
  destruct (taylor_bounds (6479247975436653 / 4611686018427387904) ltac:(lra)) as [S1 C1].
  destruct (taylor_bounds (6479247975436653 / 9223372036854775808) ltac:(lra)) as [S2 _].
  unfold host_eps.
  repeat split; try reflexivity; apply Rabs_le; lra.
Qed.

